(** * Placement Driver: cluster controller, heartbeat intake and store
      lifecycle, embedded from [server/cluster/cluster.go] and the test
      tables that accompany the scheduling engine.

    Unsigned 64-bit quantities ([uint64] ids, epochs, timestamps) are [N];
    signed quantities and durations are [Z].  Go maps are [gmap]s.  A Go
    method on [*RaftCluster] that mutates the receiver becomes a function
    returning the new cluster next to its result. *)

From Stdlib Require Import ZArith QArith Ascii String List Bool Lia Sorted DecimalString.
From stdpp Require Import gmap strings list fin_maps.

Local Open Scope Z_scope.

(** ** Errors surfaced by the cluster controller *)

Inductive error : Type :=
| ErrStoreNotFound (storeID : N)
| ErrStoreRemoved (storeID : N)
| ErrStoreDestroyed (storeID : N)
| ErrStoresNotEnough (storeID : N) (expectUp : Z) (maxReplicas : Z)
| ErrNoStoreForRegionLeader (storeID : N)
| ErrStoreIsUp
| ErrNotOfflineNorDisconnected (storeID : N)
| ErrStorage
| ErrRegionIsStale (regionID : N).

(** ** Stores *)

Module Store.

(** Modelled from the spec: [core/store.go] is not part of the sources at
    hand.  The node states are those of the store state machine
    (Preparing, Serving, Removing, Tombstone). *)
Inductive NodeState : Type := Preparing | Serving | Removing | Removed.

#[global] Instance NodeState_eq_dec : EqDecision NodeState.
Proof. solve_decision. Defined.

(** The fields of [core.StoreInfo] that the cluster controller reads or
    writes in the functions embedded below. *)
Record StoreInfo : Type := mkStore {
  id : N;
  address : string;
  version : N;                 (* rank of the semantic version *)
  node_state : NodeState;
  physically_destroyed : bool;
  last_heartbeat : Z;          (* seconds *)
  leader_count : Z;
  is_tiflash : bool;
  min_resolved_ts : N;
}.

Definition IsPreparing (s : StoreInfo) : bool :=
  bool_decide (node_state s = Preparing).
Definition IsServing (s : StoreInfo) : bool :=
  bool_decide (node_state s = Serving).
Definition IsRemoving (s : StoreInfo) : bool :=
  bool_decide (node_state s = Removing).
Definition IsRemoved (s : StoreInfo) : bool :=
  bool_decide (node_state s = Removed).
Definition IsUp (s : StoreInfo) : bool := IsPreparing s || IsServing s.
Definition IsPhysicallyDestroyed (s : StoreInfo) : bool :=
  physically_destroyed s.

(** Modelled from the spec: a store is disconnected when it has not sent a
    heartbeat for longer than the disconnect duration (20 s). *)
Definition storeDisconnectDuration : Z := 20.
Definition IsDisconnected (now : Z) (s : StoreInfo) : bool :=
  storeDisconnectDuration <? now - last_heartbeat s.

(** [store.Clone(core.OfflineStore(physicallyDestroyed))] *)
Definition OfflineStore (physicallyDestroyed : bool) (s : StoreInfo) : StoreInfo :=
  mkStore (id s) (address s) (version s) Removing physicallyDestroyed
          (last_heartbeat s) (leader_count s) (is_tiflash s) (min_resolved_ts s).

(** [store.Clone(core.TombstoneStore())] *)
Definition TombstoneStore (s : StoreInfo) : StoreInfo :=
  mkStore (id s) (address s) (version s) Removed (physically_destroyed s)
          (last_heartbeat s) (leader_count s) (is_tiflash s) (min_resolved_ts s).

(** [store.Clone(core.SetMinResolvedTS(ts))] *)
Definition SetMinResolvedTS (ts : N) (s : StoreInfo) : StoreInfo :=
  mkStore (id s) (address s) (version s) (node_state s) (physically_destroyed s)
          (last_heartbeat s) (leader_count s) (is_tiflash s) ts.

(** Modelled from the spec: the stores whose report counts for the
    cluster-wide min-resolved-ts are the live ones that hold leaders and
    report the value (tombstones and columnar replicas do not). *)
Definition IsAvailableForMinResolvedTS (s : StoreInfo) : bool :=
  negb (IsRemoved s) && negb (is_tiflash s) && negb (leader_count s =? 0).

End Store.

(** ** Regions *)

Module Region.

Inductive PeerRole : Type := Voter | Learner.

#[global] Instance PeerRole_eq_dec : EqDecision PeerRole.
Proof. solve_decision. Defined.

(** [metapb.Peer] *)
Record Peer : Type := mkPeer {
  peer_id : N;
  store_id : N;
  role : PeerRole;
}.

#[global] Instance Peer_eq_dec : EqDecision Peer.
Proof. solve_decision. Defined.

(** [metapb.RegionEpoch] *)
Record RegionEpoch : Type := mkEpoch {
  ConfVer : N;
  Version : N;
}.

#[global] Instance RegionEpoch_eq_dec : EqDecision RegionEpoch.
Proof. solve_decision. Defined.

(** [core.RegionInfo]: the region meta (id, range, epoch, peers) with the
    heartbeat attributes the controller consults.  The epoch is a pointer
    in the protobuf message and may be nil. *)
Record RegionInfo : Type := mkRegion {
  id : N;
  start_key : string;
  end_key : string;
  epoch : option RegionEpoch;
  peers : list Peer;
  leader : option Peer;
  pending_peers : list Peer;
  down_peers : list (Peer * N);
  approximate_size : Z;
  buckets : option N;
}.

(** Protobuf getters return the zero value through a nil pointer. *)
Definition GetConfVer (e : option RegionEpoch) : N :=
  match e with Some e => ConfVer e | None => 0%N end.
Definition GetVersion (e : option RegionEpoch) : N :=
  match e with Some e => Version e | None => 0%N end.
Definition GetRegionEpoch (r : RegionInfo) : option RegionEpoch := epoch r.
Definition GetLeaderId (r : RegionInfo) : N :=
  match leader r with Some p => peer_id p | None => 0%N end.
Definition GetVoters (r : RegionInfo) : list Peer :=
  List.filter (fun p => bool_decide (role p = Voter)) (peers r).
Definition GetPendingPeers (r : RegionInfo) : list Peer := pending_peers r.

(** The epoch as the pair the cache is compared on. *)
Definition epoch_pair (r : RegionInfo) : N * N :=
  (GetConfVer (epoch r), GetVersion (epoch r)).

Definition with_epoch (e : option RegionEpoch) (r : RegionInfo) : RegionInfo :=
  mkRegion (id r) (start_key r) (end_key r) e (peers r) (leader r)
           (pending_peers r) (down_peers r) (approximate_size r) (buckets r).

(** [core.SetRegionConfVer] of [region_option.go] *)
Definition SetRegionConfVer (confVer : N) (r : RegionInfo) : RegionInfo :=
  match epoch r with
  | None => with_epoch (Some (mkEpoch confVer 1)) r
  | Some e => with_epoch (Some (mkEpoch confVer (Version e))) r
  end.

(** [core.SetRegionVersion] of [region_option.go] *)
Definition SetRegionVersion (version : N) (r : RegionInfo) : RegionInfo :=
  match epoch r with
  | None => with_epoch (Some (mkEpoch 1 version)) r
  | Some e => with_epoch (Some (mkEpoch (ConfVer e) version)) r
  end.

(** [core.WithLeader] of [region_option.go] *)
Definition WithLeader (l : option Peer) (r : RegionInfo) : RegionInfo :=
  mkRegion (id r) (start_key r) (end_key r) (epoch r) (peers r) l
           (pending_peers r) (down_peers r) (approximate_size r) (buckets r).

(** [core.SetPeers] of [region_option.go] *)
Definition SetPeers (ps : list Peer) (r : RegionInfo) : RegionInfo :=
  mkRegion (id r) (start_key r) (end_key r) (epoch r) ps (leader r)
           (pending_peers r) (down_peers r) (approximate_size r) (buckets r).

(** [core.WithAddPeer] of [region_option.go] *)
Definition WithAddPeer (p : Peer) (r : RegionInfo) : RegionInfo :=
  SetPeers (peers r ++ [p]) r.

(** [core.WithRemoveStorePeer] of [region_option.go] *)
Definition WithRemoveStorePeer (storeID : N) (r : RegionInfo) : RegionInfo :=
  SetPeers (List.filter (fun p => negb (N.eqb (store_id p) storeID)) (peers r)) r.

(** [region.Clone(opts...)]: the options are applied in order to a copy. *)
Definition Clone (opts : list (RegionInfo -> RegionInfo)) (r : RegionInfo) : RegionInfo :=
  fold_left (fun acc o => o acc) opts r.

(** Key ranges are half-open [[start, end)]; an empty end key is the
    end of the key space. *)
Definition key_before_end (k e : string) : bool :=
  String.eqb e EmptyString || String.ltb k e.

Definition ranges_overlap (a b : RegionInfo) : bool :=
  key_before_end (start_key a) (end_key b) &&
  key_before_end (start_key b) (end_key a).

Definition contains_key (r : RegionInfo) (k : string) : bool :=
  String.leb (start_key r) k && key_before_end k (end_key r).

End Region.

(** ** The cluster controller ([RaftCluster]) *)

Module Cluster.
Import Store Region.

(** [math.MaxUint64] *)
Definition MaxUint64 : N := 18446744073709551615%N.

(** Store limits are rates per minute; the controller only stores and
    copies them.  [storelimit.Unlimited] is the rate used while a store is
    being removed. *)
Inductive LimitType : Type := AddPeer | RemovePeer.
Definition Unlimited : Z := 100000000.

Record StoreLimitConfig : Type := mkLimit {
  limit_add_peer : Z;
  limit_remove_peer : Z;
}.

(** What the environment decides for one call: the wall clock and whether
    the writes to the persistence backend succeed. *)
Record Env : Type := mkEnv {
  now : Z;
  save_store_ok : bool;
  persist_opt_ok : bool;
  save_region_ok : bool;
}.

Record RaftCluster : Type := mkCluster {
  stores : gmap N StoreInfo;                 (* c.core, stores *)
  regions : gmap N RegionInfo;               (* c.core, regions *)
  minResolvedTS : N;
  prevStoreLimit : gmap N StoreLimitConfig;
  opt_max_replicas : Z;                      (* c.opt, replication *)
  opt_store_limit : gmap N StoreLimitConfig; (* c.opt, schedule config *)
  opt_default_limit : StoreLimitConfig;
  opt_cluster_version : N;
  opt_enable_region_bucket : bool;
  evict_leader_stores : option (list N);     (* evict-leader scheduler *)
  removing_progress : gset N;                (* progress manager *)
  preparing_progress : gset N;
  rolling_store_stats : gset N;              (* hot statistics *)
  kv_stores : gmap N StoreInfo;              (* c.storage *)
  kv_regions : gmap N RegionInfo;
  changedRegions : list RegionInfo;          (* bounded channel *)
}.

Definition defaultChangedRegionsLimit : Z := 10000.

Definition set_stores (f : gmap N StoreInfo -> gmap N StoreInfo) (c : RaftCluster) : RaftCluster :=
  mkCluster (f (stores c)) (regions c) (minResolvedTS c) (prevStoreLimit c)
    (opt_max_replicas c) (opt_store_limit c) (opt_default_limit c)
    (opt_cluster_version c) (opt_enable_region_bucket c) (evict_leader_stores c)
    (removing_progress c) (preparing_progress c) (rolling_store_stats c)
    (kv_stores c) (kv_regions c) (changedRegions c).

Definition set_regions (f : gmap N RegionInfo -> gmap N RegionInfo) (c : RaftCluster) : RaftCluster :=
  mkCluster (stores c) (f (regions c)) (minResolvedTS c) (prevStoreLimit c)
    (opt_max_replicas c) (opt_store_limit c) (opt_default_limit c)
    (opt_cluster_version c) (opt_enable_region_bucket c) (evict_leader_stores c)
    (removing_progress c) (preparing_progress c) (rolling_store_stats c)
    (kv_stores c) (kv_regions c) (changedRegions c).

Definition set_minResolvedTS (ts : N) (c : RaftCluster) : RaftCluster :=
  mkCluster (stores c) (regions c) ts (prevStoreLimit c)
    (opt_max_replicas c) (opt_store_limit c) (opt_default_limit c)
    (opt_cluster_version c) (opt_enable_region_bucket c) (evict_leader_stores c)
    (removing_progress c) (preparing_progress c) (rolling_store_stats c)
    (kv_stores c) (kv_regions c) (changedRegions c).

Definition set_prevStoreLimit (f : gmap N StoreLimitConfig -> gmap N StoreLimitConfig) (c : RaftCluster) : RaftCluster :=
  mkCluster (stores c) (regions c) (minResolvedTS c) (f (prevStoreLimit c))
    (opt_max_replicas c) (opt_store_limit c) (opt_default_limit c)
    (opt_cluster_version c) (opt_enable_region_bucket c) (evict_leader_stores c)
    (removing_progress c) (preparing_progress c) (rolling_store_stats c)
    (kv_stores c) (kv_regions c) (changedRegions c).

Definition set_opt_store_limit (f : gmap N StoreLimitConfig -> gmap N StoreLimitConfig) (c : RaftCluster) : RaftCluster :=
  mkCluster (stores c) (regions c) (minResolvedTS c) (prevStoreLimit c)
    (opt_max_replicas c) (f (opt_store_limit c)) (opt_default_limit c)
    (opt_cluster_version c) (opt_enable_region_bucket c) (evict_leader_stores c)
    (removing_progress c) (preparing_progress c) (rolling_store_stats c)
    (kv_stores c) (kv_regions c) (changedRegions c).

Definition set_opt_cluster_version (v : N) (c : RaftCluster) : RaftCluster :=
  mkCluster (stores c) (regions c) (minResolvedTS c) (prevStoreLimit c)
    (opt_max_replicas c) (opt_store_limit c) (opt_default_limit c)
    v (opt_enable_region_bucket c) (evict_leader_stores c)
    (removing_progress c) (preparing_progress c) (rolling_store_stats c)
    (kv_stores c) (kv_regions c) (changedRegions c).

Definition set_progress (fr fp : gset N -> gset N) (c : RaftCluster) : RaftCluster :=
  mkCluster (stores c) (regions c) (minResolvedTS c) (prevStoreLimit c)
    (opt_max_replicas c) (opt_store_limit c) (opt_default_limit c)
    (opt_cluster_version c) (opt_enable_region_bucket c) (evict_leader_stores c)
    (fr (removing_progress c)) (fp (preparing_progress c)) (rolling_store_stats c)
    (kv_stores c) (kv_regions c) (changedRegions c).

Definition set_rolling_store_stats (f : gset N -> gset N) (c : RaftCluster) : RaftCluster :=
  mkCluster (stores c) (regions c) (minResolvedTS c) (prevStoreLimit c)
    (opt_max_replicas c) (opt_store_limit c) (opt_default_limit c)
    (opt_cluster_version c) (opt_enable_region_bucket c) (evict_leader_stores c)
    (removing_progress c) (preparing_progress c) (f (rolling_store_stats c))
    (kv_stores c) (kv_regions c) (changedRegions c).

Definition set_kv_stores (f : gmap N StoreInfo -> gmap N StoreInfo) (c : RaftCluster) : RaftCluster :=
  mkCluster (stores c) (regions c) (minResolvedTS c) (prevStoreLimit c)
    (opt_max_replicas c) (opt_store_limit c) (opt_default_limit c)
    (opt_cluster_version c) (opt_enable_region_bucket c) (evict_leader_stores c)
    (removing_progress c) (preparing_progress c) (rolling_store_stats c)
    (f (kv_stores c)) (kv_regions c) (changedRegions c).

Definition set_kv_regions (f : gmap N RegionInfo -> gmap N RegionInfo) (c : RaftCluster) : RaftCluster :=
  mkCluster (stores c) (regions c) (minResolvedTS c) (prevStoreLimit c)
    (opt_max_replicas c) (opt_store_limit c) (opt_default_limit c)
    (opt_cluster_version c) (opt_enable_region_bucket c) (evict_leader_stores c)
    (removing_progress c) (preparing_progress c) (rolling_store_stats c)
    (kv_stores c) (f (kv_regions c)) (changedRegions c).

Definition set_changedRegions (f : list RegionInfo -> list RegionInfo) (c : RaftCluster) : RaftCluster :=
  mkCluster (stores c) (regions c) (minResolvedTS c) (prevStoreLimit c)
    (opt_max_replicas c) (opt_store_limit c) (opt_default_limit c)
    (opt_cluster_version c) (opt_enable_region_bucket c) (evict_leader_stores c)
    (removing_progress c) (preparing_progress c) (rolling_store_stats c)
    (kv_stores c) (kv_regions c) (f (changedRegions c)).

(** *** Lookups *)

(** [GetStore], [GetStores] *)
Definition GetStore (c : RaftCluster) (storeID : N) : option StoreInfo :=
  stores c !! storeID.
Definition GetStores (c : RaftCluster) : list StoreInfo :=
  (map_to_list (stores c)).*2.

(** [GetRegion], [GetRegionCount], [GetRegionByKey] *)
Definition GetRegion (c : RaftCluster) (regionID : N) : option RegionInfo :=
  regions c !! regionID.
Definition GetRegionCount (c : RaftCluster) : nat := size (regions c).
Definition GetRegionByKey (c : RaftCluster) (key : string) : option RegionInfo :=
  List.find (fun r => contains_key r key) (map_to_list (regions c)).*2.

(** [isInitialized] *)
Definition isInitialized (c : RaftCluster) : bool :=
  if (1 <? GetRegionCount c)%nat then true
  else match GetRegionByKey c EmptyString with
       | None => false
       | Some region =>
           (opt_max_replicas c <=? Z.of_nat (List.length (GetVoters region))) &&
           (List.length (GetPendingPeers region) =? 0)%nat
       end.

(** *** Store limits and progress *)

Definition get_limit (typ : LimitType) (l : StoreLimitConfig) : Z :=
  match typ with AddPeer => limit_add_peer l | RemovePeer => limit_remove_peer l end.

Definition with_limit (typ : LimitType) (rate : Z) (l : StoreLimitConfig) : StoreLimitConfig :=
  match typ with
  | AddPeer => mkLimit rate (limit_remove_peer l)
  | RemovePeer => mkLimit (limit_add_peer l) rate
  end.

(** [GetStoreLimitByType]: the configured limit, or the default one. *)
Definition GetStoreLimitByType (c : RaftCluster) (storeID : N) (typ : LimitType) : Z :=
  get_limit typ (default (opt_default_limit c) (opt_store_limit c !! storeID)).

(** [SetStoreLimit]: the new limit is rolled back when it cannot be
    persisted. *)
Definition SetStoreLimit (env : Env) (storeID : N) (typ : LimitType) (ratePerMin : Z)
    (c : RaftCluster) : RaftCluster * option error :=
  if persist_opt_ok env then
    (set_opt_store_limit
       (fun m => <[storeID := with_limit typ ratePerMin
                               (default (opt_default_limit c) (m !! storeID))]> m) c,
     None)
  else (c, Some ErrStorage).

(** [RemoveStoreLimit]: the in-memory change stays even if persisting
    fails (the error is only logged). *)
Definition RemoveStoreLimit (storeID : N) (c : RaftCluster) : RaftCluster :=
  set_opt_store_limit (delete storeID) c.

(** [resetProgress] *)
Definition resetProgress (storeID : N) (c : RaftCluster) : RaftCluster :=
  set_progress (fun s => s ∖ {[storeID]}) (fun s => s ∖ {[storeID]}) c.

(** [progressManager.AddProgress(encodeRemovingProgressKey(storeID), ...)] *)
Definition AddRemovingProgress (storeID : N) (c : RaftCluster) : RaftCluster :=
  set_progress (fun s => {[storeID]} ∪ s) (fun s => s) c.

(** *** Store lifecycle *)

(** [putStoreLocked] *)
Definition putStoreLocked (env : Env) (store : StoreInfo) (c : RaftCluster)
    : RaftCluster * option error :=
  if save_store_ok env then
    (set_rolling_store_stats (fun s => {[Store.id store]} ∪ s)
       (set_stores (fun m => <[Store.id store := store]> m)
          (set_kv_stores (fun m => <[Store.id store := store]> m) c)),
     None)
  else (c, Some ErrStorage).

(** [getUpStores] *)
Definition getUpStores (c : RaftCluster) : list N :=
  List.map Store.id (List.filter IsUp (GetStores c)).

(** [getEvictLeaderStores] *)
Definition getEvictLeaderStores (c : RaftCluster) : list N :=
  default [] (evict_leader_stores c).

(** [checkReplicaBeforeOfflineStore] *)
Definition checkReplicaBeforeOfflineStore (c : RaftCluster) (storeID : N) : option error :=
  let upStores := getUpStores c in
  let expectUpStoresNum := Z.of_nat (List.length upStores) - 1 in
  if expectUpStoresNum <? opt_max_replicas c then
    Some (ErrStoresNotEnough storeID expectUpStoresNum (opt_max_replicas c))
  else
    let evictStores := getEvictLeaderStores c in
    if Z.of_nat (List.length evictStores) <? expectUpStoresNum then None
    else
      let expectUpstores : gset N :=
        list_to_set (List.filter (fun i => negb (N.eqb i storeID)) upStores) in
      let evictLeaderStoresNum :=
        List.length (List.filter (fun i => bool_decide (i ∈ expectUpstores)) evictStores) in
      if (evictLeaderStoresNum =? size expectUpstores)%nat
      then Some (ErrNoStoreForRegionLeader storeID)
      else None.

(** [RemoveStore]: Up -> Offline. *)
Definition RemoveStore (env : Env) (storeID : N) (physicallyDestroyed : bool)
    (c : RaftCluster) : RaftCluster * option error :=
  match GetStore c storeID with
  | None => (c, Some (ErrStoreNotFound storeID))
  | Some store =>
    (* Remove an offline store should be OK, nothing to do. *)
    if IsRemoving store && Bool.eqb (IsPhysicallyDestroyed store) physicallyDestroyed
    then (c, None)
    else if IsRemoved store then (c, Some (ErrStoreRemoved storeID))
    else if IsPhysicallyDestroyed store then (c, Some (ErrStoreDestroyed storeID))
    else
      match (if (IsPreparing store || IsServing store) && negb physicallyDestroyed
             then checkReplicaBeforeOfflineStore c storeID else None) with
      | Some err => (c, Some err)
      | None =>
        let newStore := OfflineStore physicallyDestroyed store in
        match putStoreLocked env newStore c with
        | (c1, Some err) => (c1, Some err)
        | (c1, None) =>
          let c2 := AddRemovingProgress storeID (resetProgress storeID c1) in
          (* record the current store limit in memory *)
          let c3 := set_prevStoreLimit
                      (fun m => <[storeID := mkLimit (GetStoreLimitByType c2 storeID AddPeer)
                                                     (GetStoreLimitByType c2 storeID RemovePeer)]> m) c2 in
          (fst (SetStoreLimit env storeID RemovePeer Unlimited c3), None)
        end
      end
  end.

(** [onStoreVersionChangeLocked]: the cluster version follows the lowest
    version among the stores that are not tombstones. *)
Definition onStoreVersionChangeLocked (c : RaftCluster) : RaftCluster :=
  match List.map Store.version
                 (List.filter (fun s => negb (IsRemoved s)) (GetStores c)) with
  | [] => c
  | v :: vs =>
    let minVersion := List.fold_left N.min vs v in
    if N.eqb (opt_cluster_version c) minVersion then c
    else set_opt_cluster_version minVersion c
  end.

(** [BuryStore]: any state -> Tombstone. *)
Definition BuryStore (env : Env) (storeID : N) (forceBury : bool)
    (c : RaftCluster) : RaftCluster * option error :=
  match GetStore c storeID with
  | None => (c, Some (ErrStoreNotFound storeID))
  | Some store =>
    (* Bury a tombstone store should be OK, nothing to do. *)
    if IsRemoved store then (c, None)
    else if IsUp store && negb forceBury then (c, Some ErrStoreIsUp)
    else if IsUp store && negb (IsDisconnected (now env) store)
    then (c, Some (ErrNotOfflineNorDisconnected storeID))
    else
      let newStore := TombstoneStore store in
      match putStoreLocked env newStore c with
      | (c1, Some err) => (onStoreVersionChangeLocked c1, Some err)
      | (c1, None) =>
        let c2 := onStoreVersionChangeLocked c1 in
        (* clean up the residual information. *)
        let c3 := set_prevStoreLimit (delete storeID) c2 in
        let c4 := RemoveStoreLimit storeID c3 in
        let c5 := resetProgress storeID c4 in
        (set_rolling_store_stats (fun s => s ∖ {[storeID]}) c5, None)
      end
  end.

(** *** Min resolved ts *)

(** [SetMinResolvedTS] *)
Definition SetMinResolvedTS (env : Env) (storeID minResolved : N) (c : RaftCluster)
    : RaftCluster * option error :=
  match GetStore c storeID with
  | None => (c, Some (ErrStoreNotFound storeID))
  | Some store => putStoreLocked env (Store.SetMinResolvedTS minResolved store) c
  end.

(** The loop of [checkAndUpdateMinResolvedTS] over [c.GetStores()]. *)
Definition curMinResolvedTS (ss : list StoreInfo) : N :=
  List.fold_left
    (fun cur s =>
       if negb (IsAvailableForMinResolvedTS s) then cur
       else if (min_resolved_ts s <? cur)%N then min_resolved_ts s else cur)
    ss MaxUint64.

(** [checkAndUpdateMinResolvedTS] *)
Definition checkAndUpdateMinResolvedTS (c : RaftCluster) : RaftCluster * (N * bool) :=
  if negb (isInitialized c) then (c, (MaxUint64, false))
  else
    let cur := curMinResolvedTS (GetStores c) in
    if N.eqb cur MaxUint64 || (cur <=? minResolvedTS c)%N
    then (c, (minResolvedTS c, false))
    else (set_minResolvedTS cur c, (cur, true)).

(** [loadMinResolvedTS]: [loaded] is what [LoadMinResolvedTS] of the
    storage returns, [None] for an error; the stored value is overwritten
    with it unless the load fails. *)
Definition loadMinResolvedTS (loaded : option N) (c : RaftCluster) : RaftCluster :=
  match loaded with
  | None => c
  | Some ts => set_minResolvedTS ts c
  end.

(** One tick of [runMinResolvedTSJob] with a persistence interval other
    than zero: the value is saved when [checkAndUpdateMinResolvedTS] asks
    for it, and what [SaveMinResolvedTS] returns is ignored, so that the
    cluster after the tick is the one [checkAndUpdateMinResolvedTS]
    leaves. *)
Definition minResolvedTSTick (c : RaftCluster) : RaftCluster :=
  fst (checkAndUpdateMinResolvedTS c).

(** [GetMinResolvedTS] *)
Definition GetMinResolvedTS (c : RaftCluster) : N :=
  if negb (isInitialized c) then MaxUint64 else minResolvedTS c.

(** *** Region heartbeats *)

(** The cached regions, other than [region] itself, whose key range
    intersects the range of [region]. *)
Definition overlapping (region : RegionInfo) (kv : N * RegionInfo) : Prop :=
  kv.1 ≠ Region.id region ∧ ranges_overlap kv.2 region = true.

#[global] Instance overlapping_dec region kv : Decision (overlapping region kv).
Proof. unfold overlapping. apply _. Defined.

Definition GetOverlaps (rs : gmap N RegionInfo) (region : RegionInfo) : list RegionInfo :=
  (map_to_list (filter (overlapping region) rs)).*2.

(** Modelled from the spec: [core.BasicCluster.PreCheckPutRegion] is not
    part of the sources at hand.  The heartbeat is stale, and rejected,
    when an overlapping cached region has a greater version, or when the
    cached region of the same id has a greater [version] or a greater
    [conf_ver].  The cached region of the same id is returned as the
    origin. *)
Definition PreCheckPutRegion (rs : gmap N RegionInfo) (region : RegionInfo)
    : option RegionInfo * option error :=
  let r := GetRegionEpoch region in
  if existsb (fun item => (GetVersion r <? GetVersion (GetRegionEpoch item))%N)
             (GetOverlaps rs region)
  then (None, Some (ErrRegionIsStale (Region.id region)))
  else
    match rs !! Region.id region with
    | None => (None, None)
    | Some origin =>
      let o := GetRegionEpoch origin in
      if (GetVersion r <? GetVersion o)%N || (GetConfVer r <? GetConfVer o)%N
      then (Some origin, Some (ErrRegionIsStale (Region.id region)))
      else (Some origin, None)
    end.

(** Modelled from the spec: [core.BasicCluster.PutRegion] stores the region
    under its id and evicts the cached regions it overlaps, which it
    returns. *)
Definition PutRegion (rs : gmap N RegionInfo) (region : RegionInfo)
    : gmap N RegionInfo * list RegionInfo :=
  (<[Region.id region := region]> (filter (fun kv => ¬ overlapping region kv) rs),
   GetOverlaps rs region).

(** Modelled from the spec: [RegionInfo.Inherit] carries the size and the
    bucket state of the cached region over to a heartbeat that lacks
    them. *)
Definition Inherit (origin : option RegionInfo) (bucketEnable : bool) (r : RegionInfo)
    : RegionInfo :=
  let size :=
    if approximate_size r =? 0
    then match origin with Some o => approximate_size o | None => 1 end
    else approximate_size r in
  let bk :=
    match origin, buckets r with
    | Some o, None => if bucketEnable then buckets o else None
    | _, b => b
    end in
  mkRegion (Region.id r) (start_key r) (end_key r) (epoch r) (peers r) (leader r)
           (pending_peers r) (down_peers r) size bk.

(** The four decisions of [regionGuide]. *)
Record Guide : Type := mkGuide {
  isNew : bool;
  saveKV : bool;
  saveCache : bool;
  needSync : bool;
}.

(** Modelled from the spec: [core.GenerateRegionGuideFunc] is not part of
    the sources at hand; the decisions follow the comment at its call in
    [processRegionHeartbeat]: save to storage if the meta is updated, save
    to cache if the meta or the leader is updated or the region contains
    any down or pending peer, mark as new if the cached region has no
    leader. *)
Definition regionGuide (region : RegionInfo) (origin : option RegionInfo) : Guide :=
  match origin with
  | None => mkGuide true true true false
  | Some origin =>
    let r := GetRegionEpoch region in
    let o := GetRegionEpoch origin in
    let metaUpdated :=
      (GetVersion o <? GetVersion r)%N || (GetConfVer o <? GetConfVer r)%N ||
      negb (List.length (peers region) =? List.length (peers origin))%nat in
    let leaderUpdated := negb (N.eqb (GetLeaderId region) (GetLeaderId origin)) in
    let unhealthy :=
      negb (bool_decide (down_peers region = down_peers origin)) ||
      negb (bool_decide (pending_peers region = pending_peers origin)) ||
      negb (List.length (down_peers region) =? 0)%nat ||
      negb (List.length (pending_peers region) =? 0)%nat in
    mkGuide (leaderUpdated && N.eqb (GetLeaderId origin) 0)
            metaUpdated
            (metaUpdated || leaderUpdated || unhealthy)
            (leaderUpdated || unhealthy)
  end.

(** The non-blocking send [select { case changedRegions <- region: default: }]. *)
Definition notifyChanged (region : RegionInfo) (c : RaftCluster) : RaftCluster :=
  if Z.of_nat (List.length (changedRegions c)) <? defaultChangedRegionsLimit
  then set_changedRegions (fun q => q ++ [region]) c
  else c.

(** The writes to storage after the cache update; failures are only
    logged. *)
Definition persistRegion (env : Env) (g : Guide) (overlaps : list RegionInfo)
    (region : RegionInfo) (c : RaftCluster) : RaftCluster :=
  if save_region_ok env then
    let c1 := set_kv_regions
                (fun m => List.fold_left (fun m item => delete (Region.id item) m) overlaps m) c in
    if saveKV g then set_kv_regions (fun m => <[Region.id region := region]> m) c1 else c1
  else c.

(** [processRegionHeartbeat].  The hot-statistics tasks it queues and the
    region statistics it observes are outside the state kept here. *)
Definition processRegionHeartbeat (env : Env) (region : RegionInfo) (c : RaftCluster)
    : RaftCluster * option error :=
  match PreCheckPutRegion (regions c) region with
  | (_, Some err) => (c, Some err)
  | (origin, None) =>
    let region := Inherit origin (opt_enable_region_bucket c) region in
    let g := regionGuide region origin in
    if negb (saveKV g) && negb (saveCache g) && negb (isNew g) then (c, None)
    else
      let put :=
        if saveCache g then
          match PreCheckPutRegion (regions c) region with
          | (_, Some err) => inr err
          | (_, None) =>
            let '(rs, overlaps) := PutRegion (regions c) region in
            inl (set_regions (fun _ => rs) c, overlaps)
          end
        else inl (c, [])
      in
      match put with
      | inr err => (c, Some err)
      | inl (c1, overlaps) =>
        let c2 := persistRegion env g overlaps region c1 in
        ((if saveKV g || needSync g then notifyChanged region c2 else c2), None)
      end
  end.

(** [DropCacheRegion] removes a region from the cache. *)
Definition DropCacheRegion (regionID : N) (c : RaftCluster) : RaftCluster :=
  set_regions (delete regionID) c.

(** *** Reference notions used to state the properties *)

(** The store map is keyed by the id of the store it holds. *)
Definition wf_stores (c : RaftCluster) : Prop :=
  map_Forall (fun k s => Store.id s = k) (stores c).

#[global] Instance wf_stores_dec c : Decision (wf_stores c).
Proof. unfold wf_stores. apply _. Defined.

(** The minimum of the min-resolved-ts values reported by the stores that
    count for it, [MaxUint64] when there is none. *)
Definition min_serving (c : RaftCluster) : N :=
  List.fold_right N.min MaxUint64
    (List.map min_resolved_ts (List.filter IsAvailableForMinResolvedTS (GetStores c))).

(** The cached regions have pairwise disjoint key ranges. *)
Definition wf_regions (c : RaftCluster) : Prop :=
  map_Forall (fun i ri =>
    map_Forall (fun j rj => i ≠ j -> ranges_overlap ri rj = false) (regions c))
    (regions c).

#[global] Instance wf_regions_dec c : Decision (wf_regions c).
Proof. unfold wf_regions. apply _. Defined.

(** The epoch the cache holds for a region id. *)
Definition cached_epoch (c : RaftCluster) (regionID : N) : option (N * N) :=
  epoch_pair <$> GetRegion c regionID.




(** Processing a sequence of heartbeats; the epochs of those accepted
    (processed without error) are collected in order. *)
Fixpoint heartbeats (c : RaftCluster) (hs : list (Env * RegionInfo))
    : RaftCluster * list (N * N) :=
  match hs with
  | [] => (c, [])
  | (env, h) :: hs =>
    match processRegionHeartbeat env h c with
    | (c1, Some _) => heartbeats c1 hs
    | (c1, None) =>
      let '(c2, accepted) := heartbeats c1 hs in (c2, epoch_pair h :: accepted)
    end
  end.

(** Modelled from the spec: the admin handler of
    [DELETE /admin/cache/region/{id}] is not part of the sources at hand;
    it drops the region from the cache and answers 200. *)
Definition StatusOK : Z := 200.
Definition DeleteRegionCache (regionID : N) (c : RaftCluster) : RaftCluster * Z :=
  (DropCacheRegion regionID c, StatusOK).

(** The operations of the controller embedded here, as one step function. *)
Inductive Op : Type :=
| OpRemoveStore (storeID : N) (physicallyDestroyed : bool)
| OpBuryStore (storeID : N) (forceBury : bool)
| OpSetMinResolvedTS (storeID ts : N)
| OpRegionHeartbeat (region : RegionInfo)
| OpDropCacheRegion (regionID : N)
| OpCheckMinResolvedTS
| OpLoadMinResolvedTS (loaded : option N).

Definition step (c : RaftCluster) (eo : Env * Op) : RaftCluster :=
  let '(env, o) := eo in
  match o with
  | OpRemoveStore i pd => fst (RemoveStore env i pd c)
  | OpBuryStore i f => fst (BuryStore env i f c)
  | OpSetMinResolvedTS i ts => fst (SetMinResolvedTS env i ts c)
  | OpRegionHeartbeat r => fst (processRegionHeartbeat env r c)
  | OpDropCacheRegion i => DropCacheRegion i c
  | OpCheckMinResolvedTS => minResolvedTSTick c
  | OpLoadMinResolvedTS loaded => loadMinResolvedTS loaded c
  end.

Definition run (c : RaftCluster) (trace : list (Env * Op)) : RaftCluster :=
  List.fold_left step trace c.

(** Every value loaded from the storage along a trace is at least [b]. *)
Definition loads_at_least (b : N) (trace : list (Env * Op)) : Prop :=
  Forall (fun eo => match eo.2 with
                    | OpLoadMinResolvedTS (Some ts) => (b <= ts)%N
                    | _ => True
                    end) trace.

End Cluster.

(** ** Operator steps and their timeouts *)

Module Operator.

(** [time.Duration] counts nanoseconds. *)
Definition Second : Z := 1000000000.
Definition Minute : Z := 60 * Second.

Definition FastOperatorWaitTime : Z := 10 * Second.
Definition SlowOperatorWaitTime : Z := 10 * Minute.

Record PromoteLearnerStep : Type := mkPromote { pl_to_store : N; pl_peer_id : N }.
Record DemoteVoterStep : Type := mkDemote { dv_to_store : N; dv_peer_id : N }.

(** The steps named by [TestOpStepTimeout], with the fields the test
    leaves at their zero value. *)
Inductive OpStep : Type :=
| TransferLeader (fromStore toStore : N)
| AddPeer (toStore peerID : N)
| AddLearner (toStore peerID : N)
| PromoteLearner (p : PromoteLearnerStep)
| RemovePeer (fromStore peerID : N)
| MergeRegion (fromRegion toRegion : N) (isPassive : bool)
| SplitRegion (startKey endKey : string)
| ChangePeerV2Enter (promoteLearners : list PromoteLearnerStep)
                    (demoteVoters : list DemoteVoterStep)
| ChangePeerV2Leave (promoteLearners : list PromoteLearnerStep)
                    (demoteVoters : list DemoteVoterStep).

(** *** The bounds in the words of the specification *)

Definition spec_fast_bound (regionSize : Z) : Z :=
  Z.max (10 * Second) (regionSize * Second).
Definition spec_slow_bound (regionSize : Z) : Z :=
  Z.max (10 * Minute) (regionSize * (6 * Second)).

Definition spec_bound (step : OpStep) (regionSize : Z) : Z :=
  match step with
  | TransferLeader _ _ | RemovePeer _ _ | SplitRegion _ _ | PromoteLearner _ =>
      spec_fast_bound regionSize
  | AddPeer _ _ | AddLearner _ _ => spec_slow_bound regionSize
  | ChangePeerV2Enter _ _ | ChangePeerV2Leave _ _ => 3 * spec_slow_bound regionSize
  | MergeRegion _ _ _ => 10 * spec_slow_bound regionSize
  end.

(** A timeout of the shape the specification gives it: the step has timed
    out when [elapsed], which is [time.Since(start)], exceeds a bound that
    depends on the step and on the size of the region. *)
Definition timeout_of (bound : OpStep -> Z -> Z)
    (step : OpStep) (elapsed regionSize : Z) : bool :=
  bound step regionSize <? elapsed.

(** [step.Timeout(start, regionSize)] with the bound of the
    specification. *)
Definition spec_Timeout : OpStep -> Z -> Z -> bool := timeout_of spec_bound.

(** *** The table of [TestOpStepTimeout] *)

Record TimeoutCase : Type := mkCase {
  case_step : list OpStep;
  case_regionSize : Z;
  case_elapsed : Z;              (* now - start *)
  case_expect : bool;
}.

Definition slow_steps : list OpStep := [AddLearner 0 0; AddPeer 0 0].
Definition fast_steps : list OpStep :=
  [RemovePeer 0 0; TransferLeader 0 0; SplitRegion "" ""; PromoteLearner (mkPromote 0 0)].
Definition joint_steps : list OpStep :=
  [ChangePeerV2Enter [mkPromote 0 0; mkPromote 0 0] [];
   ChangePeerV2Leave [mkPromote 0 0; mkPromote 0 0] []].

Definition testData : list TimeoutCase :=
  [ (* case1: 10GB region will have 60,000s to executor. *)
    mkCase slow_steps (10 * 1000) (Second * (6 * 10 * 1000) + Second) true;
    mkCase slow_steps (10 * 1000) (Second * (6 * 10 * 1000) - Second) false;
    (* case2: 10MB region will have at least SlowOperatorWaitTime(10min). *)
    mkCase slow_steps 10 (SlowOperatorWaitTime + Second) true;
    mkCase slow_steps 10 (Second * (6 * 10) - Second) false;
    (* case3: 10GB region will have 1000s for the fast steps. *)
    mkCase fast_steps (10 * 1000) (Second * 1000 + Second) true;
    mkCase fast_steps (10 * 1000) (Second * 1000 - Second) false;
    (* case4: 10MB will have at least FastOperatorWaitTime(10s). *)
    mkCase fast_steps 10 (FastOperatorWaitTime + Second) true;
    mkCase fast_steps 10 (FastOperatorWaitTime - Second) false;
    (* case5: 10GB region will have 1000*3 for ChangePeerV2Enter, ChangePeerV2Leave. *)
    mkCase joint_steps (10 * 1000) (Second * 3000 + Second) true;
    mkCase joint_steps (10 * 1000) (Second * 3000 - Second) false;
    (* case6: 10GB region will have 1000*10s for MergeRegion. *)
    mkCase [MergeRegion 0 0 false] (10 * 1000) (Second * 10000 + Second) true;
    mkCase [MergeRegion 0 0 false] (10 * 1000) (Second * 10000 - Second) false ].

(** The loop of the test: every step of every row meets the expectation. *)
Definition passes (timeout : OpStep -> Z -> Z -> bool) (cases : list TimeoutCase) : bool :=
  forallb (fun v =>
    forallb (fun step =>
      Bool.eqb (timeout step (case_elapsed v) (case_regionSize v)) (case_expect v))
      (case_step v)) cases.

(** [operator/step.go] is not part of the sources at hand: what the
    sources fix of the bounds is the table above.  [table_bound] is one
    bound that meets every row of it, made of the durations the comments
    of the table name (1000 s and 60,000 s for a region of 10 GB, the
    floors [FastOperatorWaitTime] and [SlowOperatorWaitTime], three and
    ten times 1000 s for the joint steps and the merge); it shows that the
    table can be met and is not put forward as the text of the
    implementation. *)
Definition table_bound (step : OpStep) (regionSize : Z) : Z :=
  let fast := Z.max FastOperatorWaitTime (regionSize * (Second / 10)) in
  let slow := Z.max SlowOperatorWaitTime (regionSize * (6 * Second)) in
  match step with
  | TransferLeader _ _ | RemovePeer _ _ | SplitRegion _ _ | PromoteLearner _ => fast
  | AddPeer _ _ | AddLearner _ _ => slow
  | ChangePeerV2Enter _ _ | ChangePeerV2Leave _ _ => fast * 3
  | MergeRegion _ _ _ => fast * 10
  end.

End Operator.

(** ** Hot-peer statistics *)

Module Statistics.

(** Modelled from the spec: the statistics package ([hot_peer_cache.go],
    [hot_peer.go], [kind.go]) is not part of the sources at hand; what
    follows is the update rule of the design (section 4.2), with the
    constants the tests use by name.  Intervals are in seconds, loads are
    rationals. *)
Definition StoreHeartBeatReportInterval : Z := 10.
Definition RegionHeartBeatReportInterval : Z := 60.
Definition hotRegionAntiCount : Z := 2.

Inductive RWType : Type := Write | Read.
Inductive ActionType : Type := Add | Remove | Update.

#[global] Instance RWType_eq_dec : EqDecision RWType.
Proof. solve_decision. Defined.
#[global] Instance ActionType_eq_dec : EqDecision ActionType.
Proof. solve_decision. Defined.

(** Read statistics come with store heartbeats, write statistics with
    region heartbeats. *)
Definition ReportInterval (k : RWType) : Z :=
  match k with
  | Write => RegionHeartBeatReportInterval
  | Read => StoreHeartBeatReportInterval
  end.

(** [m]: how many reports of the kind fit in a region heartbeat. *)
Definition reports_per_region_heartbeat (k : RWType) : Z :=
  match k with
  | Write => 1
  | Read => RegionHeartBeatReportInterval / StoreHeartBeatReportInterval
  end.

Record HotPeerStat : Type := mkStat {
  StoreID : N;
  RegionID : N;
  Kind : RWType;
  HotDegree : Z;
  AntiCount : Z;
  actionType : ActionType;
  isLeader : bool;
  thresholds : list Q;
  deltaSum : list Q;             (* loads accumulated while warming up *)
  intervalSum : Z;               (* seconds accumulated while warming up *)
  justTransferLeader : bool;
  lastTransferLeaderTime : Z;
}.

Definition with_counts (degree anti : Z) (action : ActionType) (ds : list Q)
    (isum last : Z) (s : HotPeerStat) : HotPeerStat :=
  mkStat (StoreID s) (RegionID s) (Kind s) degree anti action (isLeader s)
         (thresholds s) ds isum (justTransferLeader s) last.

(** Some dimension whose rate over the interval reaches its threshold. *)
Definition over_threshold (loads ths : list Q) (interval : Z) : bool :=
  existsb (fun lt => Qle_bool (snd lt * inject_Z interval) (fst lt))
          (List.combine loads ths).

Fixpoint add_loads (a b : list Q) : list Q :=
  match a, b with
  | x :: a, y :: b => (x + y)%Q :: add_loads a b
  | [], b => b
  | a, [] => a
  end.

Definition hot_anti_count (k : RWType) : Z :=
  hotRegionAntiCount * reports_per_region_heartbeat k.

(** A peer seen for the first time. *)
Definition updateNewHotPeerStat (newItem : HotPeerStat) (deltaLoads : list Q)
    (interval : Z) : option HotPeerStat :=
  if interval =? 0 then None
  else if negb (over_threshold deltaLoads (thresholds newItem) interval) then None
  else if ReportInterval (Kind newItem) <=? interval
  then Some (with_counts 1 (hot_anti_count (Kind newItem)) Add [] 0
               (lastTransferLeaderTime newItem) newItem)
  else Some (with_counts 0 0 Add deltaLoads interval
               (lastTransferLeaderTime newItem) newItem).

(** [updateHotPeerStat]: [now] is the wall clock in seconds. *)
Definition updateHotPeerStat (now : Z) (newItem : HotPeerStat) (oldItem : option HotPeerStat)
    (deltaLoads : list Q) (interval : Z) : option HotPeerStat :=
  match oldItem with
  | None => updateNewHotPeerStat newItem deltaLoads interval
  | Some old =>
    let last := if justTransferLeader newItem then now else lastTransferLeaderTime old in
    let ds := add_loads (deltaSum old) deltaLoads in
    let isum := intervalSum old + interval in
    if isum <? ReportInterval (Kind newItem) then
      (* warming up: degree and anti-count are inherited *)
      Some (with_counts (HotDegree old) (AntiCount old) (actionType newItem) ds isum last newItem)
    else if over_threshold ds (thresholds newItem) isum then
      Some (with_counts (HotDegree old + 1) (hot_anti_count (Kind newItem))
              (actionType newItem) [] 0 last newItem)
    else
      let anti := AntiCount old - 1 in
      Some (with_counts (HotDegree old - 1) anti
              (if anti <=? 0 then Remove else actionType newItem) [] 0 last newItem)
  end.

(** [IsNeedCoolDownTransferLeader]: the leader moved less than
    [minHotDegree] report intervals ago. *)
Definition IsNeedCoolDownTransferLeader (now : Z) (minHotDegree : Z) (s : HotPeerStat) : bool :=
  now - lastTransferLeaderTime s <? minHotDegree * ReportInterval (Kind s).


(** The run of [TestUpdateHotPeerStat]: the item returned by a call is
    passed as both the new and the old item of the next one. *)
Definition again (now : Z) (deltaLoads : list Q) (interval : Z) (item : option HotPeerStat)
    : option HotPeerStat :=
  match item with
  | Some i => updateHotPeerStat now i (Some i) deltaLoads interval
  | None => None
  end.

Definition with_thresholds (ths : list Q) (s : HotPeerStat) : HotPeerStat :=
  mkStat (StoreID s) (RegionID s) (Kind s) (HotDegree s) (AntiCount s) (actionType s)
         (isLeader s) ths (deltaSum s) (intervalSum s) (justTransferLeader s)
         (lastTransferLeaderTime s).

Definition fresh_item (k : RWType) (ths : list Q) : HotPeerStat :=
  mkStat 0 0 k 0 0 Update false ths [] 0 false 0.

Definition counts (o : option HotPeerStat) : option (Z * Z * ActionType) :=
  (fun s => (HotDegree s, AntiCount s, actionType s)) <$> o.

(** *** The cache of a kind *)

(** Stats are kept per (region, store). *)
Record hotPeerCache : Type := mkCache {
  kind : RWType;
  peersOfStore : gmap (N * N) HotPeerStat;
}.

Definition getOldHotPeerStat (f : hotPeerCache) (regionID storeID : N) : option HotPeerStat :=
  peersOfStore f !! (regionID, storeID).

(** The stats the cache holds for a region. *)
Definition statsOfRegion (f : hotPeerCache) (regionID : N) : list HotPeerStat :=
  List.filter (fun s => N.eqb (RegionID s) regionID) (map_to_list (peersOfStore f)).*2.

Definition leaderStoreId (region : Region.RegionInfo) : N :=
  match Region.leader region with Some p => Region.store_id p | None => 0%N end.

(** The leader has just moved when the stat that was recorded for the
    leader sits on another store than the leader of the reported region. *)
Definition justTransferLeaderOf (f : hotPeerCache) (region : Region.RegionInfo) : bool :=
  match List.find isLeader (statsOfRegion f (Region.id region)) with
  | Some oldItem => negb (N.eqb (StoreID oldItem) (leaderStoreId region))
  | None => false
  end.

(** [checkPeerFlow]: the item for one peer of a reported region;
    [calcHotThresholds] gives the thresholds of the store. *)
Definition checkPeerFlow (now : Z) (calcHotThresholds : N -> list Q) (f : hotPeerCache)
    (peer : Region.Peer) (region : Region.RegionInfo) (deltaLoads : list Q) (interval : Z)
    : option HotPeerStat :=
  let storeID := Region.store_id peer in
  let newItem :=
    mkStat storeID (Region.id region) (kind f) 0 0 Update
           (N.eqb storeID (leaderStoreId region))
           (calcHotThresholds storeID) [] 0
           (justTransferLeaderOf f region) 0 in
  updateHotPeerStat now newItem (getOldHotPeerStat f (Region.id region) storeID)
                    deltaLoads interval.

(** [collectExpiredItems]: the stats of stores that no longer hold a peer
    of the region are to be removed. *)
Definition collectExpiredItems (f : hotPeerCache) (region : Region.RegionInfo)
    : list HotPeerStat :=
  List.map (fun s => with_counts (HotDegree s) (AntiCount s) Remove (deltaSum s)
                       (intervalSum s) (lastTransferLeaderTime s) s)
    (List.filter
       (fun s => negb (existsb (fun p => N.eqb (Region.store_id p) (StoreID s))
                               (Region.peers region)))
       (statsOfRegion f (Region.id region))).


(** [updateStat] *)
Definition updateStat (f : hotPeerCache) (item : HotPeerStat) : hotPeerCache :=
  match actionType item with
  | Remove => mkCache (kind f) (delete (RegionID item, StoreID item) (peersOfStore f))
  | _ => mkCache (kind f) (<[(RegionID item, StoreID item) := item]> (peersOfStore f))
  end.

(** [checkFlow] and [updateFlow] of the tests: all the items of a report
    are computed against the cache as it is, then applied. *)
Definition checkFlow (now : Z) (calcHotThresholds : N -> list Q) (f : hotPeerCache)
    (region : Region.RegionInfo) (deltaLoads : list Q) (interval : Z) : list HotPeerStat :=
  collectExpiredItems f region ++
  omap (fun peer => checkPeerFlow now calcHotThresholds f peer region deltaLoads interval)
       (Region.peers region).

Definition checkAndUpdate (now : Z) (calcHotThresholds : N -> list Q) (f : hotPeerCache)
    (region : Region.RegionInfo) (deltaLoads : list Q) (interval : Z) : hotPeerCache :=
  List.fold_left updateStat (checkFlow now calcHotThresholds f region deltaLoads interval) f.

End Statistics.

(** ** The timestamp oracle *)

Module TSO.

(** Modelled from the spec: the allocator ([server/tso]) and the admin
    handler of [POST /admin/reset-ts] are not part of the sources at hand;
    what follows is section 4.8 of the design.  Physical times are in
    milliseconds. *)
Definition logicalBits : Z := 18.
Definition maxLogical : Z := 2 ^ logicalBits.
Definition saveInterval : Z := 3000.
Definition maxResetTSGap : Z := 24 * 60 * 60 * 1000.

(** A timestamp is [(physical_ms << 18) | logical]. *)
Definition ComposeTS (physical logical : Z) : Z :=
  Z.lor (Z.shiftl physical logicalBits) logical.
Definition ExtractPhysical (ts : Z) : Z := Z.shiftr ts logicalBits.
Definition ExtractLogical (ts : Z) : Z := Z.land ts (maxLogical - 1).

Record timestampOracle : Type := mkOracle {
  physical : Z;
  logical : Z;
  lastSavedTime : Z;            (* the bound persisted to the MetaStore *)
  isLeader : bool;
}.

Definition current (t : timestampOracle) : Z := ComposeTS (physical t) (logical t).

(** Start of an allocator that finds [last] persisted: it starts from the
    wall clock, or from the persisted bound when the clock is behind it. *)
Definition SyncTimestamp (wall last : Z) : timestampOracle :=
  let next := Z.max wall last in
  mkOracle next 0 (next + saveInterval) true.

(** Restart: only the persisted bound survives. *)
Definition Restart (wall : Z) (t : timestampOracle) : timestampOracle :=
  SyncTimestamp wall (lastSavedTime t).

(** "If (physical, logical+count) would exceed the persisted max, persist
    a new max = wall+saveInterval first." *)
Definition save_if_needed (wall : Z) (t : timestampOracle) : timestampOracle :=
  if lastSavedTime t <=? physical t
  then mkOracle (physical t) (logical t) (wall + saveInterval) (isLeader t)
  else t.

Inductive tso_error : Type :=
| GenerateTimestampFailed
| ZeroCount
| Exhausted.

(** The answer to [GetTS(count)]: the timestamps
    [(physical, logical - count + 1) .. (physical, logical)]. *)
Record Timestamp : Type := mkTS {
  ts_physical : Z;
  ts_logical : Z;
  ts_count : Z;
}.

Definition GetTS (wall count : Z) (t : timestampOracle)
    : timestampOracle * (Timestamp + tso_error) :=
  if negb (isLeader t) then (t, inr GenerateTimestampFailed)
  else if count <=? 0 then (t, inr ZeroCount)
  else if maxLogical <=? count then (t, inr Exhausted)
  else
    (* Physical = max(lastPhysical, wallClock) *)
    let '(p, l) := if physical t <? wall then (wall, 0) else (physical t, logical t) in
    (* logical is 18 bits; if it would overflow, advance physical by 1 ms *)
    let '(p, l) := if maxLogical <=? l + count then (p + 1, 0) else (p, l) in
    let t' := save_if_needed wall (mkOracle p (l + count) (lastSavedTime t) (isLeader t)) in
    (t', inl (mkTS p (l + count) count)).


(** *** Reset by the administrator *)

Definition StatusOK : Z := 200.
Definition StatusBadRequest : Z := 400.
Definition StatusForbidden : Z := 403.

Definition digit_of (a : Ascii.ascii) : option Z :=
  let n := Z.of_nat (Ascii.nat_of_ascii a) in
  if (48 <=? n) && (n <=? 57) then Some (n - 48) else None.

Fixpoint parse_digits (acc : Z) (s : string) : option Z :=
  match s with
  | EmptyString => Some acc
  | String a s =>
    match digit_of a with
    | Some d => parse_digits (10 * acc + d) s
    | None => None
    end
  end.

(** [strconv.ParseUint(s, 10, 64)] *)
Definition ParseUint (s : string) : option Z :=
  match s with
  | EmptyString => None
  | _ => match parse_digits 0 s with
         | Some n => if n <? 2 ^ 64 then Some n else None
         | None => None
         end
  end.

Definition contains (sub s : string) : bool :=
  match String.index 0 sub s with Some _ => true | None => false end.

Definition msg_ok : string := "Reset ts successfully.".
Definition msg_invalid : string := "invalid tso value".
Definition msg_small : string := "the specified ts is smaller than now".
Definition msg_large : string := "the specified ts is too larger than now".

(** [ResetTS]: accept [ts] only if it is greater than the current TSO and
    its physical part is within [maxResetTSGap] of the wall clock. *)
Definition ResetTS (wall : Z) (input : string) (t : timestampOracle)
    : timestampOracle * (Z * string) :=
  match ParseUint input with
  | None => (t, (StatusBadRequest, msg_invalid))
  | Some ts =>
    if ts <=? current t then (t, (StatusForbidden, msg_small))
    else if maxResetTSGap <? ExtractPhysical ts - wall
    then (t, (StatusForbidden, msg_large))
    else if maxResetTSGap <? wall - ExtractPhysical ts
    then (t, (StatusForbidden, msg_small))
    else
      (save_if_needed wall
         (mkOracle (ExtractPhysical ts) (ExtractLogical ts) (lastSavedTime t) (isLeader t)),
       (StatusOK, msg_ok))
  end.

(** *** Histories *)






(** [makeTS] of the tests: the timestamp of the wall clock shifted by an
    offset; [FormatUint] is its decimal text ([fmt.Sprintf("%d", t)]). *)
Definition makeTS (wall offset : Z) : Z := Z.shiftl (wall + offset) 18.
Definition FormatUint (z : Z) : string :=
  NilZero.string_of_uint (N.to_uint (Z.to_N z)).
Definition Hour : Z := 60 * 60 * 1000.

(** The wall clock of the scenarios, in milliseconds. *)
Definition test_wall : Z := 1700000000000.

End TSO.

(** ** Concrete clusters used to exercise the definitions *)

Module Scenario.
Import Store Region Cluster.

Definition serving_store (i : N) : StoreInfo :=
  mkStore i "127.0.0.1:20160" 6 Serving false 0 1 false (100 + i).

Definition env_ok : Env := mkEnv 10 true true true.
Definition env_down : Env := mkEnv 10 false false false.

(** Four serving stores, three replicas, no region yet. *)
Definition four_stores : RaftCluster :=
  mkCluster
    (list_to_map [(1%N, serving_store 1); (2%N, serving_store 2);
                  (3%N, serving_store 3); (4%N, serving_store 4)])
    ∅ 0 ∅ 3 ∅ (mkLimit 15 15) 6 false None ∅ ∅ ∅ ∅ ∅ [].

Definition voter (pid sid : N) : Peer := mkPeer pid sid Voter.

Definition region1 : RegionInfo :=
  mkRegion 1 "" "m" (Some (mkEpoch 1 1))
    [voter 11 1; voter 12 2; voter 13 3] (Some (voter 11 1)) [] [] 96 None.
Definition region2 : RegionInfo :=
  mkRegion 2 "m" "" (Some (mkEpoch 1 1))
    [voter 21 2; voter 22 3; voter 23 4] (Some (voter 21 2)) [] [] 96 None.

(** The same stores with the key space split into two regions. *)
Definition two_regions : RaftCluster :=
  set_regions (fun _ => list_to_map [(1%N, region1); (2%N, region2)]) four_stores.

(** The heartbeats of [TestDropRegion]: the region found by key with its
    epoch set to (100,100) and a single peer that leads it, then the same
    with its epoch lowered to (50,50). *)
Definition hb100 : RegionInfo :=
  Clone [WithLeader (Some (voter 109 2)); SetPeers [voter 109 2]]
    (Clone [SetRegionConfVer 100; SetRegionVersion 100] region1).
Definition hb50 : RegionInfo :=
  Clone [SetRegionConfVer 50; SetRegionVersion 50] hb100.
Definition hb101 : RegionInfo :=
  Clone [SetRegionVersion 101] hb100.

Definition hbs : list (Env * RegionInfo) :=
  [(env_ok, hb100); (env_down, hb50); (env_ok, hb101)].



Definition after_hb100 : RaftCluster :=
  fst (processRegionHeartbeat env_ok hb100 two_regions).

(** The scenario of [TestCoolDownTransferLeader]: a region read on three
    stores and led from store 1, reported two hundred times. *)
Definition hot_region : RegionInfo :=
  mkRegion 1000 "" "" (Some (mkEpoch 6 6))
    [voter 10001 1; voter 10002 2; voter 10003 3] (Some (voter 10001 1)) [] [] 96 None.
Definition read_loads : list Q := [600; 600; 600]%Q.
Definition min_thresholds (storeID : N) : list Q := [1; 1; 1]%Q.
Definition test_time : Z := 100000.

Definition report (region : RegionInfo) (f : Statistics.hotPeerCache)
    : Statistics.hotPeerCache :=
  Statistics.checkAndUpdate test_time min_thresholds f region read_loads 60.

Definition warm_cache : Statistics.hotPeerCache :=
  Nat.iter 200 (report hot_region) (Statistics.mkCache Statistics.Read ∅).

(** The operations [schedule] applies to the region. *)
Definition transferLeader : RegionInfo :=
  Clone [WithLeader (Some (voter 10002 2))] hot_region.
Definition movePeer : RegionInfo :=
  Clone [WithRemoveStorePeer 3] (Clone [WithAddPeer (voter 101 10)] hot_region).
Definition addReplica : RegionInfo :=
  Clone [WithAddPeer (voter 101 10)] hot_region.
Definition removeReplica : RegionInfo :=
  Clone [WithRemoveStorePeer 3] hot_region.


(** [checkCoolDown]: the stat of the leader's store, asked whether it is
    cooling down. *)
Definition checkCoolDown (f : Statistics.hotPeerCache) (region : RegionInfo) : option bool :=
  Statistics.IsNeedCoolDownTransferLeader test_time 3 <$>
    Statistics.getOldHotPeerStat f (Region.id region) (Statistics.leaderStoreId region).

(** Before any operation, then after a report that follows a transfer of
    the leader, a move of a peer, an added replica, a removed replica. *)
Definition checkCoolDown_all : option bool * (option bool * option bool * option bool * option bool) :=
  (checkCoolDown warm_cache hot_region,
   (checkCoolDown (report transferLeader warm_cache) transferLeader,
    checkCoolDown (report movePeer warm_cache) movePeer,
    checkCoolDown (report addReplica warm_cache) addReplica,
    checkCoolDown (report removeReplica warm_cache) removeReplica)).

End Scenario.

(** ** More of the cluster controller: bringing stores up, tombstone
       records, bucket reports *)

Module StoreOps.
Import Store Region Cluster.

(** The errors of [UpStore] and [ReadyToServe]: those of the lifecycle,
    and [ErrStoreServing]. *)
Inductive up_error : Type :=
| Lifecycle (e : error)
| ErrStoreServing (storeID : N).

(** Modelled from the spec: [core.UpStore()] puts the store in the Serving
    state (the rate limiters a store carries are outside the state kept
    here, so are the [core.ResetStoreLimit] options). *)
Definition UpStoreOption (s : StoreInfo) : StoreInfo :=
  mkStore (Store.id s) (address s) (version s) Serving (physically_destroyed s)
          (last_heartbeat s) (leader_count s) (is_tiflash s) (min_resolved_ts s).

(** [UpStore] ups a store from offline. *)
Definition UpStore (env : Env) (storeID : N) (c : RaftCluster)
    : RaftCluster * option up_error :=
  match GetStore c storeID with
  | None => (c, Some (Lifecycle (ErrStoreNotFound storeID)))
  | Some store =>
    if IsRemoved store then (c, Some (Lifecycle (ErrStoreRemoved storeID)))
    else if IsPhysicallyDestroyed store then (c, Some (Lifecycle (ErrStoreDestroyed storeID)))
    else if IsUp store then (c, None)
    else
      (* get the previous store limit recorded in memory *)
      let limiter := prevStoreLimit c !! storeID in
      let newStore := UpStoreOption store in
      match putStoreLocked env newStore c with
      | (c1, Some err) => (c1, Some (Lifecycle err))
      | (c1, None) =>
        let c2 :=
          match limiter with
          | Some l =>
            (* persist the store limit *)
            let c' := fst (SetStoreLimit env storeID AddPeer (limit_add_peer l) c1) in
            fst (SetStoreLimit env storeID RemovePeer (limit_remove_peer l) c')
          | None => c1
          end in
        (resetProgress storeID c2, None)
      end
  end.

(** [ReadyToServe] changes a store's node state to Serving. *)
Definition ReadyToServe (env : Env) (storeID : N) (c : RaftCluster)
    : RaftCluster * option up_error :=
  match GetStore c storeID with
  | None => (c, Some (Lifecycle (ErrStoreNotFound storeID)))
  | Some store =>
    if IsRemoved store then (c, Some (Lifecycle (ErrStoreRemoved storeID)))
    else if IsPhysicallyDestroyed store then (c, Some (Lifecycle (ErrStoreDestroyed storeID)))
    else if IsServing store then (c, Some (ErrStoreServing storeID))
    else
      let newStore := UpStoreOption store in
      match putStoreLocked env newStore c with
      | (c1, Some err) => (c1, Some (Lifecycle err))
      | (c1, None) => (resetProgress storeID c1, None)
      end
  end.

(** The operations on the life of a store, as one step function. *)
Inductive StoreOp : Type :=
| DoRemoveStore (storeID : N) (physicallyDestroyed : bool)
| DoBuryStore (storeID : N) (forceBury : bool)
| DoUpStore (storeID : N)
| DoReadyToServe (storeID : N)
| DoSetMinResolvedTS (storeID ts : N).

Definition store_step (c : RaftCluster) (eo : Env * StoreOp) : RaftCluster :=
  let '(env, o) := eo in
  match o with
  | DoRemoveStore i pd => fst (RemoveStore env i pd c)
  | DoBuryStore i f => fst (BuryStore env i f c)
  | DoUpStore i => fst (UpStore env i c)
  | DoReadyToServe i => fst (ReadyToServe env i c)
  | DoSetMinResolvedTS i ts => fst (SetMinResolvedTS env i ts c)
  end.

Definition store_run (c : RaftCluster) (trace : list (Env * StoreOp)) : RaftCluster :=
  List.fold_left store_step trace c.

(** How one step may change the record of a store. *)
Definition evolves (s s' : StoreInfo) : Prop :=
  s' = s \/
  (exists pd, s' = OfflineStore pd s /\ node_state s <> Removed /\
              physically_destroyed s = false) \/
  (s' = TombstoneStore s /\ node_state s <> Removed) \/
  (s' = UpStoreOption s /\ node_state s <> Removed /\ node_state s <> Serving /\
     physically_destroyed s = false) \/
  (exists ts, s' = Store.SetMinResolvedTS ts s).

(** *** Tombstone records *)

(** Modelled from the spec: [core.GetStoreRegionCount], the number of
    regions that keep a peer on the store. *)
Definition GetStoreRegionCount (c : RaftCluster) (storeID : N) : nat :=
  List.length
    (List.filter (fun r => List.existsb (fun p => N.eqb (store_id p) storeID) (peers r))
                 (map_to_list (regions c)).*2).

(** [deleteStoreLocked]: the record is deleted from the storage first, and
    from the cache only when that succeeded. *)
Definition deleteStoreLocked (delete_ok : bool) (store : StoreInfo) (c : RaftCluster)
    : RaftCluster * option error :=
  if delete_ok then
    (set_stores (delete (Store.id store)) (set_kv_stores (delete (Store.id store)) c), None)
  else (c, Some ErrStorage).

Inductive tombstone_error : Type :=
| DeleteStoreFailed (e : error)
| FailedStores (ids : list N).       (* "failed stores: id, id, ..." *)

(** The loop of [RemoveTombStoneRecords] over the stores listed at its
    start; [delete_ok] tells for each store whether the storage deletes its
    record. *)
Fixpoint removeTombStones (delete_ok : N -> bool) (ss : list StoreInfo)
    (failedStores : list N) (c : RaftCluster) : RaftCluster * option tombstone_error :=
  match ss with
  | [] =>
    (c, match failedStores with
        | [] => None
        | _ => Some (FailedStores failedStores)
        end)
  | store :: rest =>
    if IsRemoved store then
      if (0 <? GetStoreRegionCount c (Store.id store))%nat then
        removeTombStones delete_ok rest (failedStores ++ [Store.id store]) c
      else
        (* the store has already been tombstone *)
        match deleteStoreLocked (delete_ok (Store.id store)) store c with
        | (c1, Some err) => (c1, Some (DeleteStoreFailed err))
        | (c1, None) =>
          removeTombStones delete_ok rest failedStores
                           (RemoveStoreLimit (Store.id store) c1)
        end
    else removeTombStones delete_ok rest failedStores c
  end.

(** The tombstones that the loop skips: those that still hold regions. *)
Definition has_regions (c : RaftCluster) (s : StoreInfo) : bool :=
  IsRemoved s && (0 <? GetStoreRegionCount c (Store.id s))%nat.

(** [RemoveTombStoneRecords] removes the tombstone records. *)
Definition RemoveTombStoneRecords (delete_ok : N -> bool) (c : RaftCluster)
    : RaftCluster * option tombstone_error :=
  removeTombStones delete_ok (GetStores c) [] c.

(** *** Registering a store *)

(** [metapb.Store], the fields the store table keeps. *)
Record StoreMeta : Type := mkMeta {
  meta_id : N;
  meta_address : string;
  meta_version : N;
  meta_state : NodeState;
  meta_physically_destroyed : bool;
}.

(** What is decided outside the store table for one call of [putStoreImpl]:
    whether the version of the store is compatible with the cluster version
    ([checkStoreVersion]), whether its labels pass [checkStoreLabels], and
    whether the labels it ends up with (merged, or overwritten when forced)
    mark a columnar engine. *)
Record PutEnv : Type := mkPutEnv {
  version_ok : bool;
  labels_ok : bool;
  labels_tiflash : bool;
}.

Inductive put_error : Type :=
| InvalidPutStore
| IncompatibleVersion
| DuplicatedAddress (registeredBy : N)
| IncorrectLabels
| PutFailed (e : error).

(** [core.NewStoreInfo(store)] *)
Definition NewStoreInfo (tiflash : bool) (m : StoreMeta) : StoreInfo :=
  mkStore (meta_id m) (meta_address m) (meta_version m) (meta_state m)
          (meta_physically_destroyed m) 0 0 tiflash 0.

(** [s.Clone(core.SetStoreAddress(..), core.SetStoreVersion(..),
    core.SetStoreLabels(..), ...)] *)
Definition UpdateStoreInfo (tiflash : bool) (m : StoreMeta) (s : StoreInfo) : StoreInfo :=
  mkStore (Store.id s) (meta_address m) (meta_version m) (node_state s)
          (physically_destroyed s) (last_heartbeat s) (leader_count s) tiflash
          (min_resolved_ts s).

(** A store whose address is taken: neither removed nor physically
    destroyed. *)
Definition live (s : StoreInfo) : bool :=
  negb (IsRemoved s || IsPhysicallyDestroyed s).

(** [putStoreImpl] puts a store. *)
Definition putStoreImpl (env : Env) (penv : PutEnv) (store : StoreMeta) (c : RaftCluster)
    : RaftCluster * option put_error :=
  if N.eqb (meta_id store) 0 then (c, Some InvalidPutStore)
  else if negb (version_ok penv) then (c, Some IncompatibleVersion)
  else
    (* Store address can not be the same as other stores. *)
    match List.find (fun s => live s &&
                              negb (N.eqb (Store.id s) (meta_id store)) &&
                              String.eqb (address s) (meta_address store))
                    (GetStores c) with
    | Some s => (c, Some (DuplicatedAddress (Store.id s)))
    | None =>
      let s := match GetStore c (meta_id store) with
               | None => NewStoreInfo (labels_tiflash penv) store
               | Some s => UpdateStoreInfo (labels_tiflash penv) store s
               end in
      if negb (labels_ok penv) then (c, Some IncorrectLabels)
      else match putStoreLocked env s c with
           | (c1, Some err) => (c1, Some (PutFailed err))
           | (c1, None) => (c1, None)
           end
    end.

(** The administration of the store table: registrations and the
    lifecycle calls. *)
Inductive AdminOp : Type :=
| Life (o : StoreOp)
| DoPutStore (penv : PutEnv) (store : StoreMeta).

Definition admin_step (c : RaftCluster) (eo : Env * AdminOp) : RaftCluster :=
  match eo with
  | (env, Life o) => store_step c (env, o)
  | (env, DoPutStore penv store) => fst (putStoreImpl env penv store c)
  end.

Definition admin_run (c : RaftCluster) (trace : list (Env * AdminOp)) : RaftCluster :=
  List.fold_left admin_step trace c.

(** No two live stores share an address. *)
Definition addresses_unique (c : RaftCluster) : Prop :=
  map_Forall (fun i s =>
    map_Forall (fun j t =>
      i <> j -> live s = true -> live t = true -> address s <> address t)
      (stores c)) (stores c).

#[global] Instance addresses_unique_dec c : Decision (addresses_unique c).
Proof. unfold addresses_unique. apply _. Defined.

(** *** The periodic check of the stores *)

(** What [checkStores] reads outside the store and region tables: for a
    preparing store, whether it has been up for the maximal preparing time
    or the cluster is still small ([readyByTime]) and whether its region
    size has reached its threshold ([reachedThreshold]); whether the
    coordinator is prepared; and the environment of each call that writes
    a store. *)
Record CheckEnv : Type := mkCheckEnv {
  readyByTime : N -> bool;
  reachedThreshold : N -> bool;
  IsPrepared : bool;
  env_of : N -> Env;
}.

Inductive ProgressAction : Type := removingAction | preparingAction.

(** [updateProgress]: the progress of the action is recorded for the
    store, if it was not yet. *)
Definition updateProgress (storeID : N) (action : ProgressAction) (c : RaftCluster)
    : RaftCluster :=
  match action with
  | removingAction => set_progress (fun s => {[storeID]} ∪ s) (fun s => s) c
  | preparingAction => set_progress (fun s => s) (fun s => {[storeID]} ∪ s) c
  end.

(** The body of the loop of [checkStores] for one store of the list. *)
Definition checkStore (e : CheckEnv) (c : RaftCluster) (store : StoreInfo) : RaftCluster :=
  (* the store has already been tombstone *)
  if IsRemoved store then c
  else
    let storeID := Store.id store in
    let c1 :=
      if IsPreparing store then
        if readyByTime e storeID then fst (ReadyToServe (env_of e storeID) storeID c)
        else if IsPrepared e then
          if reachedThreshold e storeID
          then fst (ReadyToServe (env_of e storeID) storeID c)
          else updateProgress storeID preparingAction c
        else c
      else c in
    if IsUp store then c1
    else
      let c2 := if IsPrepared e then updateProgress storeID removingAction c1 else c1 in
      (* If the store is empty, it can be buried. *)
      if (GetStoreRegionCount c2 storeID =? 0)%nat
      then fst (BuryStore (env_of e storeID) storeID false c2)
      else c2.

(** [checkStores]: the loop over the stores listed at its start (what
    follows the loop only logs). *)
Definition checkStores (e : CheckEnv) (c : RaftCluster) : RaftCluster :=
  List.fold_left (checkStore e) (GetStores c) c.

(** What [checkStores] makes of the record of a store when every write
    succeeds. *)
Definition checked (e : CheckEnv) (c : RaftCluster) (s : StoreInfo) : StoreInfo :=
  if IsPreparing s &&
     (readyByTime e (Store.id s) || IsPrepared e && reachedThreshold e (Store.id s)) &&
     negb (IsPhysicallyDestroyed s)
  then UpStoreOption s
  else if IsRemoving s && (GetStoreRegionCount c (Store.id s) =? 0)%nat
  then TombstoneStore s
  else s.

(** A preparing store, a serving store, a removing store that still holds
    a peer and one that holds none. *)
Definition checked_cluster : RaftCluster :=
  mkCluster
    (list_to_map [(1%N, mkStore 1 "127.0.0.1:20161" 6 Preparing false 0 0 false 0);
                  (2%N, mkStore 2 "127.0.0.1:20162" 6 Serving false 0 1 false 0);
                  (3%N, mkStore 3 "127.0.0.1:20163" 6 Removing false 0 0 false 0);
                  (4%N, mkStore 4 "127.0.0.1:20164" 6 Removing false 0 0 false 0)])
    (list_to_map [(1%N, mkRegion 1 "" "" (Some (mkEpoch 1 1))
                          [mkPeer 11 2 Voter; mkPeer 12 3 Voter]
                          (Some (mkPeer 11 2 Voter)) [] [] 10 None)])
    0 ∅ 1 ∅ (mkLimit 15 15) 6 false None ∅ ∅ ∅ ∅ ∅ [].

Definition check_env : CheckEnv :=
  mkCheckEnv (fun _ => true) (fun _ => false) true (fun _ => Scenario.env_ok).

(** A cluster with one serving store and two tombstones, one of which
    still holds a peer of a region. *)
Definition tombstones : RaftCluster :=
  mkCluster
    (list_to_map [(1%N, Scenario.serving_store 1);
                  (2%N, TombstoneStore (Scenario.serving_store 2));
                  (3%N, TombstoneStore (Scenario.serving_store 3))])
    (list_to_map [(1%N, mkRegion 1 "" "" (Some (mkEpoch 1 1))
                          [mkPeer 11 1 Voter; mkPeer 12 2 Voter]
                          (Some (mkPeer 11 1 Voter)) [] [] 10 None)])
    0 ∅ 3 ∅ (mkLimit 15 15) 6 false None ∅ ∅ ∅ ∅ ∅ [].

End StoreOps.

(** ** The coordinator: pausing and resuming schedulers *)

Module Coordinator.

(** [int64] arithmetic wraps around. *)
Definition int64 (z : Z) : Z := (z + 2 ^ 63) mod 2 ^ 64 - 2 ^ 63.

(** [scheduleController]: what the pause logic reads of a scheduler, and
    the two timestamps (seconds) it keeps. *)
Record scheduleController : Type := mkController {
  schedule_allowed : bool;      (* Scheduler.IsScheduleAllowed(cluster) *)
  delayAt : Z;
  delayUntil : Z;
}.

Record coordinator : Type := mkCoordinator {
  bootstrapped : bool;                              (* c.cluster != nil *)
  schedulers : gmap string scheduleController;
  unsafe_recovery_running : bool;
}.

Inductive sched_error : Type := ErrNotBootstrapped | ErrSchedulerNotFound.

(** The body of the loop of [pauseOrResumeScheduler]; [now] is
    [time.Now().Unix()]. *)
Definition pauseOrResume (now t : Z) (sc : scheduleController) : scheduleController :=
  let delayAt := if 0 <? t then now else 0 in
  let delayUntil := if 0 <? t then int64 (delayAt + t) else 0 in
  mkController (schedule_allowed sc) delayAt delayUntil.

(** [pauseOrResumeScheduler]; [now name] is the clock when the controller
    of the scheduler [name] is written. *)
Definition pauseOrResumeScheduler (now : string -> Z) (name : string) (t : Z)
    (c : coordinator) : coordinator * option sched_error :=
  if negb (bootstrapped c) then (c, Some ErrNotBootstrapped)
  else if negb (String.eqb name "all") then
    match schedulers c !! name with
    | None => (c, Some ErrSchedulerNotFound)
    | Some sc =>
      (mkCoordinator (bootstrapped c)
                     (<[name := pauseOrResume (now name) t sc]> (schedulers c))
                     (unsafe_recovery_running c), None)
    end
  else
    (mkCoordinator (bootstrapped c)
                   (map_imap (fun n sc => Some (pauseOrResume (now n) t sc)) (schedulers c))
                   (unsafe_recovery_running c), None).

(** [IsPaused], [GetDelayAt], [GetDelayUntil], [AllowSchedule] *)
Definition IsPaused (now : Z) (s : scheduleController) : bool :=
  now <? delayUntil s.
Definition GetDelayAt (now : Z) (s : scheduleController) : Z :=
  if IsPaused now s then delayAt s else 0.
Definition GetDelayUntil (now : Z) (s : scheduleController) : Z :=
  if IsPaused now s then delayUntil s else 0.
Definition AllowSchedule (now : Z) (c : coordinator) (s : scheduleController) : bool :=
  schedule_allowed s && negb (IsPaused now s) && negb (unsafe_recovery_running c).

(** The queries by name share their error handling. *)
Definition query {A} (failed : A) (f : scheduleController -> A) (name : string)
    (c : coordinator) : A * option sched_error :=
  if negb (bootstrapped c) then (failed, Some ErrNotBootstrapped)
  else match schedulers c !! name with
       | None => (failed, Some ErrSchedulerNotFound)
       | Some s => (f s, None)
       end.

Definition isSchedulerAllowed (now : Z) (name : string) (c : coordinator) :=
  query false (AllowSchedule now c) name c.
Definition isSchedulerPaused (now : Z) (name : string) (c : coordinator) :=
  query false (IsPaused now) name c.
Definition isSchedulerExisted (name : string) (c : coordinator) :=
  query false (fun _ => true) name c.
Definition getPausedSchedulerDelayAt (now : Z) (name : string) (c : coordinator) :=
  query (-1) (GetDelayAt now) name c.
Definition getPausedSchedulerDelayUntil (now : Z) (name : string) (c : coordinator) :=
  query (-1) (GetDelayUntil now) name c.

(** Two schedulers on a bootstrapped cluster. *)
Definition two_schedulers : coordinator :=
  mkCoordinator true
    (list_to_map [("balance-leader-scheduler", mkController true 0 0);
                  ("balance-region-scheduler", mkController true 0 0)])
    false.

End Coordinator.

(** ** Store filters ([schedule/filter]) *)

Module Filter.
Import Store.

(** The [plan.Status] values the filters return. *)
Inductive Status : Type :=
| statusOK
| statusStoreTombstone
| statusStoreDown
| statusStoresOffline
| statusStorePauseLeader
| statusStoreSlow
| statusStoreDisconnected
| statusStoreBusy
| statusStoreRemoveLimit
| statusStoreAddLimit
| statusStoreTooManySnapshot
| statusStoreTooManyPendingPeer
| statusStoreRejectLeader
| statusStoreExcluded
| statusStoreIsolation.

#[global] Instance Status_eq_dec : EqDecision Status.
Proof. solve_decision. Defined.

Definition IsOK (s : Status) : bool := bool_decide (s = statusOK).

(** A store as the filters read it: the record of the store table, and
    what the store reports about itself. *)
Record FStore : Type := mkFStore {
  info : StoreInfo;
  allow_leader_transfer : bool;       (* AllowLeaderTransfer() *)
  evicted_as_slow_store : bool;       (* EvictedAsSlowStore() *)
  busy : bool;                        (* IsBusy() *)
  available_add_peer : bool;          (* IsAvailable(storelimit.AddPeer) *)
  available_remove_peer : bool;       (* IsAvailable(storelimit.RemovePeer) *)
  sending_snap_count : Z;             (* uint32 *)
  receiving_snap_count : Z;           (* uint32 *)
  pending_peer_count : Z;
  reject_leader : bool;               (* opt.CheckLabelProperty(RejectLeader, labels) *)
  label_value : string -> string;     (* GetLabelValue(key) *)
}.

Definition GetID (s : FStore) : N := Store.id (info s).

(** The options the conditions read, and the clock. *)
Record Options : Type := mkOptions {
  clock : Z;                          (* seconds *)
  MaxStoreDownTime : Z;               (* seconds *)
  MaxSnapshotCount : Z;
  MaxPendingPeerCount : Z;
}.

(** [store.DownTime()]: the time since the last heartbeat. *)
Definition DownTime (opt : Options) (s : FStore) : Z :=
  clock opt - last_heartbeat (info s).

(** [StoreStateFilter] *)
Record StoreStateFilter : Type := mkStateFilter {
  ActionScope : string;
  TransferLeader : bool;
  MoveRegion : bool;
  ScatterRegion : bool;
  AllowTemporaryStates : bool;
  Reason : string;
}.

Definition set_Reason (r : string) (f : StoreStateFilter) : StoreStateFilter :=
  mkStateFilter (ActionScope f) (TransferLeader f) (MoveRegion f) (ScatterRegion f)
                (AllowTemporaryStates f) r.

(** [Type]: "store-state-<Reason>-filter" *)
Definition StateFilterType (f : StoreStateFilter) : string :=
  ("store-state-" ++ Reason f ++ "-filter")%string.

(** A condition returns a status and leaves its reason in the filter. *)
Definition conditionFunc : Type :=
  StoreStateFilter -> Options -> FStore -> Status * StoreStateFilter.

Definition condition (matched : bool) (reason : string) (status : Status)
    (f : StoreStateFilter) : Status * StoreStateFilter :=
  if matched then (status, set_Reason reason f)
  else (statusOK, set_Reason "" f).

Definition isRemoved : conditionFunc := fun f opt store =>
  condition (IsRemoved (info store)) "tombstone" statusStoreTombstone f.

Definition isDown : conditionFunc := fun f opt store =>
  condition (MaxStoreDownTime opt <? DownTime opt store) "down" statusStoreDown f.

Definition isRemoving : conditionFunc := fun f opt store =>
  condition (IsRemoving (info store)) "offline" statusStoresOffline f.

Definition pauseLeaderTransfer : conditionFunc := fun f opt store =>
  condition (negb (allow_leader_transfer store)) "pause-leader" statusStorePauseLeader f.

Definition slowStoreEvicted : conditionFunc := fun f opt store =>
  condition (evicted_as_slow_store store) "slow-store" statusStoreSlow f.

Definition isDisconnected : conditionFunc := fun f opt store =>
  condition (negb (AllowTemporaryStates f) && IsDisconnected (clock opt) (info store))
            "disconnected" statusStoreDisconnected f.

Definition isBusy : conditionFunc := fun f opt store =>
  condition (negb (AllowTemporaryStates f) && busy store) "busy" statusStoreBusy f.

Definition exceedRemoveLimit : conditionFunc := fun f opt store =>
  condition (negb (AllowTemporaryStates f) && negb (available_remove_peer store))
            "exceed-remove-limit" statusStoreRemoveLimit f.

Definition exceedAddLimit : conditionFunc := fun f opt store =>
  condition (negb (AllowTemporaryStates f) && negb (available_add_peer store))
            "exceed-add-limit" statusStoreAddLimit f.

Definition tooManySnapshots : conditionFunc := fun f opt store =>
  condition (negb (AllowTemporaryStates f) &&
             ((MaxSnapshotCount opt <? sending_snap_count store) ||
              (MaxSnapshotCount opt <? receiving_snap_count store)))
            "too-many-snapshot" statusStoreTooManySnapshot f.

Definition tooManyPendingPeers : conditionFunc := fun f opt store =>
  condition (negb (AllowTemporaryStates f) &&
             (0 <? MaxPendingPeerCount opt) &&
             (MaxPendingPeerCount opt <? pending_peer_count store))
            "too-many-pending-peer" statusStoreTooManyPendingPeer f.

Definition hasRejectLeaderProperty : conditionFunc := fun f opt store =>
  condition (reject_leader store) "reject-leader" statusStoreRejectLeader f.

Inductive ConditionType : Type :=
| leaderSource | regionSource | leaderTarget | regionTarget | scatterRegionTarget.

Definition conditions (typ : ConditionType) : list conditionFunc :=
  match typ with
  | leaderSource => [isRemoved; isDown; pauseLeaderTransfer; isDisconnected]
  | regionSource => [isBusy; exceedRemoveLimit; tooManySnapshots]
  | leaderTarget => [isRemoved; isRemoving; isDown; pauseLeaderTransfer;
                     slowStoreEvicted; isDisconnected; isBusy; hasRejectLeaderProperty]
  | regionTarget => [isRemoved; isRemoving; isDown; isDisconnected; isBusy;
                     exceedAddLimit; tooManySnapshots; tooManyPendingPeers]
  | scatterRegionTarget => [isRemoved; isRemoving; isDown; isDisconnected; isBusy]
  end.

(** The loop of [anyConditionMatch]: the first status that is not OK. *)
Fixpoint firstMatch (funcs : list conditionFunc) (f : StoreStateFilter)
    (opt : Options) (store : FStore) : Status * StoreStateFilter :=
  match funcs with
  | [] => (statusOK, f)
  | cf :: rest =>
    let '(status, f1) := cf f opt store in
    if negb (IsOK status) then (status, f1) else firstMatch rest f1 opt store
  end.

Definition anyConditionMatch (typ : ConditionType) : conditionFunc :=
  firstMatch (conditions typ).

(** One guarded block of [Source] and [Target]; the rest runs only when
    the block, if taken, found no matching condition. *)
Definition guarded (guard : bool) (typ : ConditionType)
    (rest : conditionFunc) : conditionFunc := fun f opt store =>
  if guard then
    let '(status, f1) := anyConditionMatch typ f opt store in
    if negb (IsOK status) then (status, f1) else rest f1 opt store
  else rest f opt store.

Definition passed : conditionFunc := fun f _ _ => (statusOK, f).

(** [StoreStateFilter.Source] *)
Definition StateSource : conditionFunc := fun f =>
  guarded (TransferLeader f) leaderSource
    (guarded (MoveRegion f) regionSource passed) f.

(** [StoreStateFilter.Target] *)
Definition StateTarget : conditionFunc := fun f =>
  guarded (TransferLeader f) leaderTarget
    (guarded (MoveRegion f && ScatterRegion f) scatterRegionTarget
       (guarded (MoveRegion f && negb (ScatterRegion f)) regionTarget passed)) f.

(** The condition table of [StoreStateFilter], as a formula: a temporary
    condition blocks a store only when temporary states are not allowed. *)
Definition blocks (f : StoreStateFilter) (temporary : bool) : bool :=
  negb (AllowTemporaryStates f) && temporary.

Definition isDownB (opt : Options) (s : FStore) : bool :=
  MaxStoreDownTime opt <? DownTime opt s.
Definition snapshotsB (opt : Options) (s : FStore) : bool :=
  (MaxSnapshotCount opt <? sending_snap_count s) ||
  (MaxSnapshotCount opt <? receiving_snap_count s).
Definition pendingB (opt : Options) (s : FStore) : bool :=
  (0 <? MaxPendingPeerCount opt) && (MaxPendingPeerCount opt <? pending_peer_count s).

Definition source_ok (f : StoreStateFilter) (opt : Options) (s : FStore) : bool :=
  implb (TransferLeader f)
        (negb (IsRemoved (info s)) && negb (isDownB opt s) && allow_leader_transfer s &&
         negb (blocks f (IsDisconnected (clock opt) (info s)))) &&
  implb (MoveRegion f)
        (negb (blocks f (busy s)) && negb (blocks f (negb (available_remove_peer s))) &&
         negb (blocks f (snapshotsB opt s))).

Definition target_ok (f : StoreStateFilter) (opt : Options) (s : FStore) : bool :=
  implb (TransferLeader f)
        (negb (IsRemoved (info s)) && negb (IsRemoving (info s)) && negb (isDownB opt s) &&
         allow_leader_transfer s && negb (evicted_as_slow_store s) &&
         negb (blocks f (IsDisconnected (clock opt) (info s))) &&
         negb (blocks f (busy s)) && negb (reject_leader s)) &&
  implb (MoveRegion f)
        (negb (IsRemoved (info s)) && negb (IsRemoving (info s)) && negb (isDownB opt s) &&
         negb (blocks f (IsDisconnected (clock opt) (info s))) &&
         negb (blocks f (busy s)) &&
         (ScatterRegion f ||
          negb (blocks f (negb (available_add_peer s))) &&
          negb (blocks f (snapshotsB opt s)) && negb (blocks f (pendingB opt s)))).

Definition set_AllowTemporaryStates (b : bool) (f : StoreStateFilter) : StoreStateFilter :=
  mkStateFilter (ActionScope f) (TransferLeader f) (MoveRegion f) (ScatterRegion f)
                b (Reason f).

Definition set_ScatterRegion (b : bool) (f : StoreStateFilter) : StoreStateFilter :=
  mkStateFilter (ActionScope f) (TransferLeader f) (MoveRegion f) b
                (AllowTemporaryStates f) (Reason f).

(** The reason each condition records for its status. *)
Definition reason_of (status : Status) : string :=
  match status with
  | statusStoreTombstone => "tombstone"
  | statusStoreDown => "down"
  | statusStoresOffline => "offline"
  | statusStorePauseLeader => "pause-leader"
  | statusStoreSlow => "slow-store"
  | statusStoreDisconnected => "disconnected"
  | statusStoreBusy => "busy"
  | statusStoreRemoveLimit => "exceed-remove-limit"
  | statusStoreAddLimit => "exceed-add-limit"
  | statusStoreTooManySnapshot => "too-many-snapshot"
  | statusStoreTooManyPendingPeer => "too-many-pending-peer"
  | statusStoreRejectLeader => "reject-leader"
  | _ => ""
  end.

(** After a call that ran some condition, the filter carries the reason of
    the status returned; a call that ran none leaves the filter alone. *)
Definition reason_recorded (ran : bool) (cf : conditionFunc) (opt : Options) (s : FStore)
    : Prop :=
  forall f, if ran then snd (cf f opt s) = set_Reason (reason_of (fst (cf f opt s))) f
            else cf f opt s = (statusOK, f).

(** A store no state filter takes as a target, whatever its flags. *)
Definition gone_or_down (opt : Options) (s : FStore) : bool :=
  IsRemoved (info s) || IsRemoving (info s) || isDownB opt s.

(** A healthy store and a tombstone, for the examples. *)
Definition healthy (i : N) : FStore :=
  mkFStore (mkStore i "127.0.0.1:20160" 6 Serving false 95 1 false 0)
           true false false true true 0 0 0 false (fun _ => "").
Definition tombstone (i : N) : FStore :=
  mkFStore (mkStore i "127.0.0.1:20160" 6 Removed false 95 1 false 0)
           true false false true true 0 0 0 false (fun _ => "").
Definition busy_store (i : N) : FStore :=
  mkFStore (mkStore i "127.0.0.1:20160" 6 Serving false 95 1 false 0)
           true false true true true 0 0 0 false (fun _ => "").
Definition test_options : Options := mkOptions 100 1800 3 16.

(** A store in a zone, on a host. *)
Definition located (i : N) (zone host : string) : FStore :=
  mkFStore (mkStore i "127.0.0.1:20160" 6 Serving false 95 1 false 0)
           true false false true true 0 0 0 false
           (fun key => if String.eqb key "zone" then zone
                       else if String.eqb key "host" then host else "").

(** A condition reads the flags of the filter, not its reason, and writes
    only the reason. *)
Definition pure_condition (cf : conditionFunc) (opt : Options) (s : FStore) : Prop :=
  forall f, (exists r, snd (cf f opt s) = set_Reason r f) /\
            forall r, fst (cf (set_Reason r f) opt s) = fst (cf f opt s).

(** The [Filter] interface, for the selection functions: the status a
    filter gives to a store as source and as target. *)
Record Filter : Type := mkFilter {
  Source : Options -> FStore -> Status;
  Target : Options -> FStore -> Status;
}.

Definition StoreStateFilter_Filter (f : StoreStateFilter) : Filter :=
  mkFilter (fun opt s => fst (StateSource f opt s))
           (fun opt s => fst (StateTarget f opt s)).

(** [excludedFilter] *)
Definition NewExcludedFilter (sources targets : gset N) : Filter :=
  mkFilter
    (fun _ store => if bool_decide (GetID store ∈ sources) then statusStoreExcluded
                    else statusOK)
    (fun _ store => if bool_decide (GetID store ∈ targets) then statusStoreExcluded
                    else statusOK).

(** [filterStoresBy] *)
Definition filterStoresBy (stores : list FStore) (keepPred : FStore -> bool) : list FStore :=
  List.filter keepPred stores.

(** [SelectSourceStores], [SelectTargetStores]: [slice.AllOf] over the
    filters *)
Definition SelectSourceStores (stores : list FStore) (filters : list Filter)
    (opt : Options) : list FStore :=
  filterStoresBy stores
    (fun s => List.forallb (fun flt => IsOK (Source flt opt s)) filters).

Definition SelectTargetStores (stores : list FStore) (filters : list Filter)
    (opt : Options) : list FStore :=
  filterStoresBy stores
    (fun s => List.forallb (fun flt => IsOK (Target flt opt s)) filters).

(** The helpers [Source] and [Target]: the store passes all filters. *)
Fixpoint SourceAll (opt : Options) (store : FStore) (filters : list Filter) : bool :=
  match filters with
  | [] => true
  | flt :: rest =>
    if negb (IsOK (Source flt opt store)) then false else SourceAll opt store rest
  end.

Fixpoint TargetAll (opt : Options) (store : FStore) (filters : list Filter) : bool :=
  match filters with
  | [] => true
  | flt :: rest =>
    if negb (IsOK (Target flt opt store)) then false else TargetAll opt store rest
  end.

(** [isolationFilter] *)
Record isolationFilter : Type := mkIsolation {
  locationLabels : list string;
  constraintSet : list (list string);
}.

(** The index of the isolation level among the location labels, 0 when it
    is not one of them. *)
Fixpoint levelIdx (isolationLevel : string) (labels : list string) (level : nat) : nat :=
  match labels with
  | [] => 0%nat
  | label :: rest =>
    if String.eqb label isolationLevel then level
    else levelIdx isolationLevel rest (S level)
  end.

(** The constraints of one region store: its values of the labels
    [0 .. isolationLevelIdx]; indexing past the labels panics ([None]). *)
Definition constraintList (labels : list string) (isolationLevelIdx : nat)
    (regionStore : FStore) : option (list string) :=
  mapM (fun i => label_value regionStore <$> labels !! i) (seq 0 (S isolationLevelIdx)).

(** [NewIsolationFilter] *)
Definition NewIsolationFilter (isolationLevel : string) (labels : list string)
    (regionStores : list FStore) : option isolationFilter :=
  let isolationLevelIdx := levelIdx isolationLevel labels 0 in
  mkIsolation labels <$> mapM (constraintList labels isolationLevelIdx) regionStores.

(** The inner loop of [isolationFilter.Target]: does the store carry every
    value of the list, label by label. *)
Fixpoint matchConstraints (labels : list string) (store : FStore) (idx : nat)
    (constrainList : list string) (matched : bool) : option bool :=
  match constrainList with
  | [] => Some matched
  | constraint :: rest =>
    match labels !! idx with
    | None => None
    | Some label =>
      matchConstraints labels store (S idx) rest
        (String.eqb (label_value store label) constraint && matched)
    end
  end.

Fixpoint isolationLoop (labels : list string) (store : FStore)
    (set : list (list string)) : option Status :=
  match set with
  | [] => Some statusOK
  | constrainList :: rest =>
    match matchConstraints labels store 0 constrainList true with
    | None => None
    | Some matched =>
      if (0 <? List.length constrainList)%nat && matched then Some statusStoreIsolation
      else isolationLoop labels store rest
    end
  end.

(** [isolationFilter.Target] *)
Definition IsolationTarget (f : isolationFilter) (store : FStore) : option Status :=
  (* No isolation constraint to fit *)
  if (List.length (constraintSet f) =? 0)%nat then Some statusStoreIsolation
  else isolationLoop (locationLabels f) store (constraintSet f).

(** Two stores agree on a list of labels. *)
Definition same_location (labels : list string) (a b : FStore) : bool :=
  List.forallb (fun l => String.eqb (label_value a l) (label_value b l)) labels.

End Filter.

(** ** More region options ([core/region_option.go]) *)

Module RegionOption.
Import Region.

(** [uint64] arithmetic wraps around. *)
Definition uint64_inc (n : N) : N := ((n + 1) mod 2 ^ 64)%N.
Definition uint64_dec (n : N) : N := ((n + 2 ^ 64 - 1) mod 2 ^ 64)%N.

(** [WithIncVersion] increases the version of the region. *)
Definition WithIncVersion (r : RegionInfo) : RegionInfo :=
  match epoch r with
  | Some e => with_epoch (Some (mkEpoch (ConfVer e) (uint64_inc (Version e)))) r
  | None => with_epoch (Some (mkEpoch 0 1)) r
  end.

(** [WithDecVersion] decreases the version of the region. *)
Definition WithDecVersion (r : RegionInfo) : RegionInfo :=
  match epoch r with
  | Some e => with_epoch (Some (mkEpoch (ConfVer e) (uint64_dec (Version e)))) r
  | None => r
  end.

(** [WithIncConfVer] increases the config version of the region. *)
Definition WithIncConfVer (r : RegionInfo) : RegionInfo :=
  match epoch r with
  | Some e => with_epoch (Some (mkEpoch (uint64_inc (ConfVer e)) (Version e))) r
  | None => with_epoch (Some (mkEpoch 1 0)) r
  end.

(** [WithDecConfVer] decreases the config version of the region. *)
Definition WithDecConfVer (r : RegionInfo) : RegionInfo :=
  match epoch r with
  | Some e => with_epoch (Some (mkEpoch (uint64_dec (ConfVer e)) (Version e))) r
  | None => r
  end.

(** The counters of an epoch are [uint64]. *)
Definition epoch_in_range (r : RegionInfo) : Prop :=
  match epoch r with
  | Some e => (ConfVer e < 2 ^ 64)%N /\ (Version e < 2 ^ 64)%N
  | None => True
  end.

(** [WithNewPeerIDs] sets new ids for peers; the ids are left alone when
    their number is not that of the peers. *)
Definition WithNewPeerIDs (peerIDs : list N) (r : RegionInfo) : RegionInfo :=
  if negb (List.length peerIDs =? List.length (peers r))%nat then r
  else SetPeers (zip_with (fun p i => mkPeer i (store_id p) (role p)) (peers r) peerIDs) r.

(** [WithLearners] sets the learners for the region: a peer whose id is
    that of one of the learners is replaced by the first such learner. *)
Definition WithLearners (learners : list Peer) (r : RegionInfo) : RegionInfo :=
  SetPeers
    (List.map (fun p =>
                 match List.find (fun l => N.eqb (peer_id p) (peer_id l)) learners with
                 | Some l => mkPeer (peer_id l) (store_id l) Learner
                 | None => p
                 end) (peers r)) r.

(** [WithPromoteLearner] promotes the learner. *)
Definition WithPromoteLearner (peerID : N) (r : RegionInfo) : RegionInfo :=
  SetPeers
    (List.map (fun p => if N.eqb (peer_id p) peerID
                        then mkPeer (peer_id p) (store_id p) Voter else p) (peers r)) r.

(** [WithReplacePeerStore] replaces a peer's storeID with another ID. *)
Definition WithReplacePeerStore (oldStoreID newStoreID : N) (r : RegionInfo) : RegionInfo :=
  SetPeers
    (List.map (fun p => if N.eqb (store_id p) oldStoreID
                        then mkPeer (peer_id p) newStoreID (role p) else p) (peers r)) r.

(** The stores that hold a peer of the region. *)
Definition GetStoreIDs (r : RegionInfo) : list N := List.map store_id (peers r).

End RegionOption.

(** ** Label formats ([config/util.go]) *)

Module Config.

(** The regular expressions of the two formats, over bytes: a class of
    characters, sequence, choice, repetition. *)
Inductive regex : Type :=
| Eps
| Class (p : ascii -> bool)
| Seq (r1 r2 : regex)
| Alt (r1 r2 : regex)
| Star (r : regex).

Definition Opt (r : regex) : regex := Alt r Eps.

Definition in_range (lo hi c : ascii) : bool :=
  (nat_of_ascii lo <=? nat_of_ascii c)%nat && (nat_of_ascii c <=? nat_of_ascii hi)%nat.

Definition is_char (x c : ascii) : bool := Ascii.eqb x c.

(** [[A-Za-z0-9]] *)
Definition alnum (c : ascii) : bool :=
  in_range "A" "Z" c || in_range "a" "z" c || in_range "0" "9" c.

(** [[-A-Za-z0-9_./]] *)
Definition label_char (c : ascii) : bool :=
  is_char "-" c || alnum c || is_char "_" c || is_char "." c || is_char "/" c.

(** [keyFormat = "^[$]?[A-Za-z0-9]([-A-Za-z0-9_./]*[A-Za-z0-9])?$"] *)
Definition keyFormat : regex :=
  Seq (Opt (Class (is_char "$")))
      (Seq (Class alnum) (Opt (Seq (Star (Class label_char)) (Class alnum)))).

(** [valueFormat = "^[-A-Za-z0-9_./]*$"] *)
Definition valueFormat : regex := Star (Class label_char).

(** Matching a whole text, by derivatives. *)
Fixpoint nullable (r : regex) : bool :=
  match r with
  | Eps => true
  | Class _ => false
  | Seq r1 r2 => nullable r1 && nullable r2
  | Alt r1 r2 => nullable r1 || nullable r2
  | Star _ => true
  end.

Fixpoint deriv (c : ascii) (r : regex) : regex :=
  match r with
  | Eps => Class (fun _ => false)
  | Class p => if p c then Eps else Class (fun _ => false)
  | Seq r1 r2 =>
    if nullable r1 then Alt (Seq (deriv c r1) r2) (deriv c r2)
    else Seq (deriv c r1) r2
  | Alt r1 r2 => Alt (deriv c r1) (deriv c r2)
  | Star r1 => Seq (deriv c r1) (Star r1)
  end.

(** [regexp.MatchString] for a pattern anchored at both ends. *)
Definition MatchString (format : regex) (s : string) : bool :=
  nullable (List.fold_left (fun r c => deriv c r) (list_ascii_of_string s) format).

(** The texts a regular expression denotes. *)
Inductive lang : regex -> list ascii -> Prop :=
| lang_Eps : lang Eps []
| lang_Class p c : p c = true -> lang (Class p) [c]
| lang_Seq r1 r2 s1 s2 : lang r1 s1 -> lang r2 s2 -> lang (Seq r1 r2) (s1 ++ s2)
| lang_Alt_l r1 r2 s : lang r1 s -> lang (Alt r1 r2) s
| lang_Alt_r r1 r2 s : lang r2 s -> lang (Alt r1 r2) s
| lang_Star_nil r : lang (Star r) []
| lang_Star_cons r s1 s2 : lang r s1 -> lang (Star r) s2 -> lang (Star r) (s1 ++ s2).

(** [metapb.StoreLabel] *)
Record StoreLabel : Type := mkLabel { Key : string; Value : string }.

Inductive format_error : Type :=
| NotMatch (s : string) (isKey : bool).   (* "%s does not match format %q" *)

(** [validateFormat] *)
Definition validateFormat (s : string) (isKey : bool) : option format_error :=
  if MatchString (if isKey then keyFormat else valueFormat) s then None
  else Some (NotMatch s isKey).

(** [ValidateLabels] checks the legality of the labels. *)
Fixpoint ValidateLabels (labels : list StoreLabel) : option format_error :=
  match labels with
  | [] => None
  | label :: rest =>
    match validateFormat (Key label) true with
    | Some err => Some err
    | None =>
      match validateFormat (Value label) false with
      | Some err => Some err
      | None => ValidateLabels rest
      end
    end
  end.

(** What the comments of the formats say. A value is any combination of
    label characters; a key, after an optional leading '$', is not empty,
    starts and ends with an alphanumeric character and has label
    characters in between. *)
Definition valid_value (s : list ascii) : bool := List.forallb label_char s.

Definition valid_name (s : list ascii) : bool :=
  match s with
  | [] => false
  | c :: _ => alnum c && List.forallb label_char s && alnum (List.last s c)
  end.

Definition valid_key (s : list ascii) : bool :=
  match s with
  | c :: rest => if is_char "$" c then valid_name rest else valid_name s
  | [] => false
  end.

End Config.

(** * Properties *)

Section StoreLifecycle.
Import Store Cluster.

Lemma putStoreLocked_ok env store c c' :
  putStoreLocked env store c = (c', None) ->
  stores c' = <[Store.id store := store]> (stores c).
Proof.
  unfold putStoreLocked. destruct (save_store_ok env); intros H; inversion H.
  reflexivity.
Qed.

Lemma SetStoreLimit_stores env sid typ rate c :
  stores (fst (SetStoreLimit env sid typ rate c)) = stores c.
Proof. unfold SetStoreLimit. destruct (persist_opt_ok env); reflexivity. Qed.

Lemma onStoreVersionChangeLocked_stores c :
  stores (onStoreVersionChangeLocked c) = stores c.
Proof.
  unfold onStoreVersionChangeLocked.
  destruct (List.map _ _); [reflexivity|].
  destruct (N.eqb _ _); reflexivity.
Qed.

Lemma RemoveStore_success_state env sid pd c c' :
  wf_stores c ->
  RemoveStore env sid pd c = (c', None) ->
  exists s, stores c' !! sid = Some s /\ IsRemoving s = true /\
            IsPhysicallyDestroyed s = pd.
Proof.
  intros Hwf. unfold RemoveStore, GetStore.
  destruct (stores c !! sid) as [store|] eqn:Hs; [|discriminate].
  pose proof (Hwf _ _ Hs) as Hid.
  destruct (IsRemoving store && _) eqn:Hrm.
  - intros H; inversion H; subst c'. exists store.
    apply andb_prop in Hrm as [H1 H2]. apply Bool.eqb_prop in H2. auto.
  - destruct (IsRemoved store); [discriminate|].
    destruct (IsPhysicallyDestroyed store); [discriminate|].
    case_match eqn:Hchk; [discriminate|].
    destruct (putStoreLocked env _ c) as [c1 [e|]] eqn:Hput; [discriminate|].
    intros H; inversion H; subst c'. clear H.
    apply putStoreLocked_ok in Hput.
    exists (OfflineStore pd store).
    rewrite SetStoreLimit_stores. cbn [stores set_prevStoreLimit AddRemovingProgress
      resetProgress set_progress].
    rewrite Hput. cbn. rewrite Hid. rewrite lookup_insert_eq. auto.
Qed.

Lemma BuryStore_success_state env sid force c c' :
  wf_stores c ->
  BuryStore env sid force c = (c', None) ->
  exists s, stores c' !! sid = Some s /\ IsRemoved s = true.
Proof.
  intros Hwf. unfold BuryStore, GetStore.
  destruct (stores c !! sid) as [store|] eqn:Hs; [|discriminate].
  pose proof (Hwf _ _ Hs) as Hid.
  destruct (IsRemoved store) eqn:Hrm.
  - intros H; inversion H; subst c'. eauto.
  - destruct (IsUp store && negb force); [discriminate|].
    destruct (IsUp store && negb _); [discriminate|].
    destruct (putStoreLocked env _ c) as [c1 [e|]] eqn:Hput; [discriminate|].
    intros H; inversion H; subst c'. clear H.
    apply putStoreLocked_ok in Hput.
    exists (TombstoneStore store).
    cbn [stores set_rolling_store_stats resetProgress set_progress RemoveStoreLimit
         set_opt_store_limit set_prevStoreLimit].
    rewrite onStoreVersionChangeLocked_stores, Hput. cbn. rewrite Hid.
    rewrite lookup_insert_eq. auto.
Qed.

(** C10: [RemoveStore] on a store that is already Removing with the same
    physically-destroyed flag, and [BuryStore] on a store that is already
    Tombstone, return nil and leave the cluster as it is; hence a repeated
    call of either, after one that succeeded, is a no-op. *)
Theorem RemoveStore_BuryStore_idempotent
    (env env' : Env) (c c' : RaftCluster) (sid : N) (pd force force' : bool) :
  wf_stores c ->
  (forall store, GetStore c sid = Some store -> IsRemoving store = true ->
     IsPhysicallyDestroyed store = pd -> RemoveStore env sid pd c = (c, None)) /\
  (forall store, GetStore c sid = Some store -> IsRemoved store = true ->
     BuryStore env sid force c = (c, None)) /\
  (RemoveStore env sid pd c = (c', None) -> RemoveStore env' sid pd c' = (c', None)) /\
  (BuryStore env sid force c = (c', None) -> BuryStore env' sid force' c' = (c', None)).
Proof.
  intros Hwf. repeat split.
  - intros store Hs Hr Hp. unfold RemoveStore. rewrite Hs, Hr, Hp.
    rewrite Bool.eqb_reflx. reflexivity.
  - intros store Hs Hr. unfold BuryStore. rewrite Hs, Hr. reflexivity.
  - intros H. destruct (RemoveStore_success_state _ _ _ _ _ Hwf H) as (s & Hs & Hr & Hp).
    unfold RemoveStore, GetStore. rewrite Hs, Hr, Hp, Bool.eqb_reflx. reflexivity.
  - intros H. destruct (BuryStore_success_state _ _ _ _ _ Hwf H) as (s & Hs & Hr).
    unfold BuryStore, GetStore. rewrite Hs, Hr. reflexivity.
Qed.

Lemma RemoveStore_BuryStore_idempotent_witness :
  let c1 := fst (RemoveStore Scenario.env_ok 1 false Scenario.four_stores) in
  let c2 := fst (BuryStore Scenario.env_ok 1 true c1) in
  RemoveStore Scenario.env_down 1 false c1 = (c1, None) /\
  BuryStore Scenario.env_down 1 false c2 = (c2, None).
Proof.
  intros c1 c2.
  assert (Hwf : wf_stores Scenario.four_stores)
    by (apply (bool_decide_unpack _); vm_compute; exact I).
  assert (Hwf1 : wf_stores c1)
    by (apply (bool_decide_unpack _); vm_compute; exact I).
  assert (H1 : RemoveStore Scenario.env_ok 1 false Scenario.four_stores = (c1, None))
    by (vm_compute; reflexivity).
  assert (H2 : BuryStore Scenario.env_ok 1 true c1 = (c2, None))
    by (vm_compute; reflexivity).
  split.
  - exact (proj1 (proj2 (proj2
      (RemoveStore_BuryStore_idempotent Scenario.env_ok Scenario.env_down
         Scenario.four_stores c1 1 false true true Hwf))) H1).
  - exact (proj2 (proj2 (proj2
      (RemoveStore_BuryStore_idempotent Scenario.env_ok Scenario.env_down
         c1 c2 1 false true false Hwf1))) H2).
Defined.

End StoreLifecycle.

Section MinResolvedTS.
Import Store Region Cluster.

Lemma fold_right_min_acc (l : list N) (a b : N) :
  fold_right N.min (N.min a b) l = N.min a (fold_right N.min b l).
Proof.
  induction l as [|x l IH]; cbn; [reflexivity|].
  rewrite IH. lia.
Qed.

Lemma curMinResolvedTS_fold (ss : list StoreInfo) (acc : N) :
  List.fold_left
    (fun cur s =>
       if negb (IsAvailableForMinResolvedTS s) then cur
       else if (min_resolved_ts s <? cur)%N then min_resolved_ts s else cur)
    ss acc
  = List.fold_right N.min acc
      (List.map min_resolved_ts (List.filter IsAvailableForMinResolvedTS ss)).
Proof.
  revert acc. induction ss as [|s ss IH]; intros acc; cbn; [reflexivity|].
  rewrite IH. destruct (IsAvailableForMinResolvedTS s); cbn; [|reflexivity].
  destruct (N.ltb_spec (min_resolved_ts s) acc).
  - rewrite <- fold_right_min_acc. f_equal. lia.
  - rewrite <- fold_right_min_acc. f_equal. lia.
Qed.

Lemma curMinResolvedTS_min_serving c :
  curMinResolvedTS (GetStores c) = min_serving c.
Proof. apply curMinResolvedTS_fold. Qed.

(** Only the tick of the job and [loadMinResolvedTS] write the stored
    min-resolved-ts. *)
Lemma step_minResolvedTS c env o :
  match o with
  | OpCheckMinResolvedTS | OpLoadMinResolvedTS _ => False
  | _ => True
  end ->
  minResolvedTS (step c (env, o)) = minResolvedTS c.
Proof.
  intros Ho. destruct o; cbn [step]; try contradiction.
  - unfold RemoveStore. repeat (case_match; try reflexivity).
    all: unfold putStoreLocked, SetStoreLimit in *; repeat case_match;
      simplify_eq; reflexivity.
  - unfold BuryStore. repeat (case_match; try reflexivity).
    all: unfold putStoreLocked, onStoreVersionChangeLocked in *; repeat case_match;
      simplify_eq; reflexivity.
  - unfold SetMinResolvedTS, putStoreLocked. repeat case_match; reflexivity.
  - unfold processRegionHeartbeat.
    repeat (case_match; try reflexivity); simplify_eq; cbn [fst];
      unfold notifyChanged, persistRegion; repeat case_match; reflexivity.
  - reflexivity.
Qed.

Lemma checkAndUpdate_monotone c :
  (minResolvedTS c <= minResolvedTS (fst (checkAndUpdateMinResolvedTS c)))%N.
Proof.
  unfold checkAndUpdateMinResolvedTS.
  destruct (negb (isInitialized c)); cbn; [lia|].
  destruct (N.eqb _ _); cbn; [lia|].
  destruct (N.leb_spec (curMinResolvedTS (GetStores c)) (minResolvedTS c)); cbn; lia.
Qed.

(** C9, as the spec has it, fails: on the cluster of two regions a tick of
    the job raises the stored value from 0 to 101; the job then loads the
    value of a storage that holds 0 (the value was never saved there: what
    [SaveMinResolvedTS] returns is ignored), and [GetMinResolvedTS], on a
    cluster that is initialized, goes from 101 back to 0. *)
Lemma min_resolved_ts_decreases_on_load :
  let c1 := step Scenario.two_regions (Scenario.env_ok, OpCheckMinResolvedTS) in
  let c2 := step c1 (Scenario.env_ok, OpLoadMinResolvedTS (Some 0%N)) in
  isInitialized c1 = true /\ isInitialized c2 = true /\
  GetMinResolvedTS c1 = 101%N /\ GetMinResolvedTS c2 = 0%N.
Proof. vm_compute. repeat split; reflexivity. Qed.

(** C9, amended: [GetMinResolvedTS] is [MaxUint64] while the cluster is not
    initialized; [checkAndUpdateMinResolvedTS] replaces the stored value
    exactly when the cluster is initialized and the minimum reported by
    the stores that count is below [MaxUint64] and strictly above the
    stored value, and it asks for persistence in that case only;
    [loadMinResolvedTS] overwrites the stored value with the loaded one.
    Along any run of the controller the stored value stays at or above
    every bound that it meets at the start and that every value loaded
    during the run meets: it never decreases along a run in which nothing
    is loaded. *)
Theorem min_resolved_ts_non_decreasing (c : RaftCluster) :
  (isInitialized c = false -> GetMinResolvedTS c = MaxUint64) /\
  (forall c' ts needPersist,
     checkAndUpdateMinResolvedTS c = (c', (ts, needPersist)) ->
     (minResolvedTS c <= minResolvedTS c')%N /\
     (needPersist = true <->
        isInitialized c = true /\ (minResolvedTS c < min_serving c)%N /\
        min_serving c <> MaxUint64) /\
     (needPersist = true ->
        c' = set_minResolvedTS (min_serving c) c /\ ts = min_serving c) /\
     (needPersist = false -> c' = c)) /\
  (forall loaded,
     minResolvedTS (loadMinResolvedTS loaded c) = default (minResolvedTS c) loaded) /\
  (forall trace b,
     (b <= minResolvedTS c)%N -> loads_at_least b trace ->
     (b <= minResolvedTS (run c trace))%N) /\
  (forall trace,
     Forall (fun eo => forall loaded, eo.2 <> OpLoadMinResolvedTS loaded) trace ->
     (minResolvedTS c <= minResolvedTS (run c trace))%N).
Proof.
  assert (Hrun : forall trace b c0,
            (b <= minResolvedTS c0)%N -> loads_at_least b trace ->
            (b <= minResolvedTS (run c0 trace))%N).
  { intros trace b. induction trace as [|[env o] trace IH]; intros c0 Hb Hl.
    - exact Hb.
    - apply Forall_cons in Hl as [Ho Hl]. unfold run in *. cbn [fold_left].
      apply IH; [|exact Hl]. cbn [snd] in Ho.
      destruct o as [| | | | | |[ts|]];
        try (rewrite step_minResolvedTS by exact I; exact Hb).
      + cbn [step]. unfold minResolvedTSTick.
        etransitivity; [exact Hb|apply checkAndUpdate_monotone].
      + cbn. exact Ho.
      + cbn. exact Hb. }
  split; [|split; [|split; [|split]]].
  - intros H. unfold GetMinResolvedTS. rewrite H. reflexivity.
  - intros c' ts p. unfold checkAndUpdateMinResolvedTS.
    rewrite curMinResolvedTS_min_serving.
    destruct (isInitialized c); cbn [negb];
      [destruct (N.eqb_spec (min_serving c) MaxUint64) as [He|He]; cbn [orb];
       [|destruct (N.leb_spec (min_serving c) (minResolvedTS c))]|];
      intros Heq; inversion Heq; subst; cbn;
      repeat split; try lia; try congruence;
      try (intros (? & ? & ?); first [congruence | lia]).
  - intros [ts|]; reflexivity.
  - intros trace b. apply Hrun.
  - intros trace Hno. apply Hrun; [lia|].
    unfold loads_at_least. eapply Forall_impl; [exact Hno|].
    intros [env o] Ho. cbn [snd] in *. destruct o as [| | | | | |[ts|]]; try exact I.
    exfalso. exact (Ho (Some ts) eq_refl).
Qed.

Lemma min_resolved_ts_non_decreasing_witness :
  GetMinResolvedTS Scenario.four_stores = MaxUint64 /\
  checkAndUpdateMinResolvedTS Scenario.two_regions
    = (set_minResolvedTS 101 Scenario.two_regions, (101%N, true)).
Proof.
  split.
  - apply (proj1 (min_resolved_ts_non_decreasing Scenario.four_stores)).
    vm_compute. reflexivity.
  - assert (E : checkAndUpdateMinResolvedTS Scenario.two_regions
                = (set_minResolvedTS 101 Scenario.two_regions, (101%N, true)))
      by (vm_compute; reflexivity).
    pose proof (proj1 (proj2 (min_resolved_ts_non_decreasing Scenario.two_regions))
                  _ _ _ E) as (_ & _ & Hrep & _).
    destruct (Hrep eq_refl) as [-> ->].
    vm_compute. reflexivity.
Defined.

End MinResolvedTS.

Section RegionHeartbeat.
Import Store Region Cluster.

Lemma PreCheckPutRegion_Inherit rs o b r :
  PreCheckPutRegion rs (Inherit o b r) = PreCheckPutRegion rs r.
Proof. reflexivity. Qed.

Lemma epoch_pair_Inherit o b r : epoch_pair (Inherit o b r) = epoch_pair r.
Proof. reflexivity. Qed.


Lemma regions_notifyChanged r c : regions (notifyChanged r c) = regions c.
Proof. unfold notifyChanged. case_match; reflexivity. Qed.

Lemma regions_persistRegion env g ov r c :
  regions (persistRegion env g ov r c) = regions c.
Proof. unfold persistRegion. repeat case_match; reflexivity. Qed.


Lemma regionGuide_new r : saveCache (regionGuide r None) = true.
Proof. reflexivity. Qed.







Lemma GetOverlaps_nil (rs : gmap N RegionInfo) hb :
  (forall k r, rs !! k = Some r -> k <> Region.id hb -> ranges_overlap r hb = false) ->
  GetOverlaps rs hb = [].
Proof.
  intros H. unfold GetOverlaps.
  assert (He : filter (overlapping hb) rs = ∅).
  { apply map_empty. intros k. apply map_lookup_filter_None_2.
    destruct (rs !! k) as [r|] eqn:Hk; [right|left; reflexivity].
    intros x Hx [Hne Hov]. inversion Hx; subst x. cbn in *.
    rewrite (H k r Hk Hne) in Hov. discriminate. }
  rewrite He, map_to_list_empty. reflexivity.
Qed.

(** Once a region is dropped from the cache, a heartbeat that carries the
    range of the dropped entry is accepted whatever its epoch. *)
Lemma heartbeat_after_drop env c rid cached hb :
  wf_regions c ->
  GetRegion c rid = Some cached ->
  Region.id hb = rid ->
  start_key hb = start_key cached -> end_key hb = end_key cached ->
  exists c2,
    processRegionHeartbeat env hb (DropCacheRegion rid c) = (c2, None) /\
    GetRegion c2 rid = Some (Inherit None (opt_enable_region_bucket c) hb).
Proof.
  intros Hwf Hc Hid Hs He. unfold GetRegion in *.
  assert (Hov : GetOverlaps (delete rid (regions c)) hb = []).
  { apply GetOverlaps_nil. intros k r Hk Hne. rewrite Hid in Hne.
    rewrite lookup_delete_ne in Hk by congruence.
    pose proof (Hwf k r Hk rid cached Hc Hne) as Hno.
    unfold ranges_overlap in *. rewrite Hs, He. exact Hno. }
  assert (Hpre : PreCheckPutRegion (delete rid (regions c)) hb = (None, None)).
  { unfold PreCheckPutRegion. rewrite Hov. cbn [existsb].
    rewrite Hid, lookup_delete_eq. reflexivity. }
  unfold processRegionHeartbeat.
  cbn [DropCacheRegion regions set_regions opt_enable_region_bucket].
  rewrite Hpre.
  cbn [regionGuide saveKV saveCache isNew needSync negb andb orb].
  rewrite PreCheckPutRegion_Inherit, Hpre.
  destruct (PutRegion _ _) as [rs ov] eqn:Hput.
  eexists. split; [reflexivity|].
  rewrite regions_notifyChanged, regions_persistRegion. cbn [regions set_regions].
  unfold PutRegion in Hput. inversion Hput; subst rs. cbn [Region.id Inherit].
  rewrite Hid. apply lookup_insert_eq.
Qed.

(** C8: a cached region with epoch (100,100) is dropped by the admin
    request, which answers 200; the next heartbeat of the same region with
    epoch (50,50) is then accepted and becomes the cached region, whose
    epoch reads (50,50). *)
Theorem drop_cache_then_lower_epoch_accepted
    (env : Env) (c : RaftCluster) (rid : N) (cached hb : RegionInfo) :
  wf_regions c ->
  GetRegion c rid = Some cached ->
  epoch_pair cached = (100, 100)%N ->
  Region.id hb = rid ->
  start_key hb = start_key cached -> end_key hb = end_key cached ->
  epoch_pair hb = (50, 50)%N ->
  let '(c1, status) := DeleteRegionCache rid c in
  status = StatusOK /\ GetRegion c1 rid = None /\
  exists c2 r,
    processRegionHeartbeat env hb c1 = (c2, None) /\
    GetRegion c2 rid = Some r /\ epoch_pair r = (50, 50)%N.
Proof.
  intros Hwf Hc _ Hid Hs He Hep. cbn [DeleteRegionCache].
  split; [reflexivity|]. split.
  - unfold GetRegion. cbn. apply lookup_delete_eq.
  - destruct (heartbeat_after_drop env c rid cached hb Hwf Hc Hid Hs He)
      as (c2 & Hp & Hg).
    exists c2, (Inherit None (opt_enable_region_bucket c) hb).
    repeat split; try assumption.
Qed.


Example heartbeats_accepted :
  (heartbeats Scenario.two_regions Scenario.hbs).2 = [(100, 100); (100, 101)]%N /\
  cached_epoch (heartbeats Scenario.two_regions Scenario.hbs).1 1 = Some (100, 101)%N.
Proof. vm_compute. split; reflexivity. Qed.

Lemma drop_cache_then_lower_epoch_accepted_witness :
  let '(c1, status) := DeleteRegionCache 1 Scenario.after_hb100 in
  status = StatusOK /\ GetRegion c1 1 = None /\
  exists c2 r,
    processRegionHeartbeat Scenario.env_ok Scenario.hb50 c1 = (c2, None) /\
    GetRegion c2 1 = Some r /\ epoch_pair r = (50, 50)%N.
Proof.
  apply (drop_cache_then_lower_epoch_accepted Scenario.env_ok Scenario.after_hb100 1
           (Inherit (Some Scenario.region1) false Scenario.hb100) Scenario.hb50).
  - apply (bool_decide_unpack _). vm_compute. exact I.
  - vm_compute. reflexivity.
  - reflexivity.
  - reflexivity.
  - reflexivity.
  - reflexivity.
  - reflexivity.
Defined.

(** The run of [TestDropRegion]: (100,100) is accepted, (50,50) is then
    refused and the cache still reads (100,100); after the drop (50,50) is
    accepted and read back. *)
Example TestDropRegion_accepts_100 :
  snd (processRegionHeartbeat Scenario.env_ok Scenario.hb100 Scenario.two_regions) = None /\
  cached_epoch Scenario.after_hb100 1 = Some (100, 100)%N.
Proof. vm_compute. split; reflexivity. Qed.

Example TestDropRegion_rejects_50 :
  snd (processRegionHeartbeat Scenario.env_ok Scenario.hb50 Scenario.after_hb100)
    = Some (ErrRegionIsStale 1) /\
  cached_epoch (fst (processRegionHeartbeat Scenario.env_ok Scenario.hb50
                       Scenario.after_hb100)) 1 = Some (100, 100)%N.
Proof. vm_compute. split; reflexivity. Qed.

Example TestDropRegion_after_drop :
  let c1 := DropCacheRegion 1 Scenario.after_hb100 in
  snd (processRegionHeartbeat Scenario.env_ok Scenario.hb50 c1) = None /\
  cached_epoch (fst (processRegionHeartbeat Scenario.env_ok Scenario.hb50 c1)) 1
    = Some (50, 50)%N.
Proof. vm_compute. split; reflexivity. Qed.

End RegionHeartbeat.

Section StepTimeout.
Import Operator.

Example testData_passes : passes (timeout_of table_bound) testData = true.
Proof. vm_compute. reflexivity. Qed.

Example testData_spec_fails : passes spec_Timeout testData = false.
Proof. vm_compute. reflexivity. Qed.






End StepTimeout.

Section HotPeerStat.
Import Statistics.

(** The assertions of [TestUpdateHotPeerStat], in order. *)
Example TestUpdateHotPeerStat :
  let m := RegionHeartBeatReportInterval / StoreHeartBeatReportInterval in
  let z := [0; 0; 0]%Q in
  let l := [60; 60; 60]%Q in
  (* skip interval=0 *)
  updateHotPeerStat 0 (fresh_item Read z) None z 0 = None /\
  (* new peer, interval is larger than report interval, but no hot *)
  updateHotPeerStat 0 (fresh_item Read [1; 1; 1]%Q) None z 10 = None /\
  (* new peer, interval is less than report interval *)
  let i1 := updateHotPeerStat 0 (fresh_item Read z) None l 4 in
  counts i1 = Some (0, 0, Add) /\
  (* sum of interval is less than report interval *)
  let i2 := again 0 l 4 i1 in
  counts i2 = Some (0, 0, Add) /\
  (* sum of interval is larger than report interval, and hot *)
  let i3 := again 0 l 4 i2 in
  counts i3 = Some (1, 2 * m, Add) /\
  (* sum of interval is less than report interval *)
  let i4 := again 0 l 4 i3 in
  counts i4 = Some (1, 2 * m, Add) /\
  (* sum of interval is larger than report interval, and hot *)
  let i5 := again 0 l 10 i4 in
  counts i5 = Some (2, 2 * m, Add) /\
  (* sum of interval is larger than report interval, and cold *)
  let i6 := again 0 l 10 (with_thresholds [10; 10; 10]%Q <$> i5) in
  counts i6 = Some (1, 2 * m - 1, Add) /\
  (* 2*m-1 more cold reports *)
  let i7 := Nat.iter (Z.to_nat (2 * m - 1)) (again 0 l 10) i6 in
  counts i7 = Some (-10, 0, Remove).
Proof. vm_compute. repeat split; reflexivity. Qed.

Lemma ReportInterval_le_region k : ReportInterval k <= RegionHeartBeatReportInterval.
Proof. destruct k; vm_compute; discriminate. Qed.

(** The update of a stat that is present, once its interval is full. *)
Lemma updateHotPeerStat_full now newItem old deltaLoads interval :
  ReportInterval (Kind newItem) <= intervalSum old + interval ->
  let loads := add_loads (deltaSum old) deltaLoads in
  let hot := over_threshold loads (thresholds newItem) (intervalSum old + interval) in
  exists item,
    updateHotPeerStat now newItem (Some old) deltaLoads interval = Some item /\
    (hot = true ->
       HotDegree item = HotDegree old + 1 /\
       AntiCount item = 2 * reports_per_region_heartbeat (Kind newItem)) /\
    (hot = false ->
       AntiCount item = AntiCount old - 1 /\
       (AntiCount item = 0 -> actionType item = Remove)).
Proof.
  intros Hfull loads hot. unfold updateHotPeerStat.
  destruct (Z.ltb_spec (intervalSum old + interval) (ReportInterval (Kind newItem)));
    [lia|].
  fold loads. fold hot. destruct hot eqn:Hhot.
  - eexists. split; [reflexivity|]. split; [|discriminate].
    intros _. cbn. split; reflexivity.
  - eexists. split; [reflexivity|]. split; [discriminate|].
    intros _. cbn. split; [reflexivity|].
    intros H0. rewrite H0. reflexivity.
Qed.

(** C5: a sample for a peer without prior stat and with interval 0 yields
    no item; once the accumulated interval has reached the region-heartbeat
    report interval, a stat over the threshold in some dimension gains one
    hot degree and has its anti-count set to 2 m, with m the quotient of
    the region and store heartbeat intervals for Read and 1 for Write; a
    stat below the thresholds loses one anti-count and is marked Remove
    when the anti-count reaches 0. *)
Theorem updateHotPeerStat_rule
    (now : Z) (newItem old : HotPeerStat) (deltaLoads : list Q) (interval : Z) :
  updateHotPeerStat now newItem None deltaLoads 0 = None /\
  (RegionHeartBeatReportInterval <= intervalSum old + interval ->
   let loads := add_loads (deltaSum old) deltaLoads in
   let hot := over_threshold loads (thresholds newItem) (intervalSum old + interval) in
   exists item,
     updateHotPeerStat now newItem (Some old) deltaLoads interval = Some item /\
     (hot = true ->
        HotDegree item = HotDegree old + 1 /\
        AntiCount item =
          2 * match Kind newItem with
              | Read => RegionHeartBeatReportInterval / StoreHeartBeatReportInterval
              | Write => 1
              end) /\
     (hot = false ->
        AntiCount item = AntiCount old - 1 /\
        (AntiCount item = 0 -> actionType item = Remove))).
Proof.
  split; [reflexivity|].
  intros Hfull.
  apply updateHotPeerStat_full.
  pose proof (ReportInterval_le_region (Kind newItem)). lia.
Qed.

Lemma updateHotPeerStat_rule_witness :
  let old := mkStat 0 0 Read 2 12 Update false [10; 10; 10]%Q [] 0 false 0 in
  exists item,
    updateHotPeerStat 0 old (Some old) [60; 60; 60]%Q 60 = Some item /\
    AntiCount item = 11 /\ HotDegree item = 1.
Proof.
  intros old.
  destruct (proj2 (updateHotPeerStat_rule 0 old old [60; 60; 60]%Q 60))
    as (item & Hitem & _ & Hcold).
  - vm_compute. discriminate.
  - exists item. split; [exact Hitem|].
    destruct (Hcold eq_refl) as [Hanti _]. split; [exact Hanti|].
    vm_compute in Hitem. inversion Hitem. reflexivity.
Defined.

End HotPeerStat.

Section CoolDown.
Import Statistics.














(** The checks of [TestCoolDownTransferLeader]. *)
Example TestCoolDownTransferLeader :
  Scenario.checkCoolDown_all =
    (Some false, (Some true, Some false, Some false, Some false)).
Proof. vm_compute. reflexivity. Qed.

End CoolDown.

Section TimestampOracle.
Import TSO.









Lemma save_if_needed_fields wall t :
  physical (save_if_needed wall t) = physical t /\
  logical (save_if_needed wall t) = logical t.
Proof.
  unfold save_if_needed.
  destruct (Z.leb_spec (lastSavedTime t) (physical t)); cbn; split; reflexivity.
Qed.

Lemma current_save_if_needed wall t : current (save_if_needed wall t) = current t.
Proof.
  unfold current. destruct (save_if_needed_fields wall t) as (-> & ->). reflexivity.
Qed.










(** [TestLoadTimestamp]: the clock is made slow, the servers are rebooted,
    and the physical part of the next timestamp is still larger. *)
Example TestLoadTimestamp :
  let t1 := SyncTimestamp test_wall 0 in
  let '(t2, _) := GetTS test_wall 1 t1 in
  let '(_, r) := GetTS (test_wall - Hour) 1 (Restart (test_wall - Hour) t2) in
  match r with
  | inl newTS => 0 <? ts_physical newTS - physical t2
  | inr _ => false
  end = true.
Proof. vm_compute. reflexivity. Qed.




(** The requests of [TestResetTS], in order, against one allocator. *)
Example TestResetTS :
  let t0 := SyncTimestamp test_wall 0 in
  let '(t1, r1) := ResetTS test_wall (FormatUint (makeTS test_wall Hour)) t0 in
  let '(t2, r2) := ResetTS test_wall (FormatUint (makeTS test_wall (32 * Hour))) t1 in
  let '(t3, r3) := ResetTS test_wall (FormatUint (makeTS test_wall (-2 * Hour))) t2 in
  let '(t4, r4) := ResetTS test_wall "" t3 in
  let '(t5, r5) := ResetTS test_wall "test" t4 in
  r1 = (StatusOK, msg_ok) /\
  r2.1 = StatusForbidden /\ contains "too large" r2.2 = true /\
  r3.1 = StatusForbidden /\ contains "small" r3.2 = true /\
  r4 = (StatusBadRequest, msg_invalid) /\
  r5 = (StatusBadRequest, msg_invalid) /\
  current t5 = makeTS test_wall Hour.
Proof. vm_compute. repeat split; reflexivity. Qed.

End TimestampOracle.

Section StoreStateMachine.
Import Store Region Cluster StoreOps.

Lemma putStoreLocked_cases env store c :
  (exists c', putStoreLocked env store c = (c', None) /\
              stores c' = <[Store.id store := store]> (stores c)) \/
  (exists e, putStoreLocked env store c = (c, Some e)).
Proof.
  unfold putStoreLocked. destruct (save_store_ok env); [left|right]; eauto.
Qed.

Lemma resetProgress_stores i c : stores (resetProgress i c) = stores c.
Proof. reflexivity. Qed.

(** One step either leaves the store table as it is or rewrites the record
    of one known store, under its own id. *)
Lemma store_step_shape c eo :
  wf_stores c ->
  stores (store_step c eo) = stores c \/
  exists k s s', stores c !! k = Some s /\ evolves s s' /\ Store.id s' = k /\
                 stores (store_step c eo) = <[k := s']> (stores c).
Proof.
  intros Hwf. destruct eo as [env [i pd|i f|i|i|i ts]]; cbn [store_step].
  - unfold RemoveStore, GetStore.
    destruct (stores c !! i) as [store|] eqn:Hs; [|by left].
    pose proof (Hwf _ _ Hs) as Hid.
    destruct (IsRemoving store && _); [by left|].
    destruct (IsRemoved store) eqn:Hrm; [by left|].
    destruct (IsPhysicallyDestroyed store) eqn:Hpd; [by left|].
    case_match eqn:Hchk; [by left|].
    destruct (putStoreLocked_cases env (OfflineStore pd store) c)
      as [(c1 & Hput & Hst)|(e & Hput)]; rewrite Hput; cbv beta iota; cbn [fst]; [|by left].
    right. exists i, store, (OfflineStore pd store).
    rewrite SetStoreLimit_stores. cbn [fst stores set_prevStoreLimit AddRemovingProgress
      resetProgress set_progress]. rewrite Hst. cbn [OfflineStore Store.id].
    rewrite Hid. repeat split; auto.
    right; left. exists pd. repeat split; auto.
    unfold IsRemoved in Hrm. intros Habs. rewrite Habs in Hrm.
    by rewrite bool_decide_eq_false in Hrm.
  - unfold BuryStore, GetStore.
    destruct (stores c !! i) as [store|] eqn:Hs; [|by left].
    pose proof (Hwf _ _ Hs) as Hid.
    destruct (IsRemoved store) eqn:Hrm; [by left|].
    destruct (IsUp store && negb f); [by left|].
    destruct (IsUp store && negb _); [by left|].
    destruct (putStoreLocked_cases env (TombstoneStore store) c)
      as [(c1 & Hput & Hst)|(e & Hput)]; rewrite Hput; cbv beta iota; cbn [fst].
    + right. exists i, store, (TombstoneStore store).
      cbn [fst stores set_prevStoreLimit RemoveStoreLimit set_opt_store_limit
        resetProgress set_progress set_rolling_store_stats].
      rewrite onStoreVersionChangeLocked_stores, Hst. cbn [TombstoneStore Store.id].
      rewrite Hid. repeat split; auto.
      right; right; left. split; auto.
      unfold IsRemoved in Hrm. intros Habs. rewrite Habs in Hrm.
      by rewrite bool_decide_eq_false in Hrm.
    + left. cbn [fst]. apply onStoreVersionChangeLocked_stores.
  - unfold UpStore, GetStore.
    destruct (stores c !! i) as [store|] eqn:Hs; [|by left].
    pose proof (Hwf _ _ Hs) as Hid.
    destruct (IsRemoved store) eqn:Hrm; [by left|].
    destruct (IsPhysicallyDestroyed store) eqn:Hpd; [by left|].
    destruct (IsUp store) eqn:Hup; [by left|].
    destruct (putStoreLocked_cases env (UpStoreOption store) c)
      as [(c1 & Hput & Hst)|(e & Hput)]; rewrite Hput; cbv beta iota; cbn [fst]; [|by left].
    right. exists i, store, (UpStoreOption store).
    cbn [fst]. rewrite resetProgress_stores.
    assert (Hc2 : forall o : option StoreLimitConfig,
              stores (match o with
                      | Some l => fst (SetStoreLimit env i RemovePeer (limit_remove_peer l)
                                   (fst (SetStoreLimit env i AddPeer (limit_add_peer l) c1)))
                      | None => c1 end) = stores c1).
    { intros [l|]; [|done]. by rewrite !SetStoreLimit_stores. }
    rewrite Hc2, Hst. cbn [UpStoreOption Store.id]. rewrite Hid.
    repeat split; auto.
    right; right; right; left.
    unfold IsRemoved in Hrm. unfold IsUp, IsPreparing, IsServing in Hup.
    apply orb_false_elim in Hup as [_ Hsv].
    rewrite bool_decide_eq_false in Hrm. rewrite bool_decide_eq_false in Hsv.
    repeat split; auto.
  - unfold ReadyToServe, GetStore.
    destruct (stores c !! i) as [store|] eqn:Hs; [|by left].
    pose proof (Hwf _ _ Hs) as Hid.
    destruct (IsRemoved store) eqn:Hrm; [by left|].
    destruct (IsPhysicallyDestroyed store) eqn:Hpd; [by left|].
    destruct (IsServing store) eqn:Hsv; [by left|].
    destruct (putStoreLocked_cases env (UpStoreOption store) c)
      as [(c1 & Hput & Hst)|(e & Hput)]; rewrite Hput; cbv beta iota; cbn [fst]; [|by left].
    right. exists i, store, (UpStoreOption store).
    cbn [fst]. rewrite resetProgress_stores, Hst. cbn [UpStoreOption Store.id].
    rewrite Hid. repeat split; auto.
    right; right; right; left.
    unfold IsRemoved in Hrm. unfold IsServing in Hsv.
    rewrite bool_decide_eq_false in Hrm. rewrite bool_decide_eq_false in Hsv.
    repeat split; auto.
  - unfold Cluster.SetMinResolvedTS, GetStore.
    destruct (stores c !! i) as [store|] eqn:Hs; [|by left].
    pose proof (Hwf _ _ Hs) as Hid.
    destruct (putStoreLocked_cases env (Store.SetMinResolvedTS ts store) c)
      as [(c1 & Hput & Hst)|(e & Hput)]; rewrite Hput; cbv beta iota; cbn [fst]; [|by left].
    right. exists i, store, (Store.SetMinResolvedTS ts store).
    cbn [fst]. rewrite Hst. cbn [Store.SetMinResolvedTS Store.id].
    rewrite Hid. repeat split; auto.
    right; right; right; right. by exists ts.
Qed.

Lemma store_step_wf c eo : wf_stores c -> wf_stores (store_step c eo).
Proof.
  intros Hwf. destruct (store_step_shape c eo Hwf) as [Heq|(k & s & s' & Hs & Hev & Hid & Heq)];
    unfold wf_stores; rewrite Heq; [exact Hwf|].
  apply map_Forall_insert_2; [exact Hid|exact Hwf].
Qed.

Lemma store_run_wf trace c : wf_stores c -> wf_stores (store_run c trace).
Proof.
  revert c. induction trace as [|eo trace IH]; intros c Hwf; [exact Hwf|].
  apply IH, store_step_wf, Hwf.
Qed.

Lemma store_step_lookup c eo k s :
  wf_stores c -> stores c !! k = Some s ->
  exists s', stores (store_step c eo) !! k = Some s' /\ evolves s s'.
Proof.
  intros Hwf Hs.
  destruct (store_step_shape c eo Hwf) as [Heq|(k' & s0 & s' & Hs0 & Hev & Hid & Heq)];
    rewrite Heq.
  - exists s. split; [exact Hs|by left].
  - destruct (decide (k' = k)) as [->|Hne].
    + rewrite lookup_insert_eq. exists s'. split; [done|]. congruence.
    + rewrite lookup_insert_ne by done. exists s. split; [exact Hs|by left].
Qed.

Lemma store_step_lookup_None c eo k :
  wf_stores c -> stores c !! k = None -> stores (store_step c eo) !! k = None.
Proof.
  intros Hwf Hs.
  destruct (store_step_shape c eo Hwf) as [Heq|(k' & s0 & s' & Hs0 & Hev & Hid & Heq)];
    rewrite Heq; [exact Hs|].
  rewrite lookup_insert_ne; [exact Hs|]. intros ->. congruence.
Qed.

Lemma store_run_lookup (P : StoreInfo -> Prop) :
  (forall s s', P s -> evolves s s' -> P s') ->
  forall trace c k s,
    wf_stores c -> stores c !! k = Some s -> P s ->
    exists s', stores (store_run c trace) !! k = Some s' /\ P s'.
Proof.
  intros Hstep. induction trace as [|eo trace IH]; intros c k s Hwf Hs HP.
  - exists s. auto.
  - destruct (store_step_lookup c eo k s Hwf Hs) as (s1 & Hs1 & Hev).
    cbn [store_run List.fold_left].
    apply (IH (store_step c eo) k s1); eauto using store_step_wf.
Qed.

(** X1: a tombstone is terminal. Whatever sequence of RemoveStore,
    BuryStore, UpStore, ReadyToServe and SetMinResolvedTS calls follows,
    with whatever outcome of the persistence, a store that is Removed stays
    in the table, stays Removed, and keeps its address and its
    physically-destroyed flag. *)
Theorem tombstone_is_terminal (c : RaftCluster) (k : N) (s : StoreInfo)
    (trace : list (Env * StoreOp)) :
  wf_stores c ->
  stores c !! k = Some s ->
  IsRemoved s = true ->
  exists s', stores (store_run c trace) !! k = Some s' /\
             IsRemoved s' = true /\
             address s' = address s /\
             physically_destroyed s' = physically_destroyed s.
Proof.
  intros Hwf Hs Hrm.
  apply bool_decide_eq_true in Hrm.
  destruct (store_run_lookup
              (fun x => node_state x = Removed /\ address x = address s /\
                        physically_destroyed x = physically_destroyed s))
    with (trace := trace) (c := c) (k := k) (s := s)
    as (s' & Hs' & H1 & H2 & H3); auto.
  - intros x x' (Hx1 & Hx2 & Hx3)
      [->|[(pd & -> & Hne & _)|[(-> & Hne)|[(-> & Hne & _)|(ts & ->)]]]];
      try done.
  - exists s'. repeat split; auto. by apply bool_decide_eq_true.
Qed.

Lemma tombstone_is_terminal_witness :
  exists s', stores (store_run
                       (fst (BuryStore (mkEnv 100 true true true) 1 true Scenario.four_stores))
                       [(Scenario.env_ok, DoUpStore 1);
                        (Scenario.env_ok, DoReadyToServe 1);
                        (Scenario.env_ok, DoRemoveStore 1 false)]) !! 1%N = Some s' /\
             IsRemoved s' = true /\
             address s' = address (TombstoneStore (Scenario.serving_store 1)) /\
             physically_destroyed s' =
               physically_destroyed (TombstoneStore (Scenario.serving_store 1)).
Proof.
  apply (tombstone_is_terminal
           (fst (BuryStore (mkEnv 100 true true true) 1 true Scenario.four_stores)) 1%N
           (TombstoneStore (Scenario.serving_store 1))).
  - apply (bool_decide_unpack _). vm_compute. reflexivity.
  - vm_compute. reflexivity.
  - vm_compute. reflexivity.
Defined.

(** X2: a physically destroyed store never comes up again. Once a store is
    marked physically destroyed and is not up, no sequence of lifecycle
    calls makes it Preparing or Serving, and the mark is never cleared. *)
Theorem destroyed_store_never_up (c : RaftCluster) (k : N) (s : StoreInfo)
    (trace : list (Env * StoreOp)) :
  wf_stores c ->
  stores c !! k = Some s ->
  IsPhysicallyDestroyed s = true ->
  IsUp s = false ->
  exists s', stores (store_run c trace) !! k = Some s' /\
             IsPhysicallyDestroyed s' = true /\ IsUp s' = false.
Proof.
  intros Hwf Hs Hpd Hup.
  apply (store_run_lookup
           (fun x => IsPhysicallyDestroyed x = true /\ IsUp x = false))
    with (s := s); auto.
  intros x x' (Hx1 & Hx2)
    [->|[(pd & -> & _ & Hf)|[(-> & Hne)|[(-> & _ & _ & Hf)|(ts & ->)]]]];
    unfold IsPhysicallyDestroyed in *; try congruence; auto.
Qed.

Lemma destroyed_store_never_up_witness :
  exists s', stores (store_run
                       (fst (RemoveStore Scenario.env_ok 1 true Scenario.four_stores))
                       [(Scenario.env_ok, DoUpStore 1);
                        (Scenario.env_ok, DoReadyToServe 1);
                        (Scenario.env_ok, DoRemoveStore 1 false)]) !! 1%N = Some s' /\
             IsPhysicallyDestroyed s' = true /\ IsUp s' = false.
Proof.
  apply (destroyed_store_never_up
           (fst (RemoveStore Scenario.env_ok 1 true Scenario.four_stores)) 1%N
           (OfflineStore true (Scenario.serving_store 1))).
  - apply (bool_decide_unpack _). vm_compute. reflexivity.
  - vm_compute. reflexivity.
  - vm_compute. reflexivity.
  - vm_compute. reflexivity.
Defined.

Lemma Permutation_filter_length {A} (f : A -> bool) (l l' : list A) :
  l ≡ₚ l' -> List.length (List.filter f l) = List.length (List.filter f l').
Proof.
  induction 1 as [|x l l' _ IH|x y l|l l' l'' _ IH1 _ IH2]; cbn.
  - reflexivity.
  - destruct (f x); cbn; congruence.
  - destruct (f x), (f y); reflexivity.
  - congruence.
Qed.

Lemma getUpStores_insert (c : RaftCluster) (m : gmap N StoreInfo) i s s' :
  m !! i = Some s ->
  (List.length (List.filter IsUp (map_to_list (<[i := s']> m)).*2)
   + (if IsUp s then 1 else 0)
   = List.length (List.filter IsUp (map_to_list m).*2) + (if IsUp s' then 1 else 0))%nat.
Proof.
  intros Hs.
  assert (H1 : map_to_list m ≡ₚ (i, s) :: map_to_list (delete i m)).
  { rewrite <- (insert_delete_id m i s Hs) at 1.
    apply map_to_list_insert, lookup_delete_eq. }
  assert (H2 : map_to_list (<[i := s']> m) ≡ₚ (i, s') :: map_to_list (delete i m)).
  { rewrite <- insert_delete_eq. apply map_to_list_insert, lookup_delete_eq. }
  rewrite (Permutation_filter_length IsUp _ _ (fmap_Permutation snd _ _ H1)).
  rewrite (Permutation_filter_length IsUp _ _ (fmap_Permutation snd _ _ H2)).
  cbn. destruct (IsUp s), (IsUp s'); cbn; lia.
Qed.

(** What a call of [RemoveStore] that does the work leaves behind. *)
Lemma RemoveStore_success_inv env i pd store c c' :
  wf_stores c ->
  GetStore c i = Some store ->
  IsRemoving store && Bool.eqb (IsPhysicallyDestroyed store) pd = false ->
  RemoveStore env i pd c = (c', None) ->
  stores c' = <[i := OfflineStore pd store]> (stores c) /\
  opt_max_replicas c' = opt_max_replicas c /\
  opt_default_limit c' = opt_default_limit c /\
  prevStoreLimit c' = <[i := mkLimit (GetStoreLimitByType c i AddPeer)
                                     (GetStoreLimitByType c i RemovePeer)]> (prevStoreLimit c) /\
  opt_store_limit c' =
    (if persist_opt_ok env
     then <[i := with_limit RemovePeer Unlimited
                   (default (opt_default_limit c) (opt_store_limit c !! i))]> (opt_store_limit c)
     else opt_store_limit c) /\
  (IsUp store && negb pd = true -> checkReplicaBeforeOfflineStore c i = None).
Proof.
  intros Hwf Hs Hfirst. unfold RemoveStore. rewrite Hs, Hfirst.
  pose proof (Hwf _ _ Hs) as Hid.
  destruct (IsRemoved store); [discriminate|].
  destruct (IsPhysicallyDestroyed store); [discriminate|].
  fold (IsUp store).
  destruct (if IsUp store && negb pd then checkReplicaBeforeOfflineStore c i else None)
    as [e|] eqn:Hchk; [discriminate|].
  destruct (putStoreLocked env _ c) as [c1 [e|]] eqn:Hput; [discriminate|].
  intros Heq; inversion Heq; subst c'; clear Heq.
  unfold putStoreLocked in Hput. destruct (save_store_ok env); [|discriminate].
  inversion Hput; subst c1; clear Hput.
  unfold SetStoreLimit. cbn [OfflineStore Store.id]. rewrite Hid.
  destruct (persist_opt_ok env); cbn; repeat split; auto.
  all: intros Hb; rewrite Hb in Hchk; exact Hchk.
Qed.

(** X3: taking a store that is up offline never leaves the cluster with
    fewer up stores than max-replicas: when [RemoveStore] (not physically
    destroyed) succeeds on a Preparing or Serving store, at least
    max-replicas stores are still up afterwards. *)
Theorem RemoveStore_keeps_enough_up_stores
    (env : Env) (storeID : N) (store : StoreInfo) (c c' : RaftCluster) :
  wf_stores c ->
  GetStore c storeID = Some store ->
  IsUp store = true ->
  RemoveStore env storeID false c = (c', None) ->
  opt_max_replicas c' <= Z.of_nat (List.length (getUpStores c')).
Proof.
  intros Hwf Hs Hup Hrs.
  assert (Hrm : IsRemoving store = false).
  { unfold IsUp, IsPreparing, IsServing, IsRemoving in *.
    repeat case_bool_decide; try done; congruence. }
  destruct (RemoveStore_success_inv env storeID false store c c' Hwf Hs)
    as (Hst & Hmax & _ & _ & _ & Hchk); auto.
  { by rewrite Hrm. }
  rewrite Hup in Hchk. specialize (Hchk eq_refl).
  unfold checkReplicaBeforeOfflineStore in Hchk.
  destruct (Z.ltb_spec (Z.of_nat (List.length (getUpStores c)) - 1) (opt_max_replicas c))
    as [Hlt|Hge]; [discriminate|]. clear Hchk.
  rewrite Hmax. unfold getUpStores, GetStores in *. rewrite List.length_map in *.
  rewrite Hst.
  pose proof (getUpStores_insert c (stores c) storeID store (OfflineStore false store) Hs)
    as Hlen.
  rewrite Hup in Hlen. change (IsUp (OfflineStore false store)) with false in Hlen.
  cbv iota in Hlen. lia.
Qed.

Lemma RemoveStore_keeps_enough_up_stores_witness :
  opt_max_replicas (fst (RemoveStore Scenario.env_ok 1 false Scenario.four_stores))
  <= Z.of_nat (List.length
                 (getUpStores (fst (RemoveStore Scenario.env_ok 1 false Scenario.four_stores)))).
Proof.
  apply (RemoveStore_keeps_enough_up_stores Scenario.env_ok 1 (Scenario.serving_store 1)
           Scenario.four_stores).
  - apply (bool_decide_unpack _). vm_compute. reflexivity.
  - vm_compute. reflexivity.
  - vm_compute. reflexivity.
  - vm_compute. reflexivity.
Defined.

(** X4: the store limits survive a round trip through Removing. After
    [RemoveStore] has taken an up store offline, its remove-peer limit is
    [Unlimited] (when the option could be persisted) and its add-peer limit
    is as before; a later [UpStore] (with the options persisted) makes the
    store Serving again and gives back both limits the store had before it
    was removed. *)
Theorem UpStore_restores_limits
    (env1 env2 : Env) (storeID : N) (store : StoreInfo) (c c1 c2 : RaftCluster) :
  wf_stores c ->
  GetStore c storeID = Some store ->
  IsUp store = true ->
  RemoveStore env1 storeID false c = (c1, None) ->
  persist_opt_ok env2 = true ->
  UpStore env2 storeID c1 = (c2, None) ->
  (persist_opt_ok env1 = true ->
     GetStoreLimitByType c1 storeID RemovePeer = Unlimited /\
     GetStoreLimitByType c1 storeID AddPeer = GetStoreLimitByType c storeID AddPeer) /\
  (forall typ, GetStoreLimitByType c2 storeID typ = GetStoreLimitByType c storeID typ) /\
  exists s', GetStore c2 storeID = Some s' /\ IsServing s' = true.
Proof.
  intros Hwf Hs Hup Hrs Hp2.
  assert (Hrm : IsRemoving store = false).
  { unfold IsUp, IsPreparing, IsServing, IsRemoving in *.
    repeat case_bool_decide; try done; congruence. }
  destruct (RemoveStore_success_inv env1 storeID false store c c1 Hwf Hs)
    as (Hst & _ & Hdef & Hprev & Hlim & _); auto.
  { by rewrite Hrm. }
  unfold UpStore, GetStore. rewrite Hst, lookup_insert_eq.
  change (IsRemoved (OfflineStore false store)) with false.
  change (IsPhysicallyDestroyed (OfflineStore false store)) with false.
  change (IsUp (OfflineStore false store)) with false. cbv iota.
  rewrite Hprev, lookup_insert_eq.
  unfold putStoreLocked. destruct (save_store_ok env2); [|discriminate].
  unfold SetStoreLimit. rewrite Hp2. cbn [fst limit_add_peer limit_remove_peer].
  intros Heq; inversion Heq; subst c2; clear Heq.
  split; [|split].
  - intros Hp1. rewrite Hp1 in Hlim. unfold GetStoreLimitByType.
    rewrite Hlim, Hdef, lookup_insert_eq. cbn. auto.
  - intros typ. unfold GetStoreLimitByType. cbn. rewrite !lookup_insert_eq. cbn.
    rewrite ?lookup_insert_eq. by destruct typ.
  - exists (UpStoreOption (OfflineStore false store)). cbn.
    pose proof (Hwf _ _ Hs) as Hid. unfold GetStore in Hs. rewrite Hid.
    rewrite lookup_insert_eq. auto.
Qed.

Lemma UpStore_restores_limits_witness :
  let c := Scenario.four_stores in
  let c1 := fst (RemoveStore Scenario.env_ok 1 false c) in
  let c2 := fst (UpStore Scenario.env_ok 1 c1) in
  (persist_opt_ok Scenario.env_ok = true ->
     GetStoreLimitByType c1 1 RemovePeer = Unlimited /\
     GetStoreLimitByType c1 1 AddPeer = GetStoreLimitByType c 1 AddPeer) /\
  (forall typ, GetStoreLimitByType c2 1 typ = GetStoreLimitByType c 1 typ) /\
  exists s', GetStore c2 1 = Some s' /\ IsServing s' = true.
Proof.
  apply (UpStore_restores_limits Scenario.env_ok Scenario.env_ok 1
           (Scenario.serving_store 1) Scenario.four_stores).
  - apply (bool_decide_unpack _). vm_compute. reflexivity.
  - vm_compute. reflexivity.
  - vm_compute. reflexivity.
  - vm_compute. reflexivity.
  - reflexivity.
  - vm_compute. reflexivity.
Defined.

Lemma getUpStores_keys (l : list (N * StoreInfo)) :
  Forall (fun ks => Store.id ks.2 = ks.1) l ->
  List.map Store.id (List.filter IsUp l.*2) = (List.filter (fun ks => IsUp ks.2) l).*1.
Proof.
  induction 1 as [|[k s] l Hk _ IH]; [reflexivity|].
  cbn in *. destruct (IsUp s); cbn; congruence.
Qed.

Lemma NoDup_filter_fst {A B} (f : A * B -> bool) (l : list (A * B)) :
  NoDup l.*1 -> NoDup (List.filter f l).*1.
Proof.
  induction l as [|x l IH]; cbn; [done|].
  intros Hnd. apply NoDup_cons in Hnd as [Hx Hnd].
  destruct (f x); cbn; [|auto].
  apply NoDup_cons. split; [|auto].
  intros Hin. apply Hx. apply list_elem_of_fmap in Hin as (y & -> & Hy).
  apply list_elem_of_fmap. exists y. split; [done|].
  apply list_elem_of_In. apply list_elem_of_In in Hy.
  apply List.filter_In in Hy. tauto.
Qed.

Lemma getUpStores_NoDup c : wf_stores c -> NoDup (getUpStores c).
Proof.
  intros Hwf. unfold getUpStores, GetStores.
  rewrite getUpStores_keys.
  - apply NoDup_filter_fst, NoDup_fst_map_to_list.
  - apply Forall_forall. intros [k s] Hin.
    apply elem_of_map_to_list in Hin. cbn. exact (Hwf _ _ Hin).
Qed.

Lemma filter_mem_length (U : gset N) (l : list N) :
  NoDup l ->
  List.length (List.filter (fun i => bool_decide (i ∈ U)) l)
  = size (list_to_set l ∩ U : gset N).
Proof.
  induction 1 as [|x l Hx Hnd IH]; cbn.
  - by rewrite intersection_empty_l_L, size_empty.
  - case_bool_decide as HU; cbn.
    + replace (({[x]} ∪ list_to_set l) ∩ U) with ({[x]} ∪ (list_to_set l ∩ U) : gset N)
        by set_solver.
      rewrite size_union, size_singleton by set_solver. by rewrite IH.
    + replace (({[x]} ∪ list_to_set l) ∩ U) with (list_to_set l ∩ U : gset N)
        by set_solver.
      exact IH.
Qed.

Lemma size_list_to_set_le (l : list N) : (size (list_to_set l : gset N) <= List.length l)%nat.
Proof.
  induction l as [|x l IH]; cbn; [by rewrite size_empty|].
  pose proof (size_union_alt ({[x]} : gset N) (list_to_set l)) as Hu.
  rewrite size_singleton in Hu. assert (Hd : (size (list_to_set l ∖ {[x]}) <= size (list_to_set l : gset N))%nat) by (apply subseteq_size; set_solver). lia.
Qed.

Lemma size_lt_elem (E U : gset N) :
  (size E < size U)%nat -> exists x, x ∈ U /\ x ∉ E.
Proof.
  intros Hlt. destruct (decide (U ⊆ E)) as [Hsub|Hn].
  - apply subseteq_size in Hsub. lia.
  - destruct (set_choose_L (U ∖ E)) as [x Hx].
    + intros Hemp. apply Hn. set_solver.
    + exists x. set_solver.
Qed.

(** X5: what the replica check promises about leaders. If the check lets a
    store go offline (the evict-leader list holding no store twice), some
    other up store is not an evict-leader store, so the leaders have a place
    to go; and when it answers [ErrNoStoreForRegionLeader], every other up
    store is an evict-leader store. *)
Theorem checkReplicaBeforeOfflineStore_leader_store (c : RaftCluster) (storeID : N) :
  wf_stores c ->
  NoDup (getEvictLeaderStores c) ->
  (checkReplicaBeforeOfflineStore c storeID = None ->
     exists i, i ∈ getUpStores c /\ i <> storeID /\ i ∉ getEvictLeaderStores c) /\
  (checkReplicaBeforeOfflineStore c storeID = Some (ErrNoStoreForRegionLeader storeID) ->
     forall i, i ∈ getUpStores c -> i <> storeID -> i ∈ getEvictLeaderStores c).
Proof.
  intros Hwf Hnd. pose proof (getUpStores_NoDup c Hwf) as Hup.
  unfold checkReplicaBeforeOfflineStore.
  set (up := getUpStores c) in *. set (ev := getEvictLeaderStores c) in *.
  set (U := list_to_set (List.filter (fun i => negb (N.eqb i storeID)) up) : gset N).
  assert (HU : forall i, i ∈ U <-> i ∈ up /\ i <> storeID).
  { intros i. unfold U. rewrite elem_of_list_to_set, list_elem_of_In, List.filter_In,
      <- list_elem_of_In, negb_true_iff, N.eqb_neq. tauto. }
  assert (Hsize : (List.length up - 1 <= size U)%nat).
  { assert (Hle : (size (list_to_set up : gset N) <= size ({[storeID]} ∪ U))%nat).
    { apply subseteq_size. intros i Hi. apply elem_of_list_to_set in Hi.
      destruct (decide (i = storeID)) as [->|Hne]; [set_solver|].
      apply elem_of_union_r, HU. auto. }
    pose proof (size_union_alt ({[storeID]} : gset N) U) as Hu.
    rewrite size_singleton in Hu. assert (Hd : (size (U ∖ {[storeID]}) <= size U)%nat) by (apply subseteq_size; set_solver).
    pose proof (size_list_to_set (C := gset N) up Hup) as Hsz. lia. }
  destruct (Z.ltb_spec (Z.of_nat (List.length up) - 1) (opt_max_replicas c)) as [Hlt|Hge].
  { split; intros Heq; discriminate. }
  destruct (Z.ltb_spec (Z.of_nat (List.length ev)) (Z.of_nat (List.length up) - 1))
    as [Hfew|Hmany].
  { split; [intros _|intros Heq; discriminate].
    destruct (size_lt_elem (list_to_set ev) U) as (x & Hx & Hnx).
    - pose proof (size_list_to_set_le ev). lia.
    - exists x. apply HU in Hx as [Hx1 Hx2]. repeat split; auto.
      intros Hin. apply Hnx, elem_of_list_to_set, Hin. }
  rewrite (filter_mem_length U ev Hnd).
  destruct (Nat.eqb_spec (size (list_to_set ev ∩ U : gset N)) (size U)) as [Heq|Hne].
  - split; [intros Habs; discriminate|intros _].
    intros i Hi Hne.
    assert (Hsub : list_to_set ev ∩ U = U).
    { apply set_eq. intros x. split; [set_solver|]. intros Hx.
      destruct (decide (x ∈ (list_to_set ev ∩ U : gset N))) as [|Hnx]; [done|].
      assert (Hs1 : (size (list_to_set ev ∩ U) <= size (U ∖ {[x]}))%nat) by (apply subseteq_size; set_solver).
      pose proof (size_union_alt ({[x]} : gset N) U) as Hu.
      replace ({[x]} ∪ U) with U in Hu by set_solver.
      rewrite size_singleton in Hu. lia. }
    assert (Hin : i ∈ (list_to_set ev ∩ U : gset N)).
    { rewrite Hsub. apply HU. auto. }
    apply elem_of_intersection in Hin as [Hin _].
    by apply elem_of_list_to_set in Hin.
  - split; [intros _|intros Habs; discriminate].
    destruct (size_lt_elem (list_to_set ev ∩ U) U) as (x & Hx & Hnx).
    + assert (Hs1 : (size (list_to_set ev ∩ U) <= size U)%nat) by (apply subseteq_size; set_solver). lia.
    + exists x. pose proof Hx as Hx'. apply HU in Hx' as [Hx1 Hx2]. repeat split; auto.
      intros Hin. apply Hnx. apply elem_of_intersection. split; [|done].
      by apply elem_of_list_to_set.
Qed.

Lemma checkReplicaBeforeOfflineStore_leader_store_witness :
  let c := Scenario.four_stores in
  (checkReplicaBeforeOfflineStore c 1 = None ->
     exists i, i ∈ getUpStores c /\ i <> 1%N /\ i ∉ getEvictLeaderStores c) /\
  (checkReplicaBeforeOfflineStore c 1 = Some (ErrNoStoreForRegionLeader 1) ->
     forall i, i ∈ getUpStores c -> i <> 1%N -> i ∈ getEvictLeaderStores c).
Proof.
  apply (checkReplicaBeforeOfflineStore_leader_store Scenario.four_stores 1).
  - apply (bool_decide_unpack _). vm_compute. reflexivity.
  - apply (bool_decide_unpack _). vm_compute. reflexivity.
Defined.

End StoreStateMachine.

Section TombStoneRecords.
Import Store Region Cluster StoreOps.

Lemma GetStoreRegionCount_regions c1 c k :
  regions c1 = regions c -> GetStoreRegionCount c1 k = GetStoreRegionCount c k.
Proof. unfold GetStoreRegionCount. by intros ->. Qed.

Lemma removeTombStones_spec ok ss : forall failed c c' r,
  removeTombStones ok ss failed c = (c', r) ->
  regions c' = regions c /\
  (forall k, stores c' !! k = None \/ stores c' !! k = stores c !! k) /\
  (forall k, stores c' !! k <> stores c !! k ->
     exists s, s ∈ ss /\ Store.id s = k /\ IsRemoved s = true /\
               GetStoreRegionCount c k = 0%nat /\ ok k = true) /\
  match r with
  | None =>
    failed = [] /\
    forall s, s ∈ ss -> IsRemoved s = true -> stores c' !! Store.id s = None
  | Some (FailedStores ids) =>
    ids = failed ++ List.map Store.id (List.filter (has_regions c) ss) /\ ids <> [] /\
    forall s, s ∈ ss -> IsRemoved s = true -> GetStoreRegionCount c (Store.id s) = 0%nat ->
              stores c' !! Store.id s = None
  | Some (DeleteStoreFailed e) =>
    exists s, s ∈ ss /\ IsRemoved s = true /\
              GetStoreRegionCount c (Store.id s) = 0%nat /\ ok (Store.id s) = false
  end.
Proof.
  induction ss as [|store rest IH]; intros failed c c' r; cbn [removeTombStones].
  - intros Heq; inversion Heq; subst. repeat split; auto.
    + intros k Hk. done.
    + destruct failed as [|i failed]; [split; [done|]; intros s Hs; by apply elem_of_nil in Hs|].
      cbn [List.filter List.map]. rewrite app_nil_r. repeat split; [done|].
      intros s Hs. by apply elem_of_nil in Hs.
  - cbn [List.filter].
    destruct (IsRemoved store) eqn:Hrm.
    + destruct (Nat.ltb_spec 0 (GetStoreRegionCount c (Store.id store))) as [Hpos|Hzero].
      * intros Hrun. apply IH in Hrun as (Hreg & Hdel & Hchg & Hres).
        repeat split; auto.
        { intros k Hk. destruct (Hchg k Hk) as (s & Hs & Hrest).
          exists s. split; [by apply elem_of_cons; right|done]. }
        destruct r as [[e|ids]|].
        -- destruct Hres as (s & Hs & Hrest). exists s.
           split; [by apply elem_of_cons; right|done].
        -- destruct Hres as (Hids & Hne & Hgone).
           assert (Hhr : has_regions c store = true).
           { unfold has_regions. rewrite Hrm. by apply Nat.ltb_lt. }
           rewrite Hhr. cbn [List.map]. rewrite <- app_assoc in Hids. repeat split; auto.
           intros s Hs Hsr Hsz. apply elem_of_cons in Hs as [->|Hs]; [lia|auto].
        -- destruct Hres as (Hf & _). by destruct failed.
      * assert (Hcnt : GetStoreRegionCount c (Store.id store) = 0%nat) by lia.
        unfold deleteStoreLocked.
        destruct (ok (Store.id store)) eqn:Hok.
        -- intros Hrun. apply IH in Hrun as (Hreg & Hdel & Hchg & Hres).
           cbn [regions stores RemoveStoreLimit set_opt_store_limit set_stores set_kv_stores]
             in Hreg, Hdel, Hchg.
           assert (Hcount : forall k,
                     GetStoreRegionCount
                       (RemoveStoreLimit (Store.id store)
                          (set_stores (delete (Store.id store))
                             (set_kv_stores (delete (Store.id store)) c))) k
                     = GetStoreRegionCount c k) by (intros k; reflexivity).
           assert (Hgone0 : stores c' !! Store.id store = None).
           { destruct (Hdel (Store.id store)) as [H0|H0]; [done|].
             rewrite H0. apply lookup_delete_eq. }
           split; [exact Hreg|]. split; [|split].
           { intros k. destruct (Hdel k) as [H0|H0]; [by left|].
             destruct (decide (k = Store.id store)) as [->|Hne].
             - left. exact Hgone0.
             - right. rewrite H0. by apply lookup_delete_ne. }
           { intros k Hk. destruct (decide (k = Store.id store)) as [->|Hne].
             - exists store. repeat split; auto. apply elem_of_cons; by left.
             - destruct (Hchg k) as (s & Hs & Hrest).
               + rewrite lookup_delete_ne by done. exact Hk.
               + exists s. split; [by apply elem_of_cons; right|].
                 rewrite Hcount in Hrest. exact Hrest. }
           destruct r as [[e|ids]|].
           ++ destruct Hres as (s & Hs & Hrest). exists s.
              split; [by apply elem_of_cons; right|]. rewrite Hcount in Hrest. exact Hrest.
           ++ destruct Hres as (Hids & Hne & Hgone).
              assert (Hhr : has_regions c store = false).
              { unfold has_regions. rewrite Hrm. apply Nat.ltb_ge. lia. }
              rewrite Hhr. repeat split; auto.
              intros s Hs Hsr Hsz. apply elem_of_cons in Hs as [->|Hs]; [done|].
              apply Hgone; auto.
           ++ destruct Hres as (Hf & Hgone). split; [done|].
              intros s Hs Hsr. apply elem_of_cons in Hs as [->|Hs]; [done|auto].
        -- intros Heq; inversion Heq; subst c' r. repeat split; auto.
           { intros k Hk. done. }
           exists store. repeat split; auto. apply elem_of_cons; by left.
    + intros Hrun. apply IH in Hrun as (Hreg & Hdel & Hchg & Hres).
      repeat split; auto.
      { intros k Hk. destruct (Hchg k Hk) as (s & Hs & Hrest).
        exists s. split; [by apply elem_of_cons; right|done]. }
      destruct r as [[e|ids]|].
      * destruct Hres as (s & Hs & Hrest). exists s.
        split; [by apply elem_of_cons; right|done].
      * destruct Hres as (Hids & Hne & Hgone).
        assert (Hhr : has_regions c store = false).
        { unfold has_regions. by rewrite Hrm. }
        rewrite Hhr. repeat split; auto.
        intros s Hs Hsr Hsz. apply elem_of_cons in Hs as [->|Hs]; [congruence|auto].
      * destruct Hres as (Hf & Hgone). split; [done|].
        intros s Hs Hsr. apply elem_of_cons in Hs as [->|Hs]; [congruence|auto].
Qed.

Lemma elem_of_GetStores c s :
  wf_stores c -> s ∈ GetStores c <-> stores c !! Store.id s = Some s.
Proof.
  intros Hwf. unfold GetStores. rewrite list_elem_of_fmap. split.
  - intros ([k x] & -> & Hin). apply elem_of_map_to_list in Hin. cbn.
    by rewrite (Hwf _ _ Hin).
  - intros Hs. exists (Store.id s, s). split; [done|]. by apply elem_of_map_to_list.
Qed.

(** X6: what [RemoveTombStoneRecords] removes. It only ever deletes store
    records, and only those of tombstones that hold no region; every other
    record stays as it was. When it returns no error, no tombstone is left.
    When it reports failed stores, these are exactly the tombstones that
    still hold regions, they are all still there, and every region-free
    tombstone is gone. *)
Theorem RemoveTombStoneRecords_spec
    (delete_ok : N -> bool) (c c' : RaftCluster) (r : option tombstone_error) :
  wf_stores c ->
  RemoveTombStoneRecords delete_ok c = (c', r) ->
  (forall k s, stores c' !! k = Some s -> stores c !! k = Some s) /\
  (forall k s, stores c !! k = Some s -> stores c' !! k = None ->
     IsRemoved s = true /\ GetStoreRegionCount c k = 0%nat) /\
  (r = None -> forall k s, stores c' !! k = Some s -> IsRemoved s = false) /\
  (forall ids, r = Some (FailedStores ids) ->
     (forall k, k ∈ ids <->
        exists s, stores c !! k = Some s /\ IsRemoved s = true /\
                  (0 < GetStoreRegionCount c k)%nat) /\
     (forall k, k ∈ ids -> stores c' !! k = stores c !! k) /\
     (forall k s, stores c' !! k = Some s -> IsRemoved s = true -> k ∈ ids)).
Proof.
  intros Hwf Hrun. unfold RemoveTombStoneRecords in Hrun.
  apply removeTombStones_spec in Hrun as (Hreg & Hdel & Hchg & Hres).
  assert (Hkeep : forall k s, stores c' !! k = Some s -> stores c !! k = Some s).
  { intros k s Hs. destruct (Hdel k) as [H0|H0]; congruence. }
  assert (Hgone : forall k s, stores c !! k = Some s -> stores c' !! k = None ->
            IsRemoved s = true /\ GetStoreRegionCount c k = 0%nat).
  { intros k s Hs Hn. destruct (Hchg k) as (x & Hx & Hid & Hrm & Hcnt & _); [congruence|].
    apply (elem_of_GetStores c x Hwf) in Hx. rewrite Hid in Hx.
    assert (x = s) by congruence. subst x. auto. }
  split; [exact Hkeep|]. split; [exact Hgone|]. split.
  - intros ->. destruct Hres as (_ & Hnone). intros k s Hs.
    destruct (IsRemoved s) eqn:Hrm; [|done].
    pose proof (Hkeep _ _ Hs) as Hs0. pose proof (Hwf _ _ Hs0) as Hid.
    assert (Hin : s ∈ GetStores c) by (apply elem_of_GetStores; [done|by rewrite Hid]).
    specialize (Hnone s Hin Hrm). rewrite Hid in Hnone. congruence.
  - intros ids ->. destruct Hres as (Hids & _ & Hnone). cbn [app] in Hids.
    assert (Hmem : forall k, k ∈ ids <->
              exists s, stores c !! k = Some s /\ IsRemoved s = true /\
                        (0 < GetStoreRegionCount c k)%nat).
    { intros k. rewrite Hids, list_elem_of_fmap. split.
      - intros (s & -> & Hin). apply list_elem_of_In, List.filter_In in Hin as [Hin Hhr].
        apply list_elem_of_In, (elem_of_GetStores c s Hwf) in Hin.
        unfold has_regions in Hhr. apply andb_prop in Hhr as [Hrm Hpos].
        apply Nat.ltb_lt in Hpos. eauto.
      - intros (s & Hs & Hrm & Hpos). pose proof (Hwf _ _ Hs) as Hid.
        exists s. split; [done|]. apply list_elem_of_In, List.filter_In. split.
        + apply list_elem_of_In, elem_of_GetStores; [done|by rewrite Hid].
        + unfold has_regions. rewrite Hrm, Hid. by apply Nat.ltb_lt. }
    split; [exact Hmem|]. split.
    + intros k Hk. apply Hmem in Hk as (s & Hs & Hrm & Hpos).
      destruct (Hdel k) as [H0|H0]; [|done].
      destruct (Hgone k s Hs H0) as [_ Hz]. lia.
    + intros k s Hs Hrm. apply Hmem. exists s.
      pose proof (Hkeep _ _ Hs) as Hs0. pose proof (Hwf _ _ Hs0) as Hid.
      repeat split; auto.
      destruct (Nat.ltb_spec 0 (GetStoreRegionCount c k)) as [|Hz]; [done|].
      assert (Hin : s ∈ GetStores c) by (apply elem_of_GetStores; [done|by rewrite Hid]).
      rewrite <- Hid in Hz.
      assert (Hz' : GetStoreRegionCount c (Store.id s) = 0%nat) by lia.
      specialize (Hnone s Hin Hrm Hz'). rewrite Hid in Hnone. congruence.
Qed.

Lemma RemoveTombStoneRecords_spec_witness :
  let c := tombstones in
  let c' := fst (RemoveTombStoneRecords (fun _ => true) c) in
  let r := snd (RemoveTombStoneRecords (fun _ => true) c) in
  (forall k s, stores c' !! k = Some s -> stores c !! k = Some s) /\
  (forall k s, stores c !! k = Some s -> stores c' !! k = None ->
     IsRemoved s = true /\ GetStoreRegionCount c k = 0%nat) /\
  (r = None -> forall k s, stores c' !! k = Some s -> IsRemoved s = false) /\
  (forall ids, r = Some (FailedStores ids) ->
     (forall k, k ∈ ids <->
        exists s, stores c !! k = Some s /\ IsRemoved s = true /\
                  (0 < GetStoreRegionCount c k)%nat) /\
     (forall k, k ∈ ids -> stores c' !! k = stores c !! k) /\
     (forall k s, stores c' !! k = Some s -> IsRemoved s = true -> k ∈ ids)).
Proof.
  apply (RemoveTombStoneRecords_spec (fun _ => true) tombstones).
  - apply (bool_decide_unpack _). vm_compute. reflexivity.
  - vm_compute. reflexivity.
Defined.

(** The run on the example: store 3 is deleted, store 2 is reported. *)
Example RemoveTombStoneRecords_example :
  let '(c', r) := RemoveTombStoneRecords (fun _ => true) tombstones in
  r = Some (FailedStores [2%N]) /\
  stores c' !! 3%N = None /\
  stores c' !! 2%N = Some (TombstoneStore (Scenario.serving_store 2)) /\
  stores c' !! 1%N = Some (Scenario.serving_store 1).
Proof. vm_compute. repeat split; reflexivity. Qed.

End TombStoneRecords.

Section CheckStores.
Import Store Region Cluster StoreOps.

Lemma updateProgress_stores i a c : stores (updateProgress i a c) = stores c.
Proof. by destruct a. Qed.

Lemma updateProgress_regions i a c : regions (updateProgress i a c) = regions c.
Proof. by destruct a. Qed.

Lemma putStoreLocked_regions env s c : regions (fst (putStoreLocked env s c)) = regions c.
Proof. unfold putStoreLocked. by destruct (save_store_ok env). Qed.

Lemma onStoreVersionChangeLocked_regions c :
  regions (onStoreVersionChangeLocked c) = regions c.
Proof.
  unfold onStoreVersionChangeLocked.
  destruct (List.map _ _); [reflexivity|].
  destruct (N.eqb _ _); reflexivity.
Qed.

Lemma ReadyToServe_preparing env i s c :
  stores c !! i = Some s -> Store.id s = i -> IsPreparing s = true ->
  regions (fst (ReadyToServe env i c)) = regions c /\
  stores (fst (ReadyToServe env i c))
  = <[i := if save_store_ok env && negb (IsPhysicallyDestroyed s)
           then UpStoreOption s else s]> (stores c).
Proof.
  intros Hs Hid Hprep. unfold ReadyToServe, GetStore. rewrite Hs.
  assert (Hst : node_state s = Preparing) by (by apply bool_decide_eq_true in Hprep).
  unfold IsRemoved, IsServing. rewrite Hst.
  rewrite !bool_decide_eq_false_2 by discriminate.
  destruct (IsPhysicallyDestroyed s); cbn [negb andb fst].
  - rewrite andb_false_r. by rewrite insert_id.
  - rewrite andb_true_r. unfold putStoreLocked.
    destruct (save_store_ok env); cbn; [by rewrite Hid|by rewrite insert_id].
Qed.

Lemma BuryStore_removing env i s c :
  stores c !! i = Some s -> Store.id s = i -> IsRemoving s = true ->
  regions (fst (BuryStore env i false c)) = regions c /\
  stores (fst (BuryStore env i false c))
  = <[i := if save_store_ok env then TombstoneStore s else s]> (stores c).
Proof.
  intros Hs Hid Hrm. unfold BuryStore, GetStore. rewrite Hs.
  assert (Hst : node_state s = Removing) by (by apply bool_decide_eq_true in Hrm).
  unfold IsRemoved, IsUp, IsPreparing, IsServing. rewrite Hst.
  rewrite !bool_decide_eq_false_2 by discriminate. cbn [orb andb].
  unfold putStoreLocked. destruct (save_store_ok env); cbn [fst].
  - cbn [regions stores set_rolling_store_stats resetProgress set_progress RemoveStoreLimit
         set_opt_store_limit set_prevStoreLimit].
    rewrite onStoreVersionChangeLocked_regions, onStoreVersionChangeLocked_stores.
    cbn. by rewrite Hid.
  - rewrite onStoreVersionChangeLocked_regions, onStoreVersionChangeLocked_stores.
    by rewrite insert_id.
Qed.

(** What one round of the loop does to the store table. *)
Lemma checkStore_stores e c s :
  stores c !! Store.id s = Some s ->
  regions (checkStore e c s) = regions c /\
  stores (checkStore e c s)
  = <[Store.id s := if save_store_ok (env_of e (Store.id s)) then checked e c s else s]>
      (stores c).
Proof.
  intros Hs. unfold checkStore, checked.
  destruct (node_state s) eqn:Hst;
    match goal with
    | Hst : node_state s = ?st |- _ =>
      assert (HRd : IsRemoved s = bool_decide (st = Removed))
        by (unfold IsRemoved; by rewrite Hst);
      assert (HPr : IsPreparing s = bool_decide (st = Preparing))
        by (unfold IsPreparing; by rewrite Hst);
      assert (HSv : IsServing s = bool_decide (st = Serving))
        by (unfold IsServing; by rewrite Hst);
      assert (HRg : IsRemoving s = bool_decide (st = Removing))
        by (unfold IsRemoving; by rewrite Hst)
    end;
    unfold IsUp; rewrite HRd, HPr, HSv, HRg;
    change (bool_decide (Preparing = Preparing)) with true;
    change (bool_decide (Serving = Serving)) with true;
    change (bool_decide (Removing = Removing)) with true;
    change (bool_decide (Removed = Removed)) with true;
    repeat match goal with
           | |- context [bool_decide (?a = ?b)] => change (bool_decide (a = b)) with false
           end;
    cbn [orb andb negb].
  - (* Preparing *)
    assert (Hprep : IsPreparing s = true) by (by rewrite HPr).
    destruct (ReadyToServe_preparing (env_of e (Store.id s)) (Store.id s) s c Hs eq_refl Hprep)
      as [Hreg Hsto].
    destruct (readyByTime e (Store.id s)); cbn [orb].
    + split; [exact Hreg|]. rewrite Hsto. f_equal.
      destruct (save_store_ok _), (IsPhysicallyDestroyed s); reflexivity.
    + destruct (IsPrepared e); cbn [andb].
      * destruct (reachedThreshold e (Store.id s)).
        -- split; [exact Hreg|]. rewrite Hsto. f_equal.
           destruct (save_store_ok _), (IsPhysicallyDestroyed s); reflexivity.
        -- rewrite updateProgress_stores, updateProgress_regions. split; [done|].
           rewrite insert_id; [done|]. rewrite Hs. by destruct (save_store_ok _).
      * split; [done|]. rewrite insert_id; [done|]. rewrite Hs. by destruct (save_store_ok _).
  - (* Serving *)
    split; [done|]. rewrite insert_id; [done|]. rewrite Hs. by destruct (save_store_ok _).
  - (* Removing *)
    assert (Hrm : IsRemoving s = true) by (by rewrite HRg).
    set (c2 := if IsPrepared e then updateProgress (Store.id s) removingAction c else c).
    assert (Hc2 : stores c2 = stores c /\ regions c2 = regions c).
    { unfold c2. destruct (IsPrepared e); [|done].
      by rewrite updateProgress_stores, updateProgress_regions. }
    destruct Hc2 as [Hc2s Hc2r].
    rewrite (GetStoreRegionCount_regions c2 c _ Hc2r).
    destruct (GetStoreRegionCount c (Store.id s) =? 0)%nat.
    + destruct (BuryStore_removing (env_of e (Store.id s)) (Store.id s) s c2) as [Hreg Hsto];
        [by rewrite Hc2s|done|done|].
      rewrite Hreg, Hsto, Hc2r, Hc2s. done.
    + rewrite Hc2r, Hc2s. split; [done|].
      rewrite insert_id; [done|]. rewrite Hs. by destruct (save_store_ok _).
  - (* Removed *)
    split; [done|]. rewrite insert_id; [done|]. rewrite Hs. by destruct (save_store_ok _).
Qed.

Lemma checked_regions e c1 c s : regions c1 = regions c -> checked e c1 s = checked e c s.
Proof. intros Hr. unfold checked. by rewrite (GetStoreRegionCount_regions c1 c _ Hr). Qed.

Lemma checkStores_fold e l : forall c0,
  NoDup (List.map Store.id l) ->
  (forall s, s ∈ l -> stores c0 !! Store.id s = Some s) ->
  regions (List.fold_left (checkStore e) l c0) = regions c0 /\
  (forall s, s ∈ l ->
     stores (List.fold_left (checkStore e) l c0) !! Store.id s
     = Some (if save_store_ok (env_of e (Store.id s)) then checked e c0 s else s)) /\
  (forall k, k ∉ List.map Store.id l ->
     stores (List.fold_left (checkStore e) l c0) !! k = stores c0 !! k).
Proof.
  induction l as [|s rest IH]; intros c0 Hnd Hall; cbn [List.fold_left].
  - repeat split; auto. intros s Hs. by apply elem_of_nil in Hs.
  - cbn [List.map] in Hnd. apply NoDup_cons in Hnd as [Hnotin Hnd].
    destruct (checkStore_stores e c0 s) as [Hreg Hsto];
      [apply Hall, elem_of_cons; by left|].
    assert (Hne : forall t, t ∈ rest -> Store.id t <> Store.id s).
    { intros t Ht Heq. apply Hnotin. rewrite <- Heq.
      apply list_elem_of_In, List.in_map, list_elem_of_In, Ht. }
    destruct (IH (checkStore e c0 s) Hnd) as (IHr & IHin & IHout).
    { intros t Ht. rewrite Hsto, lookup_insert_ne by (apply not_eq_sym, Hne, Ht).
      apply Hall, elem_of_cons. by right. }
    split; [by rewrite IHr|]. split.
    + intros t Ht. apply elem_of_cons in Ht as [->|Ht].
      * rewrite IHout by exact Hnotin. by rewrite Hsto, lookup_insert_eq.
      * rewrite (IHin t Ht). by rewrite (checked_regions e _ c0 t Hreg).
    + intros k Hk. apply not_elem_of_cons in Hk as [Hk1 Hk2].
      rewrite (IHout k Hk2), Hsto. by rewrite lookup_insert_ne.
Qed.

Lemma GetStores_ids c :
  wf_stores c -> List.map Store.id (GetStores c) = (map_to_list (stores c)).*1.
Proof.
  intros Hwf. unfold GetStores.
  assert (H : Forall (fun ks : N * StoreInfo => Store.id ks.2 = ks.1) (map_to_list (stores c))).
  { apply Forall_forall. intros [k s] Hin. apply elem_of_map_to_list in Hin.
    exact (Hwf _ _ Hin). }
  induction H as [|[k s] l Hk _ IH]; cbn in *; congruence.
Qed.

(** X20: the periodic check of the stores. One run of [checkStores] leaves
    the regions alone and changes the store table store by store, each
    store on its own: a preparing store that is ready (up for the maximal
    preparing time or in a small cluster, or with its region size at its
    threshold once the coordinator is prepared) and not physically
    destroyed becomes Serving; a removing store on which no region keeps a
    peer becomes a tombstone; every other store, and any store whose write
    to the storage fails, is left exactly as it was. No store is added or
    deleted. *)
Theorem checkStores_spec (e : CheckEnv) (c : RaftCluster) :
  wf_stores c ->
  regions (checkStores e c) = regions c /\
  forall k,
    stores (checkStores e c) !! k
    = (fun s => if save_store_ok (env_of e k) then checked e c s else s) <$> stores c !! k.
Proof.
  intros Hwf. unfold checkStores.
  destruct (checkStores_fold e (GetStores c) c) as (Hreg & Hin & Hout).
  - rewrite GetStores_ids by exact Hwf. apply NoDup_fst_map_to_list.
  - intros s Hs. by apply elem_of_GetStores.
  - split; [exact Hreg|]. intros k.
    destruct (stores c !! k) as [s|] eqn:Hs; cbn [fmap option_fmap option_map].
    + pose proof (Hwf _ _ Hs) as Hid.
      assert (Hs' : s ∈ GetStores c) by (apply elem_of_GetStores; [done|by rewrite Hid]).
      specialize (Hin s Hs'). by rewrite Hid in Hin.
    + rewrite Hout; [exact Hs|]. intros Hk.
      apply list_elem_of_In, List.in_map_iff in Hk as (s & Hid & Hs').
      apply list_elem_of_In, (elem_of_GetStores c s Hwf) in Hs'. congruence.
Qed.

Lemma checkStores_spec_witness :
  regions (checkStores check_env checked_cluster) = regions checked_cluster /\
  forall k,
    stores (checkStores check_env checked_cluster) !! k
    = (fun s => if save_store_ok (env_of check_env k)
                then checked check_env checked_cluster s else s)
        <$> stores checked_cluster !! k.
Proof.
  apply (checkStores_spec check_env checked_cluster).
  apply (bool_decide_unpack _). vm_compute. reflexivity.
Defined.

(** The run on the example: the preparing store 1 becomes Serving, the
    empty removing store 4 a tombstone, the removing store 3 that holds a
    peer stays. *)
Example checkStores_example :
  let c' := checkStores check_env checked_cluster in
  node_state <$> stores c' !! 1%N = Some Serving /\
  node_state <$> stores c' !! 2%N = Some Serving /\
  node_state <$> stores c' !! 3%N = Some Removing /\
  node_state <$> stores c' !! 4%N = Some Removed.
Proof. vm_compute. repeat split; reflexivity. Qed.

End CheckStores.

Section PutStore.
Import Store Region Cluster StoreOps.

Lemma evolves_live s s' :
  evolves s s' -> address s' = address s /\ (live s' = true -> live s = true).
Proof.
  assert (Hlive : node_state s <> Removed -> physically_destroyed s = false ->
                  live s = true).
  { intros Hne Hpd. unfold live, IsRemoved, IsPhysicallyDestroyed.
    rewrite Hpd, orb_false_r. apply negb_true_iff. by apply bool_decide_eq_false. }
  intros [->|[(pd & -> & Hne & Hpd)|[(-> & Hne)|[(-> & Hne & _ & Hpd)|(ts & ->)]]]];
    split; auto.
  intros Habs. discriminate Habs.
Qed.

Lemma addresses_unique_alt c :
  addresses_unique c <->
  forall i j s t,
    stores c !! i = Some s -> stores c !! j = Some t -> i <> j ->
    live s = true -> live t = true -> address s <> address t.
Proof.
  unfold addresses_unique. split.
  - intros H i j s t Hs Ht. exact (H i s Hs j t Ht).
  - intros H i s Hs j t Ht. exact (H i j s t Hs Ht).
Qed.

Lemma addresses_unique_insert c k s' (m' : gmap N StoreInfo) :
  addresses_unique c ->
  m' = <[k := s']> (stores c) ->
  (forall j t, j <> k -> stores c !! j = Some t -> live s' = true -> live t = true ->
               address s' <> address t) ->
  forall i j s t, m' !! i = Some s -> m' !! j = Some t -> i <> j ->
                  live s = true -> live t = true -> address s <> address t.
Proof.
  intros Huniq -> Hnew i j s t Hs Ht Hij Hls Hlt.
  rewrite addresses_unique_alt in Huniq.
  destruct (decide (i = k)) as [->|Hik], (decide (j = k)) as [->|Hjk]; try done.
  - rewrite lookup_insert_eq in Hs. rewrite lookup_insert_ne in Ht by done.
    assert (s' = s) by congruence. subst s'. apply (Hnew j t); auto.
  - rewrite lookup_insert_eq in Ht. rewrite lookup_insert_ne in Hs by done.
    assert (s' = t) by congruence. subst s'. intros Heq. symmetry in Heq. revert Heq.
    apply (Hnew i s); auto.
  - rewrite lookup_insert_ne in Hs by done. rewrite lookup_insert_ne in Ht by done.
    apply (Huniq i j s t); auto.
Qed.

(** What a successful [putStoreImpl] leaves in the store table. *)
Lemma putStoreImpl_shape env penv store c :
  wf_stores c ->
  stores (fst (putStoreImpl env penv store c)) = stores c \/
  exists s', Store.id s' = meta_id store /\ meta_id store <> 0%N /\
             address s' = meta_address store /\
             stores (fst (putStoreImpl env penv store c))
               = <[meta_id store := s']> (stores c) /\
             forall j t, j <> meta_id store -> stores c !! j = Some t ->
                         live t = true -> meta_address store <> address t.
Proof.
  intros Hwf. unfold putStoreImpl.
  destruct (N.eqb_spec (meta_id store) 0) as [|Hid0]; [by left|].
  destruct (negb (version_ok penv)); [by left|].
  destruct (List.find _ (GetStores c)) as [dup|] eqn:Hfind; [by left|].
  destruct (negb (labels_ok penv)); [by left|].
  set (s' := match GetStore c (meta_id store) with
             | None => NewStoreInfo (labels_tiflash penv) store
             | Some s => UpdateStoreInfo (labels_tiflash penv) store s
             end).
  assert (Hid : Store.id s' = meta_id store).
  { unfold s', GetStore. destruct (stores c !! meta_id store) as [s|] eqn:Hs; [|done].
    exact (Hwf _ _ Hs). }
  assert (Haddr : address s' = meta_address store).
  { unfold s'. by destruct (GetStore c (meta_id store)). }
  destruct (putStoreLocked_cases env s' c) as [(c1 & Hput & Hst)|(e & Hput)];
    rewrite Hput; cbn [fst]; [|by left].
  right. exists s'. rewrite Hst, Hid. repeat split; auto.
  intros j t Hj Ht Hlive Heq.
  pose proof (List.find_none _ _ Hfind t) as Hnone. cbv beta in Hnone.
  rewrite Hlive, (Hwf _ _ Ht) in Hnone.
  assert (Hin : List.In t (GetStores c)).
  { apply list_elem_of_In. unfold GetStores. apply list_elem_of_fmap.
    exists (j, t). split; [done|]. by apply elem_of_map_to_list. }
  specialize (Hnone Hin).
  destruct (N.eqb_spec j (meta_id store)) as [|_]; [done|].
  rewrite <- Heq, String.eqb_refl in Hnone. discriminate.
Qed.

Lemma admin_step_wf c eo : wf_stores c -> wf_stores (admin_step c eo).
Proof.
  intros Hwf. destruct eo as [env [o|penv store]]; cbn [admin_step].
  - by apply store_step_wf.
  - destruct (putStoreImpl_shape env penv store c Hwf)
      as [Heq|(s' & Hid & _ & _ & Heq & _)]; unfold wf_stores; rewrite Heq; [done|].
    by apply map_Forall_insert_2.
Qed.

Lemma admin_step_unique c eo :
  wf_stores c -> addresses_unique c -> addresses_unique (admin_step c eo).
Proof.
  intros Hwf Huniq. destruct eo as [env [o|penv store]]; cbn [admin_step].
  - destruct (store_step_shape c (env, o) Hwf)
      as [Heq|(k & s & s' & Hs & Hev & Hid & Heq)];
      [unfold addresses_unique; rewrite Heq; exact Huniq|].
    apply evolves_live in Hev as [Haddr Hlive].
    apply addresses_unique_alt.
    apply (addresses_unique_insert c k s'); auto.
    intros j t Hj Ht Hl Hlt. rewrite Haddr.
    rewrite addresses_unique_alt in Huniq. apply (Huniq k j s t); auto.
  - destruct (putStoreImpl_shape env penv store c Hwf)
      as [Heq|(s' & Hid & _ & Haddr & Heq & Hnew)];
      [unfold addresses_unique; rewrite Heq; exact Huniq|].
    apply addresses_unique_alt.
    apply (addresses_unique_insert c (meta_id store) s'); auto.
    intros j t Hj Ht _ Hlt. rewrite Haddr. eauto.
Qed.

(** X7: no two live stores ever share an address. If the stores that are
    neither removed nor physically destroyed have pairwise different
    addresses, they still have after any sequence of store registrations
    ([putStoreImpl]) and lifecycle calls, whatever the outcome of the
    checks and of the persistence; and no store is ever registered under
    id 0. *)
Theorem addresses_stay_unique (c : RaftCluster) (trace : list (Env * AdminOp)) :
  wf_stores c ->
  addresses_unique c ->
  stores c !! 0%N = None ->
  addresses_unique (admin_run c trace) /\ stores (admin_run c trace) !! 0%N = None.
Proof.
  revert c. induction trace as [|eo trace IH]; intros c Hwf Huniq Hzero; [done|].
  cbn [admin_run List.fold_left]. apply IH.
  - by apply admin_step_wf.
  - by apply admin_step_unique.
  - destruct eo as [env [o|penv store]]; cbn [admin_step].
    + by apply store_step_lookup_None.
    + destruct (putStoreImpl_shape env penv store c Hwf)
        as [Heq|(s' & _ & Hid & _ & Heq & _)]; rewrite Heq; [done|].
      by rewrite lookup_insert_ne.
Qed.

Lemma addresses_stay_unique_witness :
  let trace :=
    [(Scenario.env_ok, DoPutStore (mkPutEnv true true false)
                         (mkMeta 5 "127.0.0.1:20165" 6 Preparing false));
     (Scenario.env_ok, DoPutStore (mkPutEnv true true false)
                         (mkMeta 6 "127.0.0.1:20160" 6 Preparing false));
     (Scenario.env_ok, Life (DoReadyToServe 5))] in
  addresses_unique (admin_run tombstones trace) /\
  stores (admin_run tombstones trace) !! 0%N = None.
Proof.
  apply (addresses_stay_unique tombstones).
  - apply (bool_decide_unpack _). vm_compute. reflexivity.
  - apply (bool_decide_unpack _). vm_compute. reflexivity.
  - vm_compute. reflexivity.
Defined.

(** On the example: the second registration reuses the address of the
    serving store 1 and is refused; the address of a tombstone may be
    taken again. *)
Example putStoreImpl_duplicated_address :
  snd (putStoreImpl Scenario.env_ok (mkPutEnv true true false)
         (mkMeta 6 "127.0.0.1:20160" 6 Preparing false) tombstones)
    = Some (DuplicatedAddress 1) /\
  snd (putStoreImpl Scenario.env_ok (mkPutEnv true true false)
         (mkMeta 6 "127.0.0.1:20160" 6 Preparing false)
         (fst (BuryStore (mkEnv 100 true true true) 1 true tombstones)))
    = None.
Proof. vm_compute. split; reflexivity. Qed.

End PutStore.

Section SchedulerPause.
Import Coordinator.

Lemma int64_small z : - 2 ^ 63 <= z < 2 ^ 63 -> int64 z = z.
Proof.
  intros Hz. unfold int64. rewrite Z.mod_small by lia. lia.
Qed.

Lemma pauseOrResume_paused now t sc now' :
  0 < t -> 0 <= now -> now + t < 2 ^ 63 ->
  IsPaused now' (pauseOrResume now t sc) = bool_decide (now' < now + t) /\
  GetDelayAt now' (pauseOrResume now t sc) = (if bool_decide (now' < now + t) then now else 0) /\
  GetDelayUntil now' (pauseOrResume now t sc)
    = (if bool_decide (now' < now + t) then now + t else 0).
Proof.
  intros Ht Hnow Hno.
  unfold GetDelayAt, GetDelayUntil, IsPaused, pauseOrResume. cbn.
  destruct (Z.ltb_spec 0 t) as [_|]; [|lia].
  rewrite int64_small by lia.
  destruct (Z.ltb_spec now' (now + t)); case_bool_decide; try lia; auto.
Qed.

(** X8: pausing one scheduler. Pausing a scheduler by name for [t > 0]
    seconds (the end of the pause fitting in an int64) makes it paused
    exactly until [now + t]: during that time it is reported paused with
    these two timestamps and is not allowed to schedule; from [now + t] on
    it is no longer paused and both timestamps read 0. The other schedulers
    are untouched. *)
Theorem pause_scheduler_window
    (now : string -> Z) (name : string) (t : Z) (c : coordinator)
    (sc : scheduleController) :
  bootstrapped c = true ->
  name <> "all" ->
  schedulers c !! name = Some sc ->
  0 < t -> 0 <= now name -> now name + t < 2 ^ 63 ->
  exists c',
    pauseOrResumeScheduler now name t c = (c', None) /\
    (forall now',
       isSchedulerPaused now' name c' = (bool_decide (now' < now name + t), None) /\
       getPausedSchedulerDelayAt now' name c'
         = ((if bool_decide (now' < now name + t) then now name else 0), None) /\
       getPausedSchedulerDelayUntil now' name c'
         = ((if bool_decide (now' < now name + t) then now name + t else 0), None) /\
       (now' < now name + t -> isSchedulerAllowed now' name c' = (false, None))) /\
    (forall other, other <> name -> schedulers c' !! other = schedulers c !! other).
Proof.
  intros Hb Hname Hsc Ht Hnow Hno.
  unfold pauseOrResumeScheduler. rewrite Hb. cbn [negb].
  apply String.eqb_neq in Hname. rewrite Hname. cbn [negb]. rewrite Hsc.
  eexists. split; [reflexivity|]. split.
  - intros now'.
    destruct (pauseOrResume_paused (now name) t sc now' Ht Hnow Hno) as (H1 & H2 & H3).
    unfold isSchedulerPaused, getPausedSchedulerDelayAt, getPausedSchedulerDelayUntil,
      isSchedulerAllowed, query. cbn [bootstrapped schedulers]. rewrite ?Hb. cbn [negb].
    rewrite lookup_insert_eq. rewrite H1, H2, H3. repeat split.
    intros Hlt. unfold AllowSchedule. rewrite H1.
    rewrite bool_decide_eq_true_2 by done. cbn. by rewrite andb_false_r.
  - intros other Hne. cbn [schedulers]. by rewrite lookup_insert_ne.
Qed.

Lemma pause_scheduler_window_witness :
  exists c',
    pauseOrResumeScheduler (fun _ => 1000) "balance-leader-scheduler" 30 two_schedulers
      = (c', None) /\
    (forall now',
       isSchedulerPaused now' "balance-leader-scheduler" c'
         = (bool_decide (now' < 1000 + 30), None) /\
       getPausedSchedulerDelayAt now' "balance-leader-scheduler" c'
         = ((if bool_decide (now' < 1000 + 30) then 1000 else 0), None) /\
       getPausedSchedulerDelayUntil now' "balance-leader-scheduler" c'
         = ((if bool_decide (now' < 1000 + 30) then 1000 + 30 else 0), None) /\
       (now' < 1000 + 30 ->
        isSchedulerAllowed now' "balance-leader-scheduler" c' = (false, None))) /\
    (forall other, other <> "balance-leader-scheduler" ->
                   schedulers c' !! other = schedulers two_schedulers !! other).
Proof.
  apply (pause_scheduler_window (fun _ => 1000) "balance-leader-scheduler" 30
           two_schedulers (mkController true 0 0)).
  - reflexivity.
  - discriminate.
  - vm_compute. reflexivity.
  - lia.
  - lia.
  - lia.
Defined.

(** X9: resuming, and pausing all. A call with [t <= 0] resumes: whatever
    pause was set, the scheduler is not paused at any time [>= 0] after it
    and is allowed to schedule again if the scheduler itself allows it and
    no unsafe recovery runs. The name "all" applies the call to every
    scheduler and never fails on a bootstrapped cluster; any other unknown
    name is an error that changes nothing. *)
Theorem resume_and_pause_all
    (now : string -> Z) (name : string) (t : Z) (c : coordinator) :
  bootstrapped c = true ->
  (forall sc, name <> "all" -> schedulers c !! name = Some sc -> t <= 0 ->
     exists c', pauseOrResumeScheduler now name t c = (c', None) /\
       forall now', 0 <= now' ->
         isSchedulerPaused now' name c' = (false, None) /\
         isSchedulerAllowed now' name c'
           = (schedule_allowed sc && negb (unsafe_recovery_running c), None)) /\
  (name <> "all" -> schedulers c !! name = None ->
     pauseOrResumeScheduler now name t c = (c, Some ErrSchedulerNotFound)) /\
  (exists c', pauseOrResumeScheduler now "all" t c = (c', None) /\
     forall n sc, schedulers c !! n = Some sc ->
                  schedulers c' !! n = Some (pauseOrResume (now n) t sc)).
Proof.
  intros Hb. unfold pauseOrResumeScheduler. rewrite Hb. cbn [negb].
  split; [|split].
  - intros sc Hname Hsc Ht. apply String.eqb_neq in Hname. rewrite Hname. cbn [negb].
    rewrite Hsc. eexists. split; [reflexivity|]. intros now' Hnow'.
    unfold isSchedulerPaused, isSchedulerAllowed, query. cbn [bootstrapped schedulers].
    rewrite ?Hb. cbn [negb]. rewrite lookup_insert_eq.
    unfold AllowSchedule, IsPaused, pauseOrResume. cbn.
    destruct (Z.ltb_spec 0 t) as [|_]; [lia|].
    destruct (Z.ltb_spec now' 0) as [|_]; [lia|]. cbn. by rewrite andb_true_r.
  - intros Hname Hsc. apply String.eqb_neq in Hname. rewrite Hname. cbn [negb].
    by rewrite Hsc.
  - cbn. eexists. split; [reflexivity|]. intros n sc Hsc. cbn [schedulers].
    rewrite map_lookup_imap, Hsc. reflexivity.
Qed.

Lemma resume_and_pause_all_witness :
  let now := fun _ : string => 1000 in
  let name := "balance-leader-scheduler" in
  let c := fst (pauseOrResumeScheduler now "all" 30 two_schedulers) in
  (forall sc, name <> "all" -> schedulers c !! name = Some sc -> 0 <= 0 ->
     exists c', pauseOrResumeScheduler now name 0 c = (c', None) /\
       forall now', 0 <= now' ->
         isSchedulerPaused now' name c' = (false, None) /\
         isSchedulerAllowed now' name c'
           = (schedule_allowed sc && negb (unsafe_recovery_running c), None)) /\
  (name <> "all" -> schedulers c !! name = None ->
     pauseOrResumeScheduler now name 0 c = (c, Some ErrSchedulerNotFound)) /\
  (exists c', pauseOrResumeScheduler now "all" 0 c = (c', None) /\
     forall n sc, schedulers c !! n = Some sc ->
                  schedulers c' !! n = Some (pauseOrResume (now n) 0 sc)).
Proof.
  apply (resume_and_pause_all (fun _ => 1000) "balance-leader-scheduler" 0
           (fst (pauseOrResumeScheduler (fun _ => 1000) "all" 30 two_schedulers))).
  reflexivity.
Defined.

(** A pause whose end does not fit in an int64 wraps around and does not
    pause at all. *)
Example pause_overflow :
  let c' := fst (pauseOrResumeScheduler (fun _ => 1000) "balance-leader-scheduler"
                   (2 ^ 63 - 1) two_schedulers) in
  isSchedulerPaused 1001 "balance-leader-scheduler" c' = (false, None).
Proof. vm_compute. reflexivity. Qed.

End SchedulerPause.

Section StoreFilters.
Import Store Filter.

Lemma set_Reason_twice r r' f : set_Reason r (set_Reason r' f) = set_Reason r f.
Proof. reflexivity. Qed.

Lemma conditions_pure typ opt s : Forall (fun cf => pure_condition cf opt s) (conditions typ).
Proof.
  destruct typ; cbn [conditions];
    repeat first [apply List.Forall_nil | apply List.Forall_cons];
    match goal with
    | |- pure_condition ?cf _ _ =>
      unfold pure_condition, cf, condition; intros f; split;
      [match goal with |- context [if ?b then _ else _] => destruct b end;
       eexists; reflexivity
      |intros r; reflexivity]
    end.
Qed.

Lemma forallb_set_Reason funcs opt s r f :
  Forall (fun cf => pure_condition cf opt s) funcs ->
  List.forallb (fun cf => IsOK (fst (cf (set_Reason r f) opt s))) funcs
  = List.forallb (fun cf => IsOK (fst (cf f opt s))) funcs.
Proof.
  induction 1 as [|cf funcs Hcf _ IH]; cbn [List.forallb]; [reflexivity|].
  destruct (Hcf f) as [_ Hfst]. by rewrite Hfst, IH.
Qed.

Lemma firstMatch_ok funcs opt s :
  Forall (fun cf => pure_condition cf opt s) funcs ->
  forall f,
    IsOK (fst (firstMatch funcs f opt s))
      = List.forallb (fun cf => IsOK (fst (cf f opt s))) funcs /\
    (exists r, snd (firstMatch funcs f opt s) = set_Reason r f \/
               snd (firstMatch funcs f opt s) = f).
Proof.
  induction 1 as [|cf funcs Hcf Hrest IH]; intros f; cbn [firstMatch List.forallb].
  - split; [reflexivity|]. exists "". by right.
  - destruct (Hcf f) as [[r Hr] Hfst].
    destruct (cf f opt s) as [st f1] eqn:Hc. cbn [fst snd] in *. subst f1.
    destruct (IsOK st) eqn:Hok; cbn [negb andb fst snd].
    + destruct (IH (set_Reason r f)) as [H1 [r' H2]]. rewrite H1. split.
      * by apply forallb_set_Reason.
      * destruct H2 as [-> | ->]; [exists r'|exists r]; left; reflexivity.
    + split; [exact Hok|]. exists r. by left.
Qed.

Lemma guarded_ok guard typ (rest : conditionFunc) opt s :
  (forall f r, IsOK (fst (rest (set_Reason r f) opt s)) = IsOK (fst (rest f opt s))) ->
  forall f,
    IsOK (fst (guarded guard typ rest f opt s))
    = implb guard (List.forallb (fun cf => IsOK (fst (cf f opt s))) (conditions typ))
      && IsOK (fst (rest f opt s)).
Proof.
  intros Hrest f. unfold guarded, anyConditionMatch. destruct guard; cbn [implb andb]; [|reflexivity].
  destruct (firstMatch_ok (conditions typ) opt s (conditions_pure typ opt s) f)
    as [Hok [r Hf]].
  destruct (firstMatch (conditions typ) f opt s) as [st f1]. cbn [fst snd] in *.
  rewrite <- Hok. destruct (IsOK st) eqn:Hst; cbn [negb andb fst]; [|exact Hst].
  destruct Hf as [-> | ->]; [apply Hrest|reflexivity].
Qed.

Lemma guarded_pure guard typ (rest : conditionFunc) opt s :
  (forall f r, IsOK (fst (rest (set_Reason r f) opt s)) = IsOK (fst (rest f opt s))) ->
  forall f r, IsOK (fst (guarded guard typ rest (set_Reason r f) opt s))
              = IsOK (fst (guarded guard typ rest f opt s)).
Proof.
  intros Hrest f r. rewrite !guarded_ok by exact Hrest.
  rewrite Hrest. f_equal. f_equal. apply forallb_set_Reason, conditions_pure.
Qed.

Lemma IsOK_condition m reason st f :
  st <> statusOK -> IsOK (fst (condition m reason st f)) = negb m.
Proof.
  intros Hst. unfold condition, IsOK. destruct m; cbn.
  - by apply bool_decide_eq_false.
  - by apply bool_decide_eq_true.
Qed.

Ltac conditions_to_bool :=
  cbn [conditions List.forallb];
  unfold isRemoved, isDown, isRemoving, pauseLeaderTransfer, slowStoreEvicted,
    isDisconnected, isBusy, exceedRemoveLimit, exceedAddLimit, tooManySnapshots,
    tooManyPendingPeers, hasRejectLeaderProperty;
  rewrite !IsOK_condition by discriminate.

Lemma StateSource_ok f opt s : IsOK (fst (StateSource f opt s)) = source_ok f opt s.
Proof.
  unfold StateSource.
  rewrite guarded_ok by (apply guarded_pure; reflexivity).
  rewrite guarded_ok by reflexivity.
  conditions_to_bool.
  unfold source_ok, blocks, isDownB, snapshotsB, passed. cbn [fst].
  change (IsOK statusOK) with true.
  destruct (TransferLeader f), (MoveRegion f); cbn [implb andb];
    rewrite ?andb_true_r, ?andb_assoc, ?negb_involutive; reflexivity.
Qed.

Lemma StateTarget_ok f opt s : IsOK (fst (StateTarget f opt s)) = target_ok f opt s.
Proof.
  unfold StateTarget.
  rewrite guarded_ok by (do 2 apply guarded_pure; reflexivity).
  rewrite guarded_ok by (apply guarded_pure; reflexivity).
  rewrite guarded_ok by reflexivity.
  conditions_to_bool.
  unfold target_ok, blocks, isDownB, snapshotsB, pendingB, passed. cbn [fst].
  change (IsOK statusOK) with true.
  destruct (TransferLeader f), (MoveRegion f), (ScatterRegion f);
    cbn [implb andb orb negb];
    rewrite ?andb_true_r, ?andb_assoc, ?negb_involutive; reflexivity.
Qed.

(** X10: the condition table of the store state filter. [Source] accepts a
    store exactly when, for a leader transfer, the store is not a tombstone,
    not down, does not pause leader transfer and is not disconnected, and,
    for a region move, it is not busy, within its remove-peer limit and not
    sending or receiving too many snapshots; [Target] accepts exactly when,
    for a leader transfer, the store is none of tombstone, offline, down,
    pausing leader transfer, evicted as slow, disconnected, busy or rejecting
    leaders, and, for a region move, none of tombstone, offline, down,
    disconnected or busy and, unless the move is a scatter, within its
    add-peer limit, snapshot count and pending-peer count. Disconnected,
    busy, the limits, snapshots and pending peers count only when temporary
    states are not allowed. *)
Theorem StoreStateFilter_condition_table
    (f : StoreStateFilter) (opt : Options) (s : FStore) :
  IsOK (fst (StateSource f opt s)) = source_ok f opt s /\
  IsOK (fst (StateTarget f opt s)) = target_ok f opt s.
Proof. split; [apply StateSource_ok|apply StateTarget_ok]. Qed.

Ltac split_andb :=
  repeat match goal with
         | H : _ && _ = true |- _ => apply andb_prop in H as [? ?]
         end;
  repeat (apply andb_true_intro; split); try assumption; try reflexivity.

(** X11: what no flag can override. A filter that acts on leader transfers
    or region moves never accepts as target a store that is a tombstone,
    offline, or down for longer than max-store-down-time, also when it
    allows temporary states; a filter with neither flag set accepts every
    store, as source and as target. *)
Theorem StoreStateFilter_target_never
    (f : StoreStateFilter) (opt : Options) (s : FStore) :
  (TransferLeader f || MoveRegion f = true -> gone_or_down opt s = true ->
     IsOK (fst (StateTarget f opt s)) = false) /\
  (TransferLeader f || MoveRegion f = false ->
     IsOK (fst (StateTarget f opt s)) = true /\ IsOK (fst (StateSource f opt s)) = true).
Proof.
  rewrite StateTarget_ok, StateSource_ok.
  unfold target_ok, source_ok, gone_or_down.
  destruct (TransferLeader f), (MoveRegion f); cbn [orb implb andb]; split;
    try discriminate; auto; intros _ Hgone.
  all: destruct (IsRemoved (info s)), (IsRemoving (info s)), (isDownB opt s);
    try discriminate; cbn [negb andb]; rewrite ?andb_false_r; reflexivity.
Qed.

Lemma StoreStateFilter_target_never_witness :
  let f := mkStateFilter "balance-region" false true false true "" in
  (TransferLeader f || MoveRegion f = true -> gone_or_down test_options (tombstone 1) = true ->
     IsOK (fst (StateTarget f test_options (tombstone 1))) = false) /\
  (TransferLeader f || MoveRegion f = false ->
     IsOK (fst (StateTarget f test_options (tombstone 1))) = true /\
     IsOK (fst (StateSource f test_options (tombstone 1))) = true).
Proof.
  apply (StoreStateFilter_target_never
           (mkStateFilter "balance-region" false true false true "") test_options
           (tombstone 1)).
Defined.

(** X12: relaxing a filter only widens it. Whatever a filter accepts, as
    source or as target, it still accepts when temporary states are
    allowed; and what it accepts as a region-move target it also accepts
    as a scatter target. *)
Theorem StoreStateFilter_relaxations
    (f : StoreStateFilter) (opt : Options) (s : FStore) :
  (IsOK (fst (StateSource f opt s)) = true ->
     IsOK (fst (StateSource (set_AllowTemporaryStates true f) opt s)) = true) /\
  (IsOK (fst (StateTarget f opt s)) = true ->
     IsOK (fst (StateTarget (set_AllowTemporaryStates true f) opt s)) = true) /\
  (IsOK (fst (StateTarget (set_ScatterRegion false f) opt s)) = true ->
     IsOK (fst (StateTarget (set_ScatterRegion true f) opt s)) = true).
Proof.
  rewrite !StateTarget_ok, !StateSource_ok.
  unfold target_ok, source_ok, blocks.
  destruct f as [scope tl mr sr ats reason].
  cbn [TransferLeader MoveRegion ScatterRegion AllowTemporaryStates
       set_AllowTemporaryStates set_ScatterRegion].
  repeat split; intros Hok;
    destruct tl, mr, sr, ats; cbn [implb andb orb negb] in *; split_andb.
Qed.

Lemma StoreStateFilter_relaxations_witness :
  let f := mkStateFilter "balance-region" true true false false "" in
  (IsOK (fst (StateSource f test_options (healthy 1))) = true ->
     IsOK (fst (StateSource (set_AllowTemporaryStates true f) test_options (healthy 1)))
       = true) /\
  (IsOK (fst (StateTarget f test_options (healthy 1))) = true ->
     IsOK (fst (StateTarget (set_AllowTemporaryStates true f) test_options (healthy 1)))
       = true) /\
  (IsOK (fst (StateTarget (set_ScatterRegion false f) test_options (healthy 1))) = true ->
     IsOK (fst (StateTarget (set_ScatterRegion true f) test_options (healthy 1))) = true).
Proof.
  apply (StoreStateFilter_relaxations
           (mkStateFilter "balance-region" true true false false "") test_options
           (healthy 1)).
Defined.

Lemma IsOK_true st : IsOK st = true -> st = statusOK.
Proof. unfold IsOK. apply bool_decide_eq_true. Qed.

Lemma conditions_reason typ opt s :
  Forall (fun cf => reason_recorded true cf opt s) (conditions typ).
Proof.
  destruct typ; cbn [conditions];
    repeat first [apply List.Forall_nil | apply List.Forall_cons];
    match goal with
    | |- reason_recorded true ?cf _ _ =>
      unfold reason_recorded, cf, condition; intros f;
      match goal with |- context [if ?b then _ else _] => destruct b end; reflexivity
    end.
Qed.

Lemma firstMatch_reason funcs opt s :
  Forall (fun cf => reason_recorded true cf opt s) funcs ->
  funcs <> [] ->
  reason_recorded true (firstMatch funcs) opt s.
Proof.
  induction 1 as [|cf funcs Hcf Hrest IH]; intros Hne f; [done|].
  cbn [firstMatch]. specialize (Hcf f). cbv beta iota in Hcf.
  destruct (cf f opt s) as [st f1]. cbn [fst snd] in Hcf. subst f1.
  destruct (IsOK st) eqn:Hok; cbn [negb]; [|reflexivity].
  apply IsOK_true in Hok. subst st. cbn [reason_of].
  destruct funcs as [|cf' funcs]; [reflexivity|].
  rewrite (IH ltac:(discriminate) (set_Reason "" f)). reflexivity.
Qed.

Lemma guarded_reason guard ran typ (rest : conditionFunc) opt s :
  reason_recorded ran rest opt s ->
  reason_recorded (guard || ran) (guarded guard typ rest) opt s.
Proof.
  intros Hrest f. unfold guarded, anyConditionMatch.
  destruct guard; cbn [orb]; [|apply Hrest].
  assert (Hne : conditions typ <> []) by (destruct typ; discriminate).
  pose proof (firstMatch_reason _ opt s (conditions_reason typ opt s) Hne f) as Hfm.
  cbv beta iota in Hfm.
  destruct (firstMatch (conditions typ) f opt s) as [st f1]. cbn [fst snd] in Hfm. subst f1.
  destruct (IsOK st) eqn:Hok; cbn [negb]; [|reflexivity].
  apply IsOK_true in Hok. subst st. cbn [reason_of].
  specialize (Hrest (set_Reason "" f)). destruct ran.
  - rewrite Hrest. reflexivity.
  - rewrite Hrest. reflexivity.
Qed.

(** X13: the reason a state filter reports is that of its last call. After
    [Source] or [Target] ran on a filter that acts on leader transfers or
    region moves, the filter has its flags unchanged and carries the reason
    of the status just returned, empty when the store was accepted, so that
    its type reads "store-state-<reason>-filter" for that reason. *)
Theorem StoreStateFilter_reason (f : StoreStateFilter) (opt : Options) (s : FStore) :
  TransferLeader f || MoveRegion f = true ->
  snd (StateSource f opt s) = set_Reason (reason_of (fst (StateSource f opt s))) f /\
  snd (StateTarget f opt s) = set_Reason (reason_of (fst (StateTarget f opt s))) f /\
  StateFilterType (snd (StateTarget f opt s))
    = ("store-state-" ++ reason_of (fst (StateTarget f opt s)) ++ "-filter")%string.
Proof.
  intros Hflags.
  assert (Hpassed : reason_recorded false passed opt s) by (intros f'; reflexivity).
  pose proof (guarded_reason (TransferLeader f) _ leaderSource _ opt s
                (guarded_reason (MoveRegion f) _ regionSource _ opt s Hpassed) f) as Hsrc.
  pose proof (guarded_reason (TransferLeader f) _ leaderTarget _ opt s
                (guarded_reason (MoveRegion f && ScatterRegion f) _ scatterRegionTarget _ opt s
                   (guarded_reason (MoveRegion f && negb (ScatterRegion f)) _ regionTarget
                      _ opt s Hpassed)) f) as Htgt.
  unfold StateSource, StateTarget.
  rewrite orb_false_r in Hsrc, Htgt. rewrite Hflags in Hsrc.
  assert (Hflags' : TransferLeader f
                    || (MoveRegion f && ScatterRegion f
                        || MoveRegion f && negb (ScatterRegion f)) = true).
  { destruct (TransferLeader f), (MoveRegion f), (ScatterRegion f); done. }
  rewrite Hflags' in Htgt.
  split; [exact Hsrc|]. split; [exact Htgt|].
  unfold StateFilterType. rewrite Htgt. reflexivity.
Qed.

Lemma StoreStateFilter_reason_witness :
  let f := mkStateFilter "balance-region" false true false false "old" in
  snd (StateSource f test_options (tombstone 1))
    = set_Reason (reason_of (fst (StateSource f test_options (tombstone 1)))) f /\
  snd (StateTarget f test_options (tombstone 1))
    = set_Reason (reason_of (fst (StateTarget f test_options (tombstone 1)))) f /\
  StateFilterType (snd (StateTarget f test_options (tombstone 1)))
    = ("store-state-" ++ reason_of (fst (StateTarget f test_options (tombstone 1)))
         ++ "-filter")%string.
Proof.
  apply (StoreStateFilter_reason
           (mkStateFilter "balance-region" false true false false "old") test_options
           (tombstone 1)).
  reflexivity.
Defined.

(** The filter on the examples: a busy store is refused as a region-move
    target, unless temporary states are allowed. *)
Example StoreStateFilter_busy :
  fst (StateTarget (mkStateFilter "balance-region" false true false false "")
         test_options (busy_store 1)) = statusStoreBusy /\
  fst (StateTarget (mkStateFilter "balance-region" false true false true "")
         test_options (busy_store 1)) = statusOK /\
  StateFilterType (snd (StateTarget (mkStateFilter "balance-region" false true false false "")
                          test_options (busy_store 1))) = "store-state-busy-filter".
Proof. vm_compute. repeat split; reflexivity. Qed.

Lemma SourceAll_forallb opt s filters :
  SourceAll opt s filters = List.forallb (fun flt => IsOK (Source flt opt s)) filters.
Proof.
  induction filters as [|flt rest IH]; cbn; [reflexivity|].
  rewrite IH. by destruct (IsOK (Source flt opt s)).
Qed.

Lemma TargetAll_forallb opt s filters :
  TargetAll opt s filters = List.forallb (fun flt => IsOK (Target flt opt s)) filters.
Proof.
  induction filters as [|flt rest IH]; cbn; [reflexivity|].
  rewrite IH. by destruct (IsOK (Target flt opt s)).
Qed.

Lemma filter_andb {A} (p q : A -> bool) (l : list A) :
  List.filter (fun x => p x && q x) l = List.filter q (List.filter p l).
Proof.
  induction l as [|x l IH]; cbn; [reflexivity|].
  destruct (p x); cbn; [destruct (q x)|]; by rewrite IH.
Qed.

(** X14: selecting stores with filters. [SelectSourceStores] and
    [SelectTargetStores] keep, in their order, exactly the stores that the
    helper [Source], resp. [Target], lets pass all filters; selecting with
    two lists of filters at once is selecting with the first and then with
    the second; and with no filter every store is kept. *)
Theorem Select_stores_spec
    (stores : list FStore) (filters filters' : list Filter) (opt : Options) :
  SelectSourceStores stores filters opt
    = List.filter (fun s => SourceAll opt s filters) stores /\
  SelectTargetStores stores filters opt
    = List.filter (fun s => TargetAll opt s filters) stores /\
  SelectSourceStores stores (filters ++ filters') opt
    = SelectSourceStores (SelectSourceStores stores filters opt) filters' opt /\
  SelectTargetStores stores (filters ++ filters') opt
    = SelectTargetStores (SelectTargetStores stores filters opt) filters' opt /\
  SelectSourceStores stores [] opt = stores /\
  SelectTargetStores stores [] opt = stores /\
  sublist (SelectSourceStores stores filters opt) stores /\
  sublist (SelectTargetStores stores filters opt) stores.
Proof.
  unfold SelectSourceStores, SelectTargetStores, filterStoresBy.
  assert (Hall : forall l : list FStore, List.filter (fun _ => true) l = l).
  { induction l as [|x l IH]; cbn; congruence. }
  assert (Hsub : forall (p : FStore -> bool) l, sublist (List.filter p l) l).
  { intros p. induction l as [|x l IH]; cbn; [constructor|].
    destruct (p x); by constructor. }
  repeat split; auto.
  - apply List.filter_ext. intros s. by rewrite SourceAll_forallb.
  - apply List.filter_ext. intros s. by rewrite TargetAll_forallb.
  - rewrite <- filter_andb. apply List.filter_ext. intros s. apply List.forallb_app.
  - rewrite <- filter_andb. apply List.filter_ext. intros s. apply List.forallb_app.
Qed.

Lemma levelIdx_bound level labels k :
  levelIdx level labels k = 0%nat \/
  (k <= levelIdx level labels k < k + List.length labels)%nat.
Proof.
  revert k. induction labels as [|l rest IH]; intros k; cbn; [by left|].
  destruct (String.eqb l level); [right; lia|].
  destruct (IH (S k)) as [H0|H1]; [by left|right; lia].
Qed.

Lemma mapM_lookup_seq {A B} (h : A -> B) (labels : list A) n k :
  (k + n <= List.length labels)%nat ->
  mapM (fun i => h <$> labels !! i) (seq k n) = Some (h <$> take n (drop k labels)).
Proof.
  revert k. induction n as [|n IH]; intros k Hle; cbn [seq mapM]; [reflexivity|].
  destruct (labels !! k) as [l|] eqn:Hl.
  - rewrite (drop_S _ _ _ Hl). cbn. rewrite IH by lia. reflexivity.
  - apply lookup_ge_None in Hl. lia.
Qed.

Lemma mapM_Some_fmap {A B} (g : A -> option B) (h : A -> B) (l : list A) :
  (forall x, x ∈ l -> g x = Some (h x)) -> mapM g l = Some (h <$> l).
Proof.
  induction l as [|x l IH]; intros Hg; cbn [mapM]; [reflexivity|].
  rewrite (Hg x) by (apply elem_of_cons; by left). cbn.
  rewrite IH; [reflexivity|]. intros y Hy. apply Hg, elem_of_cons. by right.
Qed.

Lemma matchConstraints_spec labels store rs ls : forall k m,
  take (List.length ls) (drop k labels) = ls ->
  matchConstraints labels store k (label_value rs <$> ls) m
  = Some (same_location ls store rs && m).
Proof.
  induction ls as [|l ls IH]; intros k m Hls; cbn [fmap list_fmap matchConstraints
    same_location List.forallb]; [reflexivity|].
  destruct (labels !! k) as [l'|] eqn:Hl.
  - rewrite (drop_S _ _ _ Hl) in Hls. cbn in Hls. inversion Hls as [[Hhead Htail]].
    rewrite Htail. change (list_fmap _ _ (label_value rs) ls) with (label_value rs <$> ls).
    rewrite IH by (by rewrite Htail).
    unfold same_location. f_equal.
    destruct (String.eqb _ _), (List.forallb _ ls), m; reflexivity.
  - apply lookup_ge_None in Hl. rewrite drop_ge in Hls by done. done.
Qed.

Lemma isolationLoop_spec labels store ls regionStores :
  ls <> [] ->
  take (List.length ls) labels = ls ->
  isolationLoop labels store ((fun rs => label_value rs <$> ls) <$> regionStores)
  = Some (if List.existsb (same_location ls store) regionStores
          then statusStoreIsolation else statusOK).
Proof.
  intros Hne Hls. induction regionStores as [|rs rest IH];
    cbn [fmap list_fmap isolationLoop List.existsb]; [reflexivity|].
  change (list_fmap _ _ (label_value rs) ls) with (label_value rs <$> ls).
  rewrite (matchConstraints_spec labels store rs ls 0 true) by (by rewrite drop_0).
  rewrite andb_true_r, length_fmap.
  destruct ls as [|l ls']; [done|]. cbn [List.length Nat.ltb Nat.leb andb].
  destruct (same_location (l :: ls') store rs); cbn [orb]; [reflexivity|].
  exact IH.
Qed.

Lemma same_location_refl ls s : same_location ls s s = true.
Proof.
  unfold same_location. apply List.forallb_forall. intros l _. apply String.eqb_refl.
Qed.

(** X15: the isolation filter. With at least one location label, the
    filter is built from the values the region stores have for the labels
    down to the isolation level (the first label when the level is not a
    location label), and its [Target] never indexes out of range: it
    refuses every store when the region has no store, refuses a store that
    has the same value as some region store for each of these labels, and
    accepts any other store. In particular it refuses every store of the
    region. *)
Theorem isolationFilter_spec
    (isolationLevel : string) (labels : list string) (regionStores : list FStore) :
  labels <> [] ->
  let ls := take (S (levelIdx isolationLevel labels 0)) labels in
  exists f,
    NewIsolationFilter isolationLevel labels regionStores = Some f /\
    (forall store,
       IsolationTarget f store
       = Some (if (List.length regionStores =? 0)%nat
                  || List.existsb (same_location ls store) regionStores
               then statusStoreIsolation else statusOK)) /\
    (forall rs, rs ∈ regionStores -> IsolationTarget f rs = Some statusStoreIsolation).
Proof.
  intros Hlabels ls.
  assert (Hidx : (S (levelIdx isolationLevel labels 0) <= List.length labels)%nat).
  { destruct labels as [|l rest]; [done|].
    destruct (levelIdx_bound isolationLevel (l :: rest) 0) as [->|H]; cbn in *; lia. }
  assert (Hlen : List.length ls = S (levelIdx isolationLevel labels 0)).
  { unfold ls. rewrite length_take. lia. }
  assert (Hne : ls <> []) by (intros Habs; rewrite Habs in Hlen; discriminate).
  assert (Htake : take (List.length ls) labels = ls) by (by rewrite Hlen).
  assert (Hset : mapM (constraintList labels (levelIdx isolationLevel labels 0)) regionStores
                 = Some ((fun rs => label_value rs <$> ls) <$> regionStores)).
  { apply mapM_Some_fmap. intros rs _. unfold constraintList.
    rewrite mapM_lookup_seq by lia. by rewrite drop_0. }
  assert (Htarget : forall store,
            IsolationTarget
              (mkIsolation labels ((fun rs => label_value rs <$> ls) <$> regionStores)) store
            = Some (if (List.length regionStores =? 0)%nat
                       || List.existsb (same_location ls store) regionStores
                    then statusStoreIsolation else statusOK)).
  { intros store. unfold IsolationTarget. cbn [constraintSet locationLabels].
    rewrite length_fmap.
    destruct (List.length regionStores =? 0)%nat; cbn [orb]; [reflexivity|].
    by apply isolationLoop_spec. }
  eexists. unfold NewIsolationFilter. rewrite Hset. cbn [fmap option_fmap option_map].
  split; [reflexivity|]. split; [exact Htarget|].
  intros rs Hin. rewrite Htarget.
  assert (Hex : List.existsb (same_location ls rs) regionStores = true).
  { apply List.existsb_exists. exists rs. split; [by apply list_elem_of_In|].
    apply same_location_refl. }
  rewrite Hex, orb_true_r. reflexivity.
Qed.

Lemma isolationFilter_spec_witness :
  let regionStores := [located 1 "z1" "h1"; located 2 "z2" "h2"] in
  let ls := take (S (levelIdx "zone" ["zone"; "host"] 0)) ["zone"; "host"] in
  exists f,
    NewIsolationFilter "zone" ["zone"; "host"] regionStores = Some f /\
    (forall store,
       IsolationTarget f store
       = Some (if (List.length regionStores =? 0)%nat
                  || List.existsb (same_location ls store) regionStores
               then statusStoreIsolation else statusOK)) /\
    (forall rs, rs ∈ regionStores -> IsolationTarget f rs = Some statusStoreIsolation).
Proof.
  apply (isolationFilter_spec "zone" ["zone"; "host"]
           [located 1 "z1" "h1"; located 2 "z2" "h2"]).
  discriminate.
Defined.

(** On the example: with isolation level zone, a store of a zone the region
    is in is refused, a store of a new zone is accepted; without location
    labels, building the filter for a region with stores indexes out of
    range. *)
Example isolationFilter_example :
  let regionStores := [located 1 "z1" "h1"; located 2 "z2" "h2"] in
  (f ← NewIsolationFilter "zone" ["zone"; "host"] regionStores;
   IsolationTarget f (located 3 "z1" "h3")) = Some statusStoreIsolation /\
  (f ← NewIsolationFilter "zone" ["zone"; "host"] regionStores;
   IsolationTarget f (located 4 "z3" "h1")) = Some statusOK /\
  NewIsolationFilter "zone" [] regionStores = None.
Proof. vm_compute. repeat split; reflexivity. Qed.

End StoreFilters.

Section RegionOptions.
Import Region RegionOption.

Lemma uint64_dec_inc n : (n < 2 ^ 64)%N -> uint64_dec (uint64_inc n) = n.
Proof.
  intros Hn. unfold uint64_dec, uint64_inc.
  destruct (N.eq_dec n (2 ^ 64 - 1)%N) as [->|Hne]; [reflexivity|].
  rewrite (N.mod_small (n + 1)) by lia.
  replace (n + 1 + 2 ^ 64 - 1)%N with (n + 1 * 2 ^ 64)%N by lia.
  rewrite N.Div0.mod_add. apply N.mod_small. lia.
Qed.

Lemma uint64_inc_dec n : (n < 2 ^ 64)%N -> uint64_inc (uint64_dec n) = n.
Proof.
  intros Hn. unfold uint64_dec, uint64_inc.
  destruct (N.eq_dec n 0%N) as [->|Hne]; [reflexivity|].
  replace (n + 2 ^ 64 - 1)%N with ((n - 1) + 1 * 2 ^ 64)%N by lia.
  rewrite N.Div0.mod_add. rewrite (N.mod_small (n - 1)) by lia.
  replace (n - 1 + 1)%N with n by lia. apply N.mod_small. lia.
Qed.

Lemma with_epoch_same r : with_epoch (epoch r) r = r.
Proof. by destruct r. Qed.

(** X16: the epoch counters of the region options. On a region that has an
    epoch, increasing and then decreasing the version (or the config
    version), or the other way round, gives the region back, the counters
    wrapping around as uint64 at both ends; increasing the version and the
    config version commute, also from a nil epoch. On a region without
    epoch, decreasing does nothing while increasing creates the epoch, so
    that only the pair of counters read through the getters comes back. *)
Theorem epoch_counter_round_trips (r : RegionInfo) :
  epoch_in_range r ->
  (epoch r <> None ->
     WithDecVersion (WithIncVersion r) = r /\ WithIncVersion (WithDecVersion r) = r /\
     WithDecConfVer (WithIncConfVer r) = r /\ WithIncConfVer (WithDecConfVer r) = r) /\
  WithIncVersion (WithIncConfVer r) = WithIncConfVer (WithIncVersion r) /\
  epoch_pair (WithDecVersion (WithIncVersion r)) = epoch_pair r /\
  epoch_pair (WithDecConfVer (WithIncConfVer r)) = epoch_pair r /\
  (epoch r = None ->
     WithDecVersion r = r /\ WithDecConfVer r = r /\
     epoch (WithIncVersion r) = Some (mkEpoch 0 1) /\
     epoch (WithIncConfVer r) = Some (mkEpoch 1 0)).
Proof.
  unfold epoch_in_range, WithDecVersion, WithIncVersion, WithDecConfVer, WithIncConfVer,
    epoch_pair.
  destruct r as [i sk ek [[cv v]|] ps l pp dp sz b]; cbn.
  - intros [Hcv Hv]. cbn in Hcv, Hv.
    rewrite !uint64_dec_inc, !uint64_inc_dec by assumption.
    repeat split; auto; intros; discriminate.
  - intros _. split; [intros Habs; contradiction|]. repeat split; auto.
Qed.

Lemma epoch_counter_round_trips_witness :
  let r := Scenario.region1 in
  (epoch r <> None ->
     WithDecVersion (WithIncVersion r) = r /\ WithIncVersion (WithDecVersion r) = r /\
     WithDecConfVer (WithIncConfVer r) = r /\ WithIncConfVer (WithDecConfVer r) = r) /\
  WithIncVersion (WithIncConfVer r) = WithIncConfVer (WithIncVersion r) /\
  epoch_pair (WithDecVersion (WithIncVersion r)) = epoch_pair r /\
  epoch_pair (WithDecConfVer (WithIncConfVer r)) = epoch_pair r /\
  (epoch r = None ->
     WithDecVersion r = r /\ WithDecConfVer r = r /\
     epoch (WithIncVersion r) = Some (mkEpoch 0 1) /\
     epoch (WithIncConfVer r) = Some (mkEpoch 1 0)).
Proof.
  apply (epoch_counter_round_trips Scenario.region1).
  vm_compute. split; reflexivity.
Defined.

Lemma SetPeers_same r : SetPeers (peers r) r = r.
Proof. by destruct r. Qed.

Lemma SetPeers_twice ps ps' r : SetPeers ps (SetPeers ps' r) = SetPeers ps r.
Proof. reflexivity. Qed.

Lemma filter_idem {A} (f : A -> bool) (l : list A) :
  List.filter f (List.filter f l) = List.filter f l.
Proof.
  induction l as [|x l IH]; cbn; [reflexivity|].
  destruct (f x) eqn:Hf; cbn; rewrite ?Hf, IH; reflexivity.
Qed.

Lemma filter_all {A} (f : A -> bool) (l : list A) :
  (forall x, List.In x l -> f x = true) -> List.filter f l = l.
Proof.
  induction l as [|x l IH]; cbn; intros H; [reflexivity|].
  rewrite (H x) by auto. f_equal. apply IH. auto.
Qed.

(** X17: adding, removing and moving peers. Removing the peers of a store
    leaves no peer on that store and is idempotent; adding a peer on a
    store that had none and removing the peers of that store gives the
    region back; replacing a store by another keeps the number and the ids
    of the peers and leaves no peer on the old store; and replacing a store
    and then removing the new one is removing both. *)
Theorem peer_options_compose (r : RegionInfo) (p : Peer) (storeID newStoreID : N) :
  storeID ∉ GetStoreIDs (WithRemoveStorePeer storeID r) /\
  WithRemoveStorePeer storeID (WithRemoveStorePeer storeID r)
    = WithRemoveStorePeer storeID r /\
  (store_id p ∉ GetStoreIDs r -> WithRemoveStorePeer (store_id p) (WithAddPeer p r) = r) /\
  List.map peer_id (peers (WithReplacePeerStore storeID newStoreID r))
    = List.map peer_id (peers r) /\
  (storeID <> newStoreID ->
     storeID ∉ GetStoreIDs (WithReplacePeerStore storeID newStoreID r)) /\
  WithRemoveStorePeer newStoreID (WithReplacePeerStore storeID newStoreID r)
    = WithRemoveStorePeer newStoreID (WithRemoveStorePeer storeID r).
Proof.
  unfold GetStoreIDs, WithRemoveStorePeer, WithAddPeer, WithReplacePeerStore.
  rewrite !SetPeers_twice. cbn [peers SetPeers].
  split; [|split; [|split; [|split; [|split]]]].
  - intros Hin. apply list_elem_of_In, List.in_map_iff in Hin as (q & Hq & Hin).
    apply List.filter_In in Hin as [_ Hne]. rewrite Hq, N.eqb_refl in Hne. discriminate.
  - by rewrite filter_idem.
  - intros Hnot. rewrite List.filter_app. cbn. rewrite N.eqb_refl. cbn.
    rewrite app_nil_r, filter_all; [apply SetPeers_same|].
    intros q Hq. apply negb_true_iff, N.eqb_neq. intros Heq. apply Hnot.
    apply list_elem_of_In, List.in_map_iff. eauto.
  - rewrite List.map_map. apply List.map_ext. intros q. by destruct (N.eqb _ _).
  - intros Hne Hin. apply list_elem_of_In, List.in_map_iff in Hin as (q & Hq & Hin).
    apply List.in_map_iff in Hin as (q0 & <- & _).
    destruct (N.eqb_spec (store_id q0) storeID) as [Heq|Hneq]; cbn in Hq; congruence.
  - f_equal. induction (peers r) as [|q l IH]; cbn; [reflexivity|].
    destruct (N.eqb_spec (store_id q) storeID) as [Heq|Hneq]; cbn.
    + rewrite N.eqb_refl. cbn. exact IH.
    + destruct (N.eqb (store_id q) newStoreID); cbn; by rewrite IH.
Qed.

Lemma peer_options_compose_witness :
  let r := Scenario.region1 in
  let p := mkPeer 14 4 Voter in
  4%N ∉ GetStoreIDs (WithRemoveStorePeer 4 r) /\
  WithRemoveStorePeer 4 (WithRemoveStorePeer 4 r) = WithRemoveStorePeer 4 r /\
  (store_id p ∉ GetStoreIDs r -> WithRemoveStorePeer (store_id p) (WithAddPeer p r) = r) /\
  List.map peer_id (peers (WithReplacePeerStore 4 5 r)) = List.map peer_id (peers r) /\
  (4%N <> 5%N -> 4%N ∉ GetStoreIDs (WithReplacePeerStore 4 5 r)) /\
  WithRemoveStorePeer 5 (WithReplacePeerStore 4 5 r)
    = WithRemoveStorePeer 5 (WithRemoveStorePeer 4 r).
Proof.
  apply (peer_options_compose Scenario.region1 (mkPeer 14 4 Voter) 4 5).
Defined.

(** X18: renumbering the peers. [WithNewPeerIDs] leaves the region as it is
    when the number of ids is not the number of peers; otherwise the peers
    get the ids in order and keep their stores and roles, while the leader
    recorded in the region is not renumbered. Renumbering back with the
    original ids always gives the original region. *)
Theorem WithNewPeerIDs_spec (peerIDs : list N) (r : RegionInfo) :
  (List.length peerIDs <> List.length (peers r) -> WithNewPeerIDs peerIDs r = r) /\
  (List.length peerIDs = List.length (peers r) ->
     List.map peer_id (peers (WithNewPeerIDs peerIDs r)) = peerIDs /\
     GetStoreIDs (WithNewPeerIDs peerIDs r) = GetStoreIDs r /\
     List.map role (peers (WithNewPeerIDs peerIDs r)) = List.map role (peers r)) /\
  leader (WithNewPeerIDs peerIDs r) = leader r /\
  WithNewPeerIDs (List.map peer_id (peers r)) (WithNewPeerIDs peerIDs r) = r.
Proof.
  unfold WithNewPeerIDs, GetStoreIDs.
  assert (Hzip : forall (ps : list Peer) (ids : list N),
            List.length ids = List.length ps ->
            List.map peer_id (zip_with (fun p i => mkPeer i (store_id p) (role p)) ps ids) = ids /\
            List.map store_id (zip_with (fun p i => mkPeer i (store_id p) (role p)) ps ids)
              = List.map store_id ps /\
            List.map role (zip_with (fun p i => mkPeer i (store_id p) (role p)) ps ids)
              = List.map role ps /\
            zip_with (fun p i => mkPeer i (store_id p) (role p))
                     (zip_with (fun p i => mkPeer i (store_id p) (role p)) ps ids)
                     (List.map peer_id ps) = ps).
  { induction ps as [|q ps IH]; intros [|i ids] Hlen; try discriminate; cbn; [done|].
    destruct (IH ids) as (H1 & H2 & H3 & H4); [by inversion Hlen|].
    rewrite H1, H2, H3, H4. destruct q. done. }
  destruct (Nat.eqb_spec (List.length peerIDs) (List.length (peers r))) as [Heq|Hne];
    cbn [negb].
  - destruct (Hzip (peers r) peerIDs Heq) as (H1 & H2 & H3 & H4).
    cbn [peers SetPeers leader]. rewrite length_zip_with, List.length_map, Heq, Nat.min_id.
    rewrite Nat.eqb_refl. cbn [negb].
    repeat split; auto; try (intros; contradiction).
    rewrite SetPeers_twice, H4. apply SetPeers_same.
  - rewrite List.length_map, Nat.eqb_refl. cbn [negb].
    repeat split; auto; try (intros; contradiction).
    assert (Hself : forall ps : list Peer,
              zip_with (fun p i => mkPeer i (store_id p) (role p)) ps (List.map peer_id ps)
              = ps).
    { induction ps as [|q l IH]; cbn; [reflexivity|]. rewrite IH. by destruct q. }
    rewrite Hself. apply SetPeers_same.
Qed.

Lemma WithNewPeerIDs_spec_witness :
  let r := Scenario.region1 in
  let peerIDs := [31%N; 32%N; 33%N] in
  (List.length peerIDs <> List.length (peers r) -> WithNewPeerIDs peerIDs r = r) /\
  (List.length peerIDs = List.length (peers r) ->
     List.map peer_id (peers (WithNewPeerIDs peerIDs r)) = peerIDs /\
     GetStoreIDs (WithNewPeerIDs peerIDs r) = GetStoreIDs r /\
     List.map role (peers (WithNewPeerIDs peerIDs r)) = List.map role (peers r)) /\
  leader (WithNewPeerIDs peerIDs r) = leader r /\
  WithNewPeerIDs (List.map peer_id (peers r)) (WithNewPeerIDs peerIDs r) = r.
Proof.
  apply (WithNewPeerIDs_spec [31%N; 32%N; 33%N] Scenario.region1).
Defined.

End RegionOptions.

Section LabelFormats.
Import Config.

Lemma nullable_lang r : nullable r = true <-> lang r [].
Proof.
  split.
  - induction r as [|p|r1 IH1 r2 IH2|r1 IH1 r2 IH2|r IH]; cbn; intros Hn.
    + constructor.
    + discriminate.
    + apply andb_prop in Hn as [H1 H2]. apply (lang_Seq r1 r2 [] []); auto.
    + apply orb_prop in Hn as [H1|H2]; [apply lang_Alt_l|apply lang_Alt_r]; auto.
    + constructor.
  - intros Hl. remember [] as s eqn:Hs. induction Hl; cbn; auto.
    + discriminate.
    + apply app_eq_nil in Hs as [-> ->]. rewrite IHHl1, IHHl2; auto.
    + rewrite IHHl; auto.
    + rewrite IHHl; auto. apply orb_true_r.
Qed.

Lemma lang_Empty s : ~ lang (Class (fun _ => false)) s.
Proof. intros Hl. inversion Hl. discriminate. Qed.

Lemma deriv_lang_1 r s' : lang r s' -> forall c s, s' = c :: s -> lang (deriv c r) s.
Proof.
  induction 1 as [|p c' Hp|r1 r2 s1 s2 H1 IH1 H2 IH2|r1 r2 s0 H1 IH1|r1 r2 s0 H2 IH2|r
                 |r s1 s2 H1 IH1 H2 IH2]; intros c s Heq; cbn.
  - discriminate.
  - inversion Heq; subst. rewrite Hp. constructor.
  - destruct s1 as [|c1 s1]; cbn in Heq.
    + apply nullable_lang in H1. rewrite H1. apply lang_Alt_r. auto.
    + inversion Heq; subst.
      assert (Hs : lang (Seq (deriv c r1) r2) (s1 ++ s2))
        by (apply lang_Seq; auto).
      destruct (nullable r1); [by apply lang_Alt_l|done].
  - apply lang_Alt_l. auto.
  - apply lang_Alt_r. auto.
  - discriminate.
  - destruct s1 as [|c1 s1]; cbn in Heq.
    + apply (IH2 c s Heq).
    + inversion Heq; subst. apply lang_Seq; auto.
Qed.

Lemma deriv_lang_2 r : forall c s, lang (deriv c r) s -> lang r (c :: s).
Proof.
  induction r as [|p|r1 IH1 r2 IH2|r1 IH1 r2 IH2|r IH]; intros c s; cbn.
  - intros Hl. by apply lang_Empty in Hl.
  - destruct (p c) eqn:Hp; intros Hl; [|by apply lang_Empty in Hl].
    inversion Hl; subst. by constructor.
  - assert (Hseq : lang (Seq (deriv c r1) r2) s -> lang (Seq r1 r2) (c :: s)).
    { intros Hl. inversion Hl; subst.
      change (c :: s1 ++ s2) with ((c :: s1) ++ s2). apply lang_Seq; auto. }
    destruct (nullable r1) eqn:Hn; [|exact Hseq].
    intros Hl. inversion Hl; subst; [auto|].
    apply (lang_Seq r1 r2 [] (c :: s)); [by apply nullable_lang|auto].
  - intros Hl. inversion Hl; subst; [apply lang_Alt_l|apply lang_Alt_r]; auto.
  - intros Hl. inversion Hl; subst.
    change (c :: s1 ++ s2) with ((c :: s1) ++ s2). apply lang_Star_cons; auto.
Qed.

Lemma fold_deriv_lang s : forall r,
  nullable (List.fold_left (fun r c => deriv c r) s r) = true <-> lang r s.
Proof.
  induction s as [|c s IH]; intros r; cbn [List.fold_left].
  - apply nullable_lang.
  - rewrite IH. split; [apply deriv_lang_2|intros Hl; by apply (deriv_lang_1 r (c :: s))].
Qed.

Lemma MatchString_lang format s :
  MatchString format s = true <-> lang format (list_ascii_of_string s).
Proof. apply fold_deriv_lang. Qed.

Lemma lang_Star_Class p s : lang (Star (Class p)) s <-> List.forallb p s = true.
Proof.
  split.
  - intros Hl. remember (Star (Class p)) as r eqn:Hr.
    induction Hl as [| | | | | |r0 s1 s2 H1 _ H2 IH2]; try discriminate; [reflexivity|].
    inversion Hr; subst. inversion H1; subst. cbn. rewrite IH2 by reflexivity.
    by rewrite andb_true_r.
  - induction s as [|c s IH]; cbn; intros Hall; [constructor|].
    apply andb_prop in Hall as [Hc Hs].
    apply (lang_Star_cons (Class p) [c] s); [by constructor|auto].
Qed.

Lemma lang_Opt r s : lang (Opt r) s <-> lang r s \/ s = [].
Proof.
  unfold Opt. split.
  - intros Hl. inversion Hl as [| | |? ? ? H|? ? ? H| |]; subst; [by left|].
    inversion H. by right.
  - intros [Hl| ->]; [by apply lang_Alt_l|apply lang_Alt_r; constructor].
Qed.

Lemma alnum_label_char c : alnum c = true -> label_char c = true.
Proof. intros H. unfold label_char. rewrite H. by rewrite orb_true_r. Qed.

Lemma last_snoc {A} (l : list A) (x d : A) : List.last (l ++ [x]) d = x.
Proof. apply List.last_last. Qed.

Lemma forallb_snoc {A} (p : A -> bool) l x :
  List.forallb p (l ++ [x]) = List.forallb p l && p x.
Proof. rewrite List.forallb_app. cbn. by rewrite andb_true_r. Qed.

Lemma lang_name s :
  lang (Seq (Class alnum) (Opt (Seq (Star (Class label_char)) (Class alnum)))) s
  <-> valid_name s = true.
Proof.
  split.
  - intros Hl. inversion Hl as [| |? ? s1 s2 H1 H2| | | |]; subst.
    inversion H1 as [|? c Hc| | | | |]; subst. cbn [app valid_name].
    apply lang_Opt in H2 as [H2| ->].
    + inversion H2 as [| |? ? m e Hm He| | | |]; subst.
      inversion He as [|? d Hd| | | | |]; subst.
      apply lang_Star_Class in Hm.
      change (c :: m ++ [d]) with ((c :: m) ++ [d]).
      rewrite forallb_snoc, last_snoc. cbn [List.forallb].
      rewrite Hc, Hd, Hm, (alnum_label_char c Hc), (alnum_label_char d Hd). reflexivity.
    + cbn. rewrite Hc, (alnum_label_char c Hc). reflexivity.
  - destruct s as [|c rest]; cbn [valid_name]; [discriminate|].
    intros Hv. apply andb_prop in Hv as [Hv Hlast]. apply andb_prop in Hv as [Hc Hall].
    change (c :: rest) with ([c] ++ rest). apply lang_Seq; [by constructor|].
    apply lang_Opt. induction rest as [|x l _] using rev_ind; [by right|].
    left. change (c :: l ++ [x]) with ((c :: l) ++ [x]) in *.
    rewrite last_snoc in Hlast. rewrite forallb_snoc in Hall.
    apply andb_prop in Hall as [Hall _]. cbn in Hall. apply andb_prop in Hall as [_ Hall].
    apply lang_Seq; [by apply lang_Star_Class|by constructor].
Qed.

Lemma alnum_not_dollar c : alnum c = true -> is_char "$" c = false.
Proof.
  intros Ha. destruct (is_char "$" c) eqn:Hd; [|reflexivity].
  apply Ascii.eqb_eq in Hd. subst c. discriminate Ha.
Qed.

Lemma lang_keyFormat s : lang keyFormat s <-> valid_key s = true.
Proof.
  unfold keyFormat. split.
  - intros Hl. inversion Hl as [| |? ? s1 s2 H1 H2| | | |]; subst.
    apply lang_name in H2. apply lang_Opt in H1 as [H1| ->].
    + inversion H1 as [|? c Hc| | | | |]; subst. cbn [app valid_key]. by rewrite Hc.
    + cbn [app]. destruct s2 as [|c rest]; [discriminate|].
      cbn [valid_key]. rewrite alnum_not_dollar; [exact H2|].
      cbn [valid_name] in H2. apply andb_prop in H2 as [H2 _].
      by apply andb_prop in H2 as [H2 _].
  - destruct s as [|c rest]; cbn [valid_key]; [discriminate|].
    destruct (is_char "$" c) eqn:Hc; intros Hv; apply lang_name in Hv.
    + change (c :: rest) with ([c] ++ rest). apply lang_Seq; [|exact Hv].
      apply lang_Opt. left. by constructor.
    + change (c :: rest) with ([] ++ c :: rest). apply lang_Seq; [|exact Hv].
      apply lang_Opt. by right.
Qed.

Lemma validateFormat_key s :
  validateFormat s true = None <-> valid_key (list_ascii_of_string s) = true.
Proof.
  unfold validateFormat. rewrite <- lang_keyFormat, <- MatchString_lang.
  destruct (MatchString keyFormat s); split; congruence.
Qed.

Lemma validateFormat_value s :
  validateFormat s false = None <-> valid_value (list_ascii_of_string s) = true.
Proof.
  unfold validateFormat, valid_value.
  rewrite <- lang_Star_Class, <- (MatchString_lang valueFormat).
  destruct (MatchString valueFormat s); split; congruence.
Qed.

(** X19: which labels are legal. [ValidateLabels] accepts a list of labels
    exactly when every value consists of alphanumeric characters, '-', '_',
    '.' and '/' only (the empty value included) and every key, after an
    optional leading '$', is not empty, consists of these characters and
    starts and ends with an alphanumeric one. When it refuses, the error
    names a key or a value of the list that breaks its rule. *)
Theorem ValidateLabels_spec (labels : list StoreLabel) :
  (ValidateLabels labels = None <->
   Forall (fun l => valid_key (list_ascii_of_string (Key l)) = true /\
                    valid_value (list_ascii_of_string (Value l)) = true) labels) /\
  (forall s isKey, ValidateLabels labels = Some (NotMatch s isKey) ->
     exists l, l ∈ labels /\
       if isKey then s = Key l /\ valid_key (list_ascii_of_string s) = false
       else s = Value l /\ valid_value (list_ascii_of_string s) = false).
Proof.
  induction labels as [|l rest [IH1 IH2]]; cbn [ValidateLabels].
  - split; [split; [constructor|reflexivity]|discriminate].
  - pose proof (validateFormat_key (Key l)) as Hk.
    pose proof (validateFormat_value (Value l)) as Hv.
    destruct (validateFormat (Key l) true) as [ek|] eqn:Hek.
    + assert (Hbad : valid_key (list_ascii_of_string (Key l)) = false).
      { destruct (valid_key _); [|reflexivity]. destruct Hk as [_ Hk].
        discriminate (Hk eq_refl). }
      split.
      * split; [discriminate|]. intros Hall. apply Forall_cons in Hall as [[Hc _] _].
        congruence.
      * intros s isKey Heq. exists l. split; [apply elem_of_cons; by left|].
        unfold validateFormat in Hek. destruct (MatchString _ _); [discriminate|].
        inversion Hek; subst ek. inversion Heq; subst. auto.
    + destruct (validateFormat (Value l) false) as [ev|] eqn:Hev.
      * assert (Hbad : valid_value (list_ascii_of_string (Value l)) = false).
        { destruct (valid_value _); [|reflexivity]. destruct Hv as [_ Hv].
          discriminate (Hv eq_refl). }
        split.
        -- split; [discriminate|]. intros Hall. apply Forall_cons in Hall as [[_ Hc] _].
           congruence.
        -- intros s isKey Heq. exists l. split; [apply elem_of_cons; by left|].
           unfold validateFormat in Hev. destruct (MatchString _ _); [discriminate|].
           inversion Hev; subst ev. inversion Heq; subst. auto.
      * split.
        -- rewrite IH1. split.
           ++ intros Hall. apply Forall_cons. split; [|exact Hall].
              split; [by apply Hk|by apply Hv].
           ++ intros Hall. by apply Forall_cons in Hall as [_ Hall].
        -- intros s isKey Heq. destruct (IH2 s isKey Heq) as (l' & Hin & Hl').
           exists l'. split; [apply elem_of_cons; by right|exact Hl'].
Qed.

(** The formats on examples: a key may start with '$' but not with '-', may
    not be empty nor end with '.', a value may be empty; the key is checked
    before the value, label by label. *)
Example ValidateLabels_examples :
  ValidateLabels [mkLabel "zone" "z1"; mkLabel "$mode" ""; mkLabel "a.b/c-d_e" "-./_"] = None /\
  ValidateLabels [mkLabel "zone" "z 1"] = Some (NotMatch "z 1" false) /\
  ValidateLabels [mkLabel "" "z1"] = Some (NotMatch "" true) /\
  ValidateLabels [mkLabel "-zone" "z1"] = Some (NotMatch "-zone" true) /\
  ValidateLabels [mkLabel "zone." "z 1"] = Some (NotMatch "zone." true) /\
  ValidateLabels [mkLabel "zo$ne" "z1"] = Some (NotMatch "zo$ne" true) /\
  ValidateLabels [mkLabel "$" "z1"] = Some (NotMatch "$" true).
Proof. vm_compute. repeat split; reflexivity. Qed.

End LabelFormats.
